(** * dPF: the user-space control loop (src/main.c) and the kernel
      pseudo-file interface (src/kernelmod/kernel_dpf.c)

    A shallow embedding of the parts of the two C files that the checked
    properties talk about, followed by the properties themselves.

    Conventions.
    - A C [int] is a [Z]; where the code narrows a [long] to an [int] the
      wrap-around is written out ([to_int]).  [uint64_t] arithmetic is
      taken modulo [2^64].
    - A C string is a [string]; the terminating NUL is the end of the
      [string].
    - An array is a [list]; a store outside the array is undefined in C and
      is modelled by [None].
    - Constants that live in headers outside the two files are either read
      off the code that uses them (the priority bounds are printed by
      [print_usage]) or taken as parameters ([MAX_THREADS]). *)

From Stdlib Require Import ZArith List Ascii String Bool Lia QArith.
From stdpp Require Import base list.
Import ListNotations.

Local Open Scope Z_scope.

(** ** The C library string functions used by main.c *)

Module CStr.

(** [isspace] in the C locale: space, and the controls 9 .. 13. *)
Definition isspace (c : ascii) : bool :=
  let n := Z.of_N (N_of_ascii c) in
  (n =? 32) || ((9 <=? n) && (n <=? 13)).

Definition isdigit (c : ascii) : bool :=
  let n := Z.of_N (N_of_ascii c) in
  (48 <=? n) && (n <=? 57).

Definition digit_val (c : ascii) : Z := Z.of_N (N_of_ascii c) - 48.

Fixpoint skip_space (s : string) : string :=
  match s with
  | String c r => if isspace c then skip_space r else s
  | EmptyString => s
  end.

(** The digit run at the head of [s]: its value and what follows it. *)
Fixpoint digits (acc : Z) (s : string) : Z * string :=
  match s with
  | String c r => if isdigit c then digits (10 * acc + digit_val c) r
                  else (acc, s)
  | EmptyString => (acc, s)
  end.

(** [long] is 64 bits wide on the x86-64 Linux targets of the tool. *)
Definition LONG_MAX : Z := 2 ^ 63 - 1.
Definition LONG_MIN : Z := - 2 ^ 63.

Definition clamp_long (v : Z) : Z :=
  if v <? LONG_MIN then LONG_MIN
  else if LONG_MAX <? v then LONG_MAX else v.

(** The conversion of a [long] to an [int]: wrap-around on 32 bits. *)
Definition to_int (v : Z) : Z := (v + 2 ^ 31) mod 2 ^ 32 - 2 ^ 31.

(** [strtol (nptr, &endptr, 10)]: the value and the string [endptr] points
    to.  White space is skipped, one sign is accepted, the digit run is
    converted with saturation; without any digit the value is 0 and
    [endptr] is [nptr] itself. *)
Definition strtol (nptr : string) : Z * string :=
  let s := skip_space nptr in
  let '(neg, s1) :=
    match s with
    | String "-"%char r => (true, r)
    | String "+"%char r => (false, r)
    | _ => (false, s)
    end in
  match s1 with
  | String c _ =>
      if isdigit c then
        let '(v, e) := digits 0 s1 in
        (clamp_long (if neg then - v else v), e)
      else (0, nptr)
  | EmptyString => (0, nptr)
  end.

(** [strstr (s, "-")]: the suffix of [s] that starts at the first '-'. *)
Fixpoint strstr_dash (s : string) : option string :=
  match s with
  | String c r => if Ascii.eqb c "-"%char then Some s else strstr_dash r
  | EmptyString => None
  end.

Definition is_delim (delim : string) (c : ascii) : bool :=
  existsb (Ascii.eqb c) (list_ascii_of_string delim).

(** [strspn]-like skip of leading delimiters. *)
Fixpoint skip_delims (delim s : string) : string :=
  match s with
  | String c r => if is_delim delim c then skip_delims delim r else s
  | EmptyString => s
  end.

(** The token at the head of [s] and the position saved for the next call:
    the delimiter that ends the token is overwritten by NUL and skipped. *)
Fixpoint take_token (delim s : string) : string * string :=
  match s with
  | String c r =>
      if is_delim delim c then (EmptyString, r)
      else let '(t, rest) := take_token delim r in (String c t, rest)
  | EmptyString => (EmptyString, EmptyString)
  end.

(** One call of [strtok]: [None] is the NULL result; otherwise the token and
    the saved position that [strtok (NULL, delim)] continues from. *)
Definition strtok (delim s : string) : option (string * string) :=
  match skip_delims delim s with
  | EmptyString => None
  | s' => Some (take_token delim s')
  end.

(** All the tokens that the successive calls [strtok (s, delim)],
    [strtok (NULL, delim)], ... return before NULL, computed in one pass;
    [cur] is the token being read, in reverse.  That this is the sequence of
    results of [strtok] is [strtok_all_none] and [strtok_all_some] below. *)
Fixpoint strtok_from (delim : string) (cur : list ascii) (s : string)
  : list string :=
  let flush := match cur with
               | [] => []
               | _ => [string_of_list_ascii (rev cur)]
               end in
  match s with
  | String c r =>
      if is_delim delim c then flush ++ strtok_from delim [] r
      else strtok_from delim (c :: cur) r
  | EmptyString => flush
  end.

Definition strtok_all (delim s : string) : list string :=
  strtok_from delim [] s.

End CStr.

(** ** [parse_weights] (main.c, lines 263-306) *)

Module Weights.

(** common.h is not among the sources.  The three priority constants have
    the values that [print_usage] prints for the option: valid values range
    from 0 to 99 and the remaining cores default to a priority of 50. *)
Definition MIN_PRIORITY : Z := 0.
Definition MAX_PRIORITY : Z := 99.
Definition DEFAULT_PRIORITY : Z := 50.

(** [a[i] = v] on an array of [length a] elements. *)
Definition array_store (a : list Z) (i v : Z) : option (list Z) :=
  if (0 <=? i) && (i <? Z.of_nat (length a))
  then Some (<[Z.to_nat i := v]> a)
  else None.

(** How the first loop is left: by one of the two [return -1], or by
    falling out of it (NULL token, or [break]) with the count reached. *)
Inductive loop_exit : Type :=
| Returned (rc : Z)
| Fell (core_count : Z).

(** The [while (token != NULL)] loop.  [toks] are the tokens the calls of
    [strtok] would return from here on; [n] is [ACTIVE_THREADS]. *)
Fixpoint token_loop (n core_count : Z) (core_priority : list Z)
    (toks : list string) : option (loop_exit * list Z) :=
  match toks with
  | [] => Some (Fell core_count, core_priority)
  | token :: rest =>
      if core_count =? n then Some (Fell core_count, core_priority)
      else
        let '(v, endptr) := CStr.strtol token in
        let priority := CStr.to_int v in
        match endptr with
        | String _ _ => Some (Returned (-1), core_priority)
        | EmptyString =>
            if (priority <? MIN_PRIORITY) || (MAX_PRIORITY <? priority)
            then Some (Returned (-1), core_priority)
            else
              match array_store core_priority core_count priority with
              | None => None
              | Some cp => token_loop n (core_count + 1) cp rest
              end
        end
  end.

(** The [while (core_count < ACTIVE_THREADS)] loop; [fuel] bounds the number
    of iterations and [Z.to_nat (n - core_count)] is enough of it. *)
Fixpoint pad_loop (fuel : nat) (n core_count : Z) (core_priority : list Z)
  : option (Z * list Z) :=
  match fuel with
  | O => Some (core_count, core_priority)
  | S fuel' =>
      if core_count <? n then
        match array_store core_priority core_count DEFAULT_PRIORITY with
        | None => None
        | Some cp => pad_loop fuel' n (core_count + 1) cp
        end
      else Some (core_count, core_priority)
  end.

(** [parse_weights (weights_args)] with the globals it reads and writes made
    explicit: the return value and the array [core_priority] afterwards.
    [None]: the function stored outside [core_priority]. *)
Definition parse_weights (ACTIVE_THREADS : Z) (core_priority : list Z)
    (weights_args : string) : option (Z * list Z) :=
  match token_loop ACTIVE_THREADS 0 core_priority
          (CStr.strtok_all "," weights_args) with
  | None => None
  | Some (Returned rc, cp) => Some (rc, cp)
  | Some (Fell core_count, cp) =>
      match pad_loop (Z.to_nat (ACTIVE_THREADS - core_count))
              ACTIVE_THREADS core_count cp with
      | None => None
      | Some (_, cp') => Some (0, cp')
      end
  end.

(** What the loop body accepts: the whole token is a number and the [int]
    it is stored into lies in the range. *)
Definition token_ok (token : string) : bool :=
  let '(v, endptr) := CStr.strtol token in
  match endptr with
  | String _ _ => false
  | EmptyString =>
      negb ((CStr.to_int v <? MIN_PRIORITY) || (MAX_PRIORITY <? CStr.to_int v))
  end.

Definition token_val (token : string) : Z :=
  CStr.to_int (fst (CStr.strtol token)).

(** The tokens the first loop consumes when [n] cores are active. *)
Definition used_tokens (n : nat) (weights_args : string) : list string :=
  take n (CStr.strtok_all "," weights_args).

(** The priorities of the active cores: the first [n] entries of the array. *)
Definition active_priorities (n : Z) (r : option (Z * list Z))
  : option (Z * list Z) :=
  match r with
  | Some (rc, cp) => Some (rc, take (Z.to_nat n) cp)
  | None => None
  end.

End Weights.

(** ** One worker thread: [thread_start] and [sigintHandler] (main.c) *)

Module Worker.

(** The image of the prefetcher MSRs that [msr_init] fills and
    [msr_hwpf_write] writes: the array [hwpf_msr_value]. *)
Definition msr_image : Type := list Z.

Definition DDR_BW_NOT_SET : Z := -1.
Definition DDR_BW_AUTOTEST : Z := -2.

(** mab.h is not among the sources; [main] initialises the bandit exactly
    when [tunealg == 2], which is what [MAB] stands for. *)
Definition MAB : Z := 2.

(** [CORE_IN_MODULE]; [%] of C truncates, as [Z.rem] does. *)
Definition CORE_IN_MODULE (core_id core_first : Z) : Z :=
  Z.rem (core_id - core_first) 4.

(** [uint64_t] subtraction. *)
Definition u64_sub (a b : Z) : Z := (a - b) mod 2 ^ 64.

(** The fields of [struct thread_state] that [thread_start] uses. *)
Record thread_state : Type := mk_thread_state {
  core_id : Z;
  pmu_result : list Z;
  instructions_retired : Z;
  cpu_cycles : Z;
  hwpf_msr_value : msr_image;
  hwpf_msr_dirty : Z
}.

(** The local variables of [thread_start] that live across iterations. *)
Record locals : Type := mk_locals {
  pmu_old : list Z;
  pmu_new : list Z;
  instructions_old : Z;
  instructions_new : Z;
  cpu_cycles_old : Z;
  cpu_cycles_new : Z
}.

(** What the thread does to the world, in program order. *)
Inductive event : Type :=
| SetAffinity (core : Z)
| DdrInit
| DdrMeasure
| DdrDeinit
| MsrInit (core : Z)
| HwpfWrite (core : Z) (v : msr_image)
| EnableFixed
| PmuConfig
| Sleep
| PmuRead
| Publish (result : list Z) (instr cycles : Z)
| SyncArrive
| WaitAll
| Tuner
| SyncRelease
| WaitRelease
| Close
| FreeBuffers
| SetQuit
| RdtReset.

(** How an execution ends: the thread function returns, or [exit] ends
    the process with the given status argument. *)
Inductive ending : Type :=
| ThreadReturns
| ProcessExits (status : Z).

(** The configuration globals the thread reads. *)
Record config : Type := mk_config {
  core_first : Z;
  tunealg : Z;
  ddr_bw_target : Z
}.

(** What the rest of the system contributes during one iteration: the
    counters [pmu_core_read] returns, the two fields of this thread's state
    as the tuner has left them when the thread reaches the third step, and
    the MSR image of the arm the bandit has chosen. *)
Record tick_env : Type := mk_tick_env {
  read_pmu : list Z;
  read_instructions : Z;
  read_cycles : Z;
  tuned_value : msr_image;
  tuned_dirty : Z;
  arm_value : msr_image
}.

(** The first step of an iteration: save the previous sample, read the
    counters, publish the differences in the thread state. *)
Definition sample_phase (cfg : config) (l : locals) (ts : thread_state)
    (e : tick_env) : locals * thread_state :=
  if negb (tunealg cfg =? MAB) then
    let l' := mk_locals (pmu_new l) (read_pmu e)
                (instructions_old l) (read_instructions e)
                (cpu_cycles_old l) (read_cycles e) in
    (l', mk_thread_state (core_id ts)
           (zip_with u64_sub (pmu_new l') (pmu_old l'))
           (instructions_retired ts) (cpu_cycles ts)
           (hwpf_msr_value ts) (hwpf_msr_dirty ts))
  else
    let l' := mk_locals (pmu_old l) (read_pmu e)
                (instructions_new l) (read_instructions e)
                (cpu_cycles_new l) (read_cycles e) in
    (l', mk_thread_state (core_id ts) (pmu_result ts)
           (u64_sub (instructions_new l') (instructions_old l'))
           (u64_sub (cpu_cycles_new l') (cpu_cycles_old l'))
           (hwpf_msr_value ts) (hwpf_msr_dirty ts)).

(** The second step: arrive, and wait as the position of the core asks. *)
Definition sync_phase (cfg : config) (ts : thread_state) : list event :=
  if core_id ts =? core_first cfg then [SyncArrive; WaitAll; Tuner; SyncRelease]
  else if CORE_IN_MODULE (core_id ts) (core_first cfg) =? 0
       then [SyncArrive; WaitRelease]
       else [SyncArrive].

(** The third step: write the MSRs when this core leads its module and its
    state is dirty. *)
Definition apply_phase (cfg : config) (ts : thread_state) (e : tick_env)
  : list event * thread_state :=
  if (CORE_IN_MODULE (core_id ts) (core_first cfg) =? 0)
     && (hwpf_msr_dirty ts =? 1)
  then
    let v := if tunealg cfg =? MAB then arm_value e else hwpf_msr_value ts in
    ([HwpfWrite (core_id ts) v],
     mk_thread_state (core_id ts) (pmu_result ts) (instructions_retired ts)
       (cpu_cycles ts) (hwpf_msr_value ts) 0)
  else ([], ts).

(** One iteration of [while (quitflag == 0)]. *)
Definition tick (cfg : config) (l : locals) (ts : thread_state) (e : tick_env)
  : list event * (locals * thread_state) :=
  let '(l1, ts1) := sample_phase cfg l ts e in
  let published :=
    Publish (pmu_result ts1) (instructions_retired ts1) (cpu_cycles ts1) in
  let ts2 := mk_thread_state (core_id ts1) (pmu_result ts1)
               (instructions_retired ts1) (cpu_cycles ts1)
               (tuned_value e) (tuned_dirty e) in
  let '(writes, ts3) := apply_phase cfg ts2 e in
  ([Sleep; PmuRead; published] ++ sync_phase cfg ts1 ++ writes, (l1, ts3)).

(** The loop: one iteration for each element of [envs], that is for each
    time [quitflag] is read as 0; then it is read as non-zero. *)
Fixpoint tick_loop (cfg : config) (l : locals) (ts : thread_state)
    (envs : list tick_env) : list event * (locals * thread_state) :=
  match envs with
  | [] => ([], (l, ts))
  | e :: envs' =>
      let '(ev, (l1, ts1)) := tick cfg l ts e in
      let '(evs, r) := tick_loop cfg l1 ts1 envs' in
      (ev ++ evs, r)
  end.

(** What the bandwidth self-test contributes: the result of
    [ddrmembw_init] and the sum all threads have added to [ddr_bw_target]
    when the primary thread reads it. *)
Record autotest_env : Type := mk_autotest_env {
  ddrmembw_init_rc : Z;
  ddr_bw_sum : Z
}.

(** The block under [if (ddr_bw_target == DDR_BW_AUTOTEST)]: its events, and
    the exit status when it ends the process. *)
Definition autotest (cfg : config) (ts : thread_state) (a : autotest_env)
  : list event * option Z :=
  if ddr_bw_target cfg =? DDR_BW_AUTOTEST then
    if core_id ts =? core_first cfg then
      if ddrmembw_init_rc a <? 0 then ([DdrInit], Some (-1))
      else if ddr_bw_sum a =? 0
           then ([DdrInit; DdrMeasure; DdrDeinit], Some (-1))
           else ([DdrInit; DdrMeasure; DdrDeinit], None)
    else ([DdrMeasure], None)
  else ([], None).

(** [thread_start].  [image0] is what [msr_init] leaves in
    [hwpf_msr_value]; [l0] is the initial content of the local arrays. *)
Definition thread_start (cfg : config) (ts : thread_state) (l0 : locals)
    (a : autotest_env) (image0 : msr_image) (envs : list tick_env)
  : list event * ending :=
  let '(ev_test, ended) := autotest cfg ts a in
  match ended with
  | Some status => (SetAffinity (core_id ts) :: ev_test, ProcessExits status)
  | None =>
      let ts0 := mk_thread_state (core_id ts) (pmu_result ts)
                   (instructions_retired ts) (cpu_cycles ts)
                   image0 (hwpf_msr_dirty ts) in
      let init := [MsrInit (core_id ts);
                   HwpfWrite (core_id ts) (hwpf_msr_value ts0);
                   EnableFixed; PmuConfig] in
      let '(evs, _) := tick_loop cfg l0 ts0 envs in
      (SetAffinity (core_id ts) :: ev_test ++ init ++ evs ++ [Close],
       ThreadReturns)
  end.

(** The writes of the prefetcher MSRs in a trace, and the register after
    the trace: the last image written, or the content before it. *)
Definition is_write (e : event) : bool :=
  match e with HwpfWrite _ _ => true | _ => false end.

Definition writes (tr : list event) : list event :=
  List.filter is_write tr.

Fixpoint msr_after (hw : msr_image) (tr : list event) : msr_image :=
  match tr with
  | [] => hw
  | HwpfWrite _ v :: tr' => msr_after v tr'
  | _ :: tr' => msr_after hw tr'
  end.



End Worker.

(** ** The rendezvous on [syncflag] between the workers (main.c, 182-198)

    The workers of [main]'s start-up loop run interleaved: worker [i] has
    [core_id = core_first + i], so worker 0 is the one on [core_first] and
    [CORE_IN_MODULE] of worker [i] is [i % 4].  A step is one access to the
    shared variables; [usleep] takes no part, a schedule may delay any
    worker for any time. *)

Module Barrier.

(** Where a worker is in the loop body. *)
Inductive pc : Type :=
| AtTop          (* while (quitflag == 0), usleep *)
| AtSample       (* read the counters, store the differences *)
| AtArrive       (* atomic_fetch_add (&syncflag, 1) *)
| AtWaitAll      (* while (syncflag < ACTIVE_THREADS); *)
| AtTune         (* calculate_settings () *)
| AtRelease      (* syncflag = 0 *)
| AtWaitRelease  (* while (syncflag != 0); *)
| AtApply        (* the third step of the iteration *)
| AtDone.        (* the loop is left *)

(** A worker: its position, and counters that observe it (they are not
    variables of the program): the sample phases it has completed, its
    increments of [syncflag], the apply phases it has started, and the
    number of releases there had been when it last incremented. *)
Record worker : Type := mk_worker {
  w_pc : pc;
  sampled : nat;
  arrived : nat;
  applied : nat;
  rel_seen : nat
}.

(** The shared variables, the workers, and three more observers: the calls
    of the tuner, the stores [syncflag = 0], and the increments since the
    last such store. *)
Record system : Type := mk_system {
  syncflag : Z;
  quitflag : Z;
  workers : list worker;
  decisions : nat;
  releases : nat;
  pending : nat
}.

Definition is_primary (i : nat) : bool := Nat.eqb i 0.

Definition is_lead (i : nat) : bool :=
  Worker.CORE_IN_MODULE (Z.of_nat i) 0 =? 0.

Definition ACTIVE_THREADS (s : system) : Z := Z.of_nat (length (workers s)).

Definition set_worker (s : system) (i : nat) (w : worker) : system :=
  mk_system (syncflag s) (quitflag s) (<[i := w]> (workers s))
    (decisions s) (releases s) (pending s).

Definition at_pc (w : worker) (p : pc) : worker :=
  mk_worker p (sampled w) (arrived w) (applied w) (rel_seen w).

(** One step of worker [i]; [None] when there is no such worker or it has
    left the loop. *)
Definition step_worker (i : nat) (s : system) : option system :=
  match workers s !! i with
  | None => None
  | Some w =>
      match w_pc w with
      | AtTop =>
          Some (set_worker s i
                  (at_pc w (if quitflag s =? 0 then AtSample else AtDone)))
      | AtSample =>
          Some (set_worker s i
                  (mk_worker AtArrive (S (sampled w)) (arrived w)
                     (applied w) (rel_seen w)))
      | AtArrive =>
          let next := if is_primary i then AtWaitAll
                      else if is_lead i then AtWaitRelease else AtApply in
          Some (mk_system (CStr.to_int (syncflag s + 1)) (quitflag s)
                  (<[i := mk_worker next (sampled w) (S (arrived w))
                             (applied w) (releases s)]> (workers s))
                  (decisions s) (releases s) (S (pending s)))
      | AtWaitAll =>
          Some (set_worker s i
                  (at_pc w (if syncflag s <? ACTIVE_THREADS s
                            then AtWaitAll else AtTune)))
      | AtTune =>
          Some (mk_system (syncflag s) (quitflag s)
                  (<[i := at_pc w AtRelease]> (workers s))
                  (S (decisions s)) (releases s) (pending s))
      | AtRelease =>
          Some (mk_system 0 (quitflag s)
                  (<[i := at_pc w AtApply]> (workers s))
                  (decisions s) (S (releases s)) 0)
      | AtWaitRelease =>
          Some (set_worker s i
                  (at_pc w (if syncflag s =? 0 then AtApply
                            else AtWaitRelease)))
      | AtApply =>
          Some (set_worker s i
                  (mk_worker AtTop (sampled w) (arrived w)
                     (S (applied w)) (rel_seen w)))
      | AtDone => None
      end
  end.

(** What a schedule is made of: a step of a worker, or the signal handler
    storing [quitflag = 1]. *)
Inductive action : Type :=
| Run (i : nat)
| Sigint.

Definition step (a : action) (s : system) : option system :=
  match a with
  | Run i => step_worker i s
  | Sigint =>
      Some (mk_system (syncflag s) 1 (workers s)
              (decisions s) (releases s) (pending s))
  end.

Fixpoint run (sched : list action) (s : system) : option system :=
  match sched with
  | [] => Some s
  | a :: sched' =>
      match step a s with
      | None => None
      | Some s' => run sched' s'
      end
  end.

(** The state when the [n] workers have been created. *)
Definition init (n : nat) : system :=
  mk_system 0 0 (replicate n (mk_worker AtTop 0 0 0 0)) 0 0 0.

(** A schedule of three workers in which worker 1, which leads no module
    and therefore waits for nobody, goes round the loop twice before worker
    0 arrives; worker 2 does not move. *)
Definition racy_schedule : list action :=
  [Run 1; Run 1; Run 1; Run 1; Run 1; Run 1; Run 1;
   Run 0; Run 0; Run 0; Run 0; Run 0]%nat.

(** The state [racy_schedule] leads to: worker 0 has called the tuner and
    is about to release, worker 1 is in its second iteration, worker 2 is
    where it started. *)
Definition racy_state : system :=
  mk_system 3 0
    [mk_worker AtRelease 1 1 0 0; mk_worker AtApply 2 2 1 0;
     mk_worker AtTop 0 0 0 0]
    1 0 3.

(** Modelled from the spec: what it asks of a state.  When the tuner has
    been called [k] times, every worker has completed [k] sample phases. *)
Definition samples_before_decision (s : system) : Prop :=
  forall i w, workers s !! i = Some w -> (decisions s <= sampled w)%nat.

(** *** The invariant of the rendezvous *)

(** The counters of a worker follow its position. *)
Definition counters_ok (w : worker) : Prop :=
  match w_pc w with
  | AtTop | AtSample | AtDone =>
      sampled w = arrived w /\ applied w = arrived w
  | AtArrive => sampled w = S (arrived w) /\ applied w = arrived w
  | _ => sampled w = arrived w /\ arrived w = S (applied w)
  end.

(** Only worker 0 is found in the branch of the master core, and only the
    other module leads in the waiting branch. *)
Definition place_ok (i : nat) (w : worker) : Prop :=
  match w_pc w with
  | AtWaitAll | AtTune | AtRelease => i = 0%nat
  | AtWaitRelease => i <> 0%nat /\ is_lead i = true
  | _ => True
  end.

(** A worker that has incremented since the last release is counted. *)
Definition counted_ok (s : system) (w : worker) : Prop :=
  (rel_seen w <= releases s)%nat /\
  ((0 < arrived w)%nat -> rel_seen w = releases s -> (1 <= pending s)%nat).

(** A module lead other than worker 0 does not start more apply phases
    than there have been releases. *)
Definition lead_ok (s : system) (i : nat) (w : worker) : Prop :=
  is_lead i = true -> i <> 0%nat ->
  match w_pc w with
  | AtWaitRelease => (applied w <= rel_seen w)%nat
  | AtApply => (applied w < releases s)%nat
  | _ => (applied w <= releases s)%nat
  end.

(** Worker 0 calls the tuner and releases once in each of its iterations,
    and calls the tuner when the count has reached the number of workers. *)
Definition primary_ok (s : system) (i : nat) (w : worker) : Prop :=
  i = 0%nat ->
  match w_pc w with
  | AtTune =>
      decisions s = releases s /\ releases s = applied w
      /\ (length (workers s) <= pending s)%nat
  | AtRelease =>
      decisions s = S (releases s) /\ releases s = applied w
      /\ (length (workers s) <= pending s)%nat
  | AtApply => decisions s = releases s /\ releases s = S (applied w)
  | _ => decisions s = releases s /\ releases s = applied w
  end.

Definition local_inv (s : system) (i : nat) (w : worker) : Prop :=
  counters_ok w /\ place_ok i w /\ counted_ok s w /\ lead_ok s i w
  /\ primary_ok s i w.

(** After [k] steps. *)
Definition inv (k : nat) (s : system) : Prop :=
  syncflag s = Z.of_nat (pending s) /\
  (pending s <= k)%nat /\
  forall i w, workers s !! i = Some w -> local_inv s i w.

End Barrier.

(** ** [main] (main.c, lines 309-497) *)

Module Startup.

(** How a part of [main] ends. *)
Inductive outcome (A : Type) : Type :=
| Go (a : A)                     (* execution goes on *)
| Return (rv : Z) (usage : bool) (* [main] returns [rv]; was the usage text
                                    printed? *)
| Overrun.                       (* a store outside an array *)

Arguments Go {A} a.
Arguments Return {A} rv usage.
Arguments Overrun {A}.

Definition bind {A B : Type} (m : outcome A) (k : A -> outcome B)
  : outcome B :=
  match m with
  | Go a => k a
  | Return rv u => Return rv u
  | Overrun => Overrun
  end.

Notation "'do' x <- m ; k" := (bind m (fun x => k))
  (at level 10, x name, m at level 100, k at level 200).

(** The status the parent process sees when [main] returns [rv]. *)
Definition exit_status (rv : Z) : Z := rv mod 256.

(** The globals [main] sets, and its two locals. *)
Record globals : Type := mk_globals {
  core_first : Z;
  core_last : Z;
  ddr_bw_target : Z;
  time_intervall : Q;
  aggr : Q;
  tunealg : Z;
  rdt_enabled : Z;
  loglevel : Z;
  core_priority : list Z;
  weight_string : string;
  ddr_bw_auto_utilization : Q
}.

Definition set_cores (g : globals) (first last : Z) : globals :=
  mk_globals first last (ddr_bw_target g) (time_intervall g) (aggr g)
    (tunealg g) (rdt_enabled g) (loglevel g) (core_priority g)
    (weight_string g) (ddr_bw_auto_utilization g).

Definition set_ddr_bw_target (g : globals) (v : Z) : globals :=
  mk_globals (core_first g) (core_last g) v (time_intervall g) (aggr g)
    (tunealg g) (rdt_enabled g) (loglevel g) (core_priority g)
    (weight_string g) (ddr_bw_auto_utilization g).

Definition set_time_intervall (g : globals) (v : Q) : globals :=
  mk_globals (core_first g) (core_last g) (ddr_bw_target g) v (aggr g)
    (tunealg g) (rdt_enabled g) (loglevel g) (core_priority g)
    (weight_string g) (ddr_bw_auto_utilization g).

Definition set_aggr (g : globals) (v : Q) : globals :=
  mk_globals (core_first g) (core_last g) (ddr_bw_target g)
    (time_intervall g) v (tunealg g) (rdt_enabled g) (loglevel g)
    (core_priority g) (weight_string g) (ddr_bw_auto_utilization g).

Definition set_tunealg (g : globals) (v : Z) : globals :=
  mk_globals (core_first g) (core_last g) (ddr_bw_target g)
    (time_intervall g) (aggr g) v (rdt_enabled g) (loglevel g)
    (core_priority g) (weight_string g) (ddr_bw_auto_utilization g).

Definition set_rdt_enabled (g : globals) (v : Z) : globals :=
  mk_globals (core_first g) (core_last g) (ddr_bw_target g)
    (time_intervall g) (aggr g) (tunealg g) v (loglevel g)
    (core_priority g) (weight_string g) (ddr_bw_auto_utilization g).

Definition set_loglevel (g : globals) (v : Z) : globals :=
  mk_globals (core_first g) (core_last g) (ddr_bw_target g)
    (time_intervall g) (aggr g) (tunealg g) (rdt_enabled g) v
    (core_priority g) (weight_string g) (ddr_bw_auto_utilization g).

Definition set_core_priority (g : globals) (v : list Z) : globals :=
  mk_globals (core_first g) (core_last g) (ddr_bw_target g)
    (time_intervall g) (aggr g) (tunealg g) (rdt_enabled g) (loglevel g)
    v (weight_string g) (ddr_bw_auto_utilization g).

Definition set_weight_string (g : globals) (v : string) : globals :=
  mk_globals (core_first g) (core_last g) (ddr_bw_target g)
    (time_intervall g) (aggr g) (tunealg g) (rdt_enabled g) (loglevel g)
    (core_priority g) v (ddr_bw_auto_utilization g).

Definition set_utilization (g : globals) (v : Q) : globals :=
  mk_globals (core_first g) (core_last g) (ddr_bw_target g)
    (time_intervall g) (aggr g) (tunealg g) (rdt_enabled g) (loglevel g)
    (core_priority g) (weight_string g) v.

(** [ACTIVE_THREADS]. *)
Definition ACTIVE_THREADS (g : globals) : Z := core_last g - core_first g + 1.

(** What the collaborators outside the file answer. *)
Record collaborators : Type := mk_collaborators {
  first_efficiency_core : Z;   (* get_efficient_core_ids *)
  last_efficiency_core : Z;
  dmi_bandwidth : Z;           (* dmi_get_bandwidth *)
  rdt_support_rc : Z;          (* rdt_mbm_support_check *)
  rdt_init_rc : Z;             (* rdt_mbm_init *)
  weight_string0 : string      (* what the local buffer holds at first *)
}.

(** The value 0.7 as the [float] the local is initialised with. *)
Definition default_utilization : Q := 11744051 # 16777216.

(** [0.0001f], the smallest interval [--intervall] keeps: the binary32
    value nearest to 1/10000. *)
Definition min_intervall : Q := 13743895 # 137438953472.

(** The conversion of a [float] to an [int]: toward zero. *)
Definition float_to_int (q : Q) : Z := Z.quot (Qnum q) (Z.pos (Qden q)).

(** [dmi_get_bandwidth () * ddr_bw_auto_utilization], stored in an [int].
    Floats are taken as the rationals they denote and the product as exact;
    it is exact in [float] too when the bandwidth is -1, 0 or 1.  For
    other bandwidths the code rounds the product to the nearest [float]
    before it truncates, which this definition does not do, and the two
    can differ by one (46000 * 0.7f is stored as 32200 by the code). *)
Definition auto_target (bandwidth : Z) (utilization : Q) : Z :=
  float_to_int (inject_Z bandwidth * utilization).

Definition Qltb (x y : Q) : bool := negb (Qle_bool y x).

(** The entries of [gtinfo] the start-up loop fills and starts a thread
    for: the index [tnum] and the [core_id] stored there. *)
Definition startup_loop (first last : Z) : list (Z * Z) :=
  map (fun k => (Z.of_nat k, first + Z.of_nat k))
      (seq 0 (Z.to_nat (last - first + 1))).

(** The two numbers [case 'c'] reads from its argument: the one at its
    head, and the one after its first '-' when it has one. *)
Definition parse_core_range (optarg : string) : Z * Z :=
  let first := CStr.to_int (fst (CStr.strtol optarg)) in
  let last :=
    match CStr.strstr_dash optarg with
    | None => first
    | Some (String _ after) => CStr.to_int (fst (CStr.strtol after))
    | Some EmptyString => first
    end in
  (first, last).

Section Main.

(** The two array sizes of common.h, and [strtof]. *)
Variable MAX_THREADS : Z.
Variable MAX_WEIGHT_STR_LEN : nat.
Variable strtof : string -> Q.

(** Is [i] an index of an array of [MAX_THREADS] elements? *)
Definition in_bounds (i : Z) : bool := (0 <=? i) && (i <? MAX_THREADS).

(** The body of [case 'c']. *)
Definition core_option (optarg : string) (g : globals) : outcome globals :=
  let '(first, last) := parse_core_range optarg in
  let g' := set_cores g first last in
  if MAX_THREADS <? last - first then Return (-1) false else Go g'.

(** The [switch] on what [getopt_long] returned. *)
Definition option_case (c : ascii) (optarg : string) (g : globals)
  : outcome globals :=
  let got (x : ascii) := Ascii.eqb c x in
  if got "c"%char then core_option optarg g
  else if got "d"%char then Go (set_utilization g (strtof optarg))
  else if got "t"%char then Go (set_ddr_bw_target g Worker.DDR_BW_AUTOTEST)
  else if got "D"%char then
    Go (set_ddr_bw_target g (CStr.to_int (fst (CStr.strtol optarg))))
  else if got "i"%char then
    let t := strtof optarg in
    let t1 := if Qltb t min_intervall then min_intervall else t in
    let t2 := if Qltb (60 # 1) t1 then 60 # 1 else t1 in
    Go (set_time_intervall g t2)
  else if got "A"%char then
    Go (set_tunealg g (CStr.to_int (fst (CStr.strtol optarg))))
  else if got "a"%char then Go (set_aggr g (strtof optarg))
  else if got "l"%char then
    Go (set_loglevel g (CStr.to_int (fst (CStr.strtol optarg))))
  else if got "w"%char then
    Go (set_weight_string g
          (string_of_list_ascii
             (take MAX_WEIGHT_STR_LEN (list_ascii_of_string optarg))))
  else if got "?"%char || got "h"%char then Return 0 true
  else Return (-1) false.

(** The [while (1)] loop: [opts] is what the successive calls of
    [getopt_long] return before -1, each with its [optarg]; an option that
    is not known, or lacks its argument, comes back as '?'. *)
Fixpoint options_loop (opts : list (ascii * string)) (g : globals)
  : outcome globals :=
  match opts with
  | [] => Go g
  | (c, optarg) :: opts' =>
      do g' <- option_case c optarg g ; options_loop opts' g'
  end.

Definition autodetect (env : collaborators) (g : globals) : outcome globals :=
  if (core_first g =? -1) || (core_last g =? -1) then
    let g' := set_cores g (first_efficiency_core env)
                (last_efficiency_core env) in
    if (core_first g' =? -1) || (core_last g' =? -1)
    then Return (-1) false else Go g'
  else Go g.

Definition weights (g : globals) : outcome globals :=
  match weight_string g with
  | String _ _ =>
      match Weights.parse_weights (ACTIVE_THREADS g) (core_priority g)
              (weight_string g) with
      | None => Overrun
      | Some (rc, cp) =>
          if rc <? 0 then Return (-1) false else Go (set_core_priority g cp)
      end
  | EmptyString =>
      match Weights.pad_loop (Z.to_nat (ACTIVE_THREADS g))
              (ACTIVE_THREADS g) 0 (core_priority g) with
      | None => Overrun
      | Some (_, cp) => Go (set_core_priority g cp)
      end
  end.

(** Lines 444-454. *)
Definition ddrbw_auto (env : collaborators) (g : globals) : outcome globals :=
  if ddr_bw_target g =? Worker.DDR_BW_NOT_SET then
    let g' := set_ddr_bw_target g
                (auto_target (dmi_bandwidth env)
                   (ddr_bw_auto_utilization g)) in
    if ddr_bw_target g' =? -1 then Return (-1) false else Go g'
  else Go g.

Definition rdt_or_pmu (env : collaborators) (g : globals) : outcome globals :=
  if rdt_support_rc env =? 0 then
    if rdt_init_rc env =? 0 then Go (set_rdt_enabled g 1)
    else Return (rdt_init_rc env) false
  else Go g.

Definition start_threads (g : globals) : outcome (globals * list (Z * Z)) :=
  let created := startup_loop (core_first g) (core_last g) in
  if forallb (fun e => in_bounds (fst e)) created
  then Go (g, created) else Overrun.

Definition globals0 (env : collaborators) : globals :=
  mk_globals (-1) (-1) Worker.DDR_BW_NOT_SET 1 1 0 0 3
    (replicate (Z.to_nat MAX_THREADS) Weights.MIN_PRIORITY)
    (weight_string0 env) default_utilization.

(** [main] up to the start of the threads: the globals and the workers
    created, or the return value. *)
Definition main (opts : list (ascii * string)) (env : collaborators)
  : outcome (globals * list (Z * Z)) :=
  do g1 <- options_loop opts (globals0 env) ;
  do g2 <- autodetect env g1 ;
  do g3 <- weights g2 ;
  do g4 <- ddrbw_auto env g3 ;
  do g5 <- rdt_or_pmu env g4 ;
  start_threads g5.

End Main.

End Startup.

(** ** The pseudo-file of the kernel module (kernelmod/kernel_dpf.c) *)

Module ProcFile.

Definition EINVAL : Z := 22.
Definition ENOMEM : Z := 12.
Definition EFAULT : Z := 14.

(** [sizeof (struct dpf_msg_header)]: two 32-bit fields. *)
Definition HEADER_SIZE : Z := 8.

(** The per-core state the handlers touch. *)
Record core : Type := mk_core {
  core_disabled : bool;
  pf_msr : list Z;
  pmu_result : list Z
}.

(** A message as the handlers see it: the type of its header selects the
    handler, which reads the rest as its own request structure. *)
Inductive request : Type :=
| ReqInit
| ReqCoreRange (core_start core_end : Z)
| ReqCoreWeight (count : nat) (weights : list Z)
| ReqTuning (enable : Z)
| ReqDdrbwSet (set_value : Z)
| ReqPmuRead (core_id : nat)
| ReqMsrRead (core_id : nat)
| ReqOther (type : Z).

(** What [proc_buffer] points to: one of the response structures, or the
    block [dpf_module_init] allocates. *)
Inductive response : Type :=
| InitialBlock
| RespInit (version : Z)
| RespCoreRange (core_start core_end thread_count : Z)
| RespCoreWeight (count : nat) (confirmed_weights : list Z)
| RespTuning (status : Z)
| RespDdrbwSet (confirmed_value : Z)
| RespMsrRead (msr_values : list Z)
| RespPmuRead (pmu_values : list Z).

(** Is [r] the kind of response the handler of [req] builds? *)
Definition answers (req : request) (r : response) : bool :=
  match req, r with
  | ReqInit, RespInit _
  | ReqCoreRange _ _, RespCoreRange _ _ _
  | ReqCoreWeight _ _, RespCoreWeight _ _
  | ReqTuning _, RespTuning _
  | ReqDdrbwSet _, RespDdrbwSet _
  | ReqPmuRead _, RespPmuRead _
  | ReqMsrRead _, RespMsrRead _ => true
  | _, _ => false
  end.

(** The static variables of the module. *)
Record kstate : Type := mk_kstate {
  proc_buffer : option response;
  proc_buffer_size : Z;
  keep_running : bool;
  corestate : list core;
  ddr_bw_target : Z
}.

(** Which of the fallible kernel services succeed during one write. *)
Record services : Type := mk_services {
  copy_header_ok : bool;  (* copy_from_user (&header, ...) *)
  alloc_msg_ok : bool;    (* kmalloc (count) *)
  copy_msg_ok : bool;     (* copy_from_user (msg_data, ...) *)
  alloc_resp_ok : bool    (* kmalloc of the response *)
}.

Section Kernel.

(** The constants and functions of kernel_common.h and kernel_primitive.h,
    which are not among the sources. *)
Variable MAX_MSG_SIZE : Z.
Variable MAX_NUM_CORES : nat.
Variable DPF_API_VERSION : Z.
Variable MSR_1320_INDEX : nat.
Variable resp_sizeof : response -> Z.
Variable msr_load : core -> core.
Variable pmu_update : core -> core.
Variable core_in_module : nat -> Z.
Variable cpu_online : nat -> bool.

(** The common end of the handlers: the old block is freed and
    [proc_buffer] is pointed at the response. *)
Definition publish (s : kstate) (r : response) (size : Z) : kstate :=
  mk_kstate (Some r) size (keep_running s) (corestate s) (ddr_bw_target s).

Definition set_corestate (s : kstate) (cs : list core) : kstate :=
  mk_kstate (proc_buffer s) (proc_buffer_size s) (keep_running s) cs
    (ddr_bw_target s).

Definition handle_init (ok : bool) (s : kstate) : Z * kstate :=
  if negb ok then (- ENOMEM, s)
  else
    let r := RespInit DPF_API_VERSION in
    (0, publish s r (resp_sizeof r)).

Definition handle_core_range (ok : bool) (core_start core_end : Z)
    (s : kstate) : Z * kstate :=
  if negb ok then (- ENOMEM, s)
  else
    let r := RespCoreRange core_start core_end (core_end - core_start + 1) in
    let cs := imap (fun i c =>
                      if (i <? MAX_NUM_CORES)%nat then
                        mk_core ((Z.of_nat i <? core_start)
                                 || (core_end <? Z.of_nat i))
                                (pf_msr c) (pmu_result c)
                      else c) (corestate s) in
    (0, publish (set_corestate s cs) r (resp_sizeof r)).

Definition handle_core_weight (ok : bool) (count : nat) (weights : list Z)
    (s : kstate) : Z * kstate :=
  if negb ok then (- ENOMEM, s)
  else
    let r := RespCoreWeight count (take count weights) in
    (0, publish s r (resp_sizeof r)).

Definition handle_tuning (ok : bool) (enable : Z) (s : kstate)
  : Z * kstate :=
  if negb ok then (- ENOMEM, s)
  else
    let r := RespTuning enable in
    let s1 :=
      if enable =? 1 then
        let cs := imap (fun i c =>
                          if cpu_online i && negb (core_disabled c)
                             && (core_in_module i =? 0)
                          then msr_load c else c) (corestate s) in
        mk_kstate (proc_buffer s) (proc_buffer_size s) true cs
          (ddr_bw_target s)
      else
        mk_kstate (proc_buffer s) (proc_buffer_size s) false (corestate s)
          (ddr_bw_target s) in
    (0, publish s1 r (resp_sizeof r)).

Definition handle_ddrbw_set (ok : bool) (set_value : Z) (s : kstate)
  : Z * kstate :=
  if negb ok then (- ENOMEM, s)
  else
    let r := RespDdrbwSet set_value in
    let s1 := mk_kstate (proc_buffer s) (proc_buffer_size s)
                (keep_running s) (corestate s) set_value in
    (0, publish s1 r (resp_sizeof r)).

(** The test that opens both read handlers: the core exists and is
    enabled. *)
Definition readable_core (core_id : nat) (s : kstate) : option core :=
  if (MAX_NUM_CORES <=? core_id)%nat then None
  else
    match corestate s !! core_id with
    | Some c => if core_disabled c then None else Some c
    | None => None
    end.

Definition handle_msr_read (ok : bool) (core_id : nat) (s : kstate)
  : Z * kstate :=
  match readable_core core_id s with
  | None => (- EINVAL, s)
  | Some c =>
      if negb ok then (- ENOMEM, s)
      else
        let c1 := match pf_msr c !! MSR_1320_INDEX with
                  | Some 0 => msr_load c
                  | _ => c
                  end in
        let r := RespMsrRead (pf_msr c1) in
        (0, publish (set_corestate s (<[core_id := c1]> (corestate s)))
              r (resp_sizeof r))
  end.

Definition handle_pmu_read (ok : bool) (core_id : nat) (s : kstate)
  : Z * kstate :=
  match readable_core core_id s with
  | None => (- EINVAL, s)
  | Some c =>
      if negb ok then (- ENOMEM, s)
      else
        let c1 := pmu_update c in
        let r := RespPmuRead (pmu_result c1) in
        (0, publish (set_corestate s (<[core_id := c1]> (corestate s)))
              r (resp_sizeof r))
  end.

(** The [switch (header.type)]. *)
Definition dispatch (ok : bool) (req : request) (s : kstate) : Z * kstate :=
  match req with
  | ReqInit => handle_init ok s
  | ReqCoreRange a b => handle_core_range ok a b s
  | ReqCoreWeight n w => handle_core_weight ok n w s
  | ReqTuning e => handle_tuning ok e s
  | ReqDdrbwSet v => handle_ddrbw_set ok v s
  | ReqPmuRead c => handle_pmu_read ok c s
  | ReqMsrRead c => handle_msr_read ok c s
  | ReqOther _ => (- EINVAL, s)
  end.

(** [dpf_proc_write]: the value returned and the state afterwards. *)
Definition dpf_proc_write (count : Z) (req : request) (sv : services)
    (s : kstate) : Z * kstate :=
  if (count <? HEADER_SIZE) || (MAX_MSG_SIZE <? count) then (- EINVAL, s)
  else
    let s1 := match proc_buffer s with
              | Some _ => mk_kstate None 0 (keep_running s) (corestate s)
                            (ddr_bw_target s)
              | None => s
              end in
    if negb (copy_header_ok sv) then (- EFAULT, s1)
    else if negb (alloc_msg_ok sv) then (- ENOMEM, s1)
    else if negb (copy_msg_ok sv) then (- EFAULT, s1)
    else
      let '(ret, s2) := dispatch (alloc_resp_ok sv) req s1 in
      (if ret <? 0 then ret else count, s2).

(** [proc_read]: the value returned, the bytes handed to the reader (as the
    response they are the image of), and the file position afterwards. *)
Definition proc_read (count pos : Z) (copy_ok : bool) (s : kstate)
  : Z * option response * Z :=
  match proc_buffer s with
  | None => (0, None, pos)
  | Some r =>
      if (0 <? pos) || (count <? proc_buffer_size s) then (0, None, pos)
      else if negb copy_ok then (- EFAULT, None, pos)
      else (proc_buffer_size s, Some r, proc_buffer_size s)
  end.

(** The state [dpf_module_init] leaves, from the static array [cs]: the
    entries below [MAX_CORES] disabled and the others as they were (the loop
    runs to [MAX_CORES], a macro of its own that the handlers do not use), a
    block of [PROC_BUFFER_SIZE] bytes in [proc_buffer], [proc_buffer_size]
    still 0. *)
Definition module_state (MAX_CORES : nat) (cs : list core) (target : Z)
  : kstate :=
  mk_kstate (Some InitialBlock) 0 false
    (imap (fun i c => if (i <? MAX_CORES)%nat
                      then mk_core true (pf_msr c) (pmu_result c) else c) cs)
    target.

End Kernel.

(** A module to try the interface on: two cores, messages of at most 1024
    bytes, responses of 16 bytes, version 1, and every kernel service
    succeeding. *)
Definition demo_sizeof (_ : response) : Z := 16.

Definition demo_services : services := mk_services true true true true.

Definition demo_write (count : Z) (req : request) (s : kstate)
  : Z * kstate :=
  dpf_proc_write 1024 2 1 0 demo_sizeof id id (fun i => Z.of_nat i mod 4)
    (fun _ => true) count req demo_services s.

Definition demo_loaded : kstate :=
  module_state 2 [mk_core false [0] [0]; mk_core false [0] [0]] 0.

End ProcFile.

(** ** The range of a priority *)

Module WeightsAux.

Definition in_priority_range (v : Z) : Prop :=
  Weights.MIN_PRIORITY <= v <= Weights.MAX_PRIORITY.

(** *** Lists of numbers written in decimal *)

(** The character of the decimal digit [d]. *)
Definition digit_char (d : nat) : ascii := ascii_of_nat (48 + d).

(** The number written with the digits [ds], and its value. *)
Fixpoint numeral (ds : list nat) : string :=
  match ds with
  | [] => EmptyString
  | d :: ds' => String (digit_char d) (numeral ds')
  end.

Definition numeral_value (ds : list nat) : Z :=
  fold_left (fun a d => 10 * a + Z.of_nat d) ds 0.

Definition is_numeral (ds : list nat) : Prop :=
  ds <> [] /\ Forall (fun d => (d < 10)%nat) ds.

(** The entries [es] separated by commas. *)
Fixpoint weights_list (es : list (list nat)) : string :=
  match es with
  | [] => EmptyString
  | [e] => numeral e
  | e :: es' => (numeral e ++ String "," (weights_list es'))%string
  end.

(** Modelled from the spec: the priorities of [n] active cores for a list
    of values.  The first [n] values are used; each must lie in 0..99,
    otherwise parsing fails; the cores the list does not reach get 50. *)
Definition spec_priorities (n : nat) (values : list Z) : option (list Z) :=
  if forallb (fun v => (0 <=? v) && (v <=? 99)) (take n values)
  then Some (take n values ++ replicate (n - length values) 50)
  else None.

End WeightsAux.

(** ** Observations on the trace of a worker *)

Module WorkerAux.

Import Worker.

Definition is_tuner (e : event) : bool :=
  match e with Tuner => true | _ => false end.

Definition is_arrive (e : event) : bool :=
  match e with SyncArrive => true | _ => false end.

(** Does the tuner ask for a write in this iteration, and of which image:
    the one of the chosen arm under the bandit, else the one in the thread
    state. *)
Definition asks_write (e : tick_env) : bool := tuned_dirty e =? 1.

Definition asked_image (cfg : config) (e : tick_env) : msr_image :=
  if tunealg cfg =? MAB then arm_value e else tuned_value e.

(** The thread state and the locals when the loop is left. *)
Definition final_state (cfg : config) (l : locals) (ts : thread_state)
    (envs : list tick_env) : thread_state :=
  snd (snd (tick_loop cfg l ts envs)).

Definition final_locals (cfg : config) (l : locals) (ts : thread_state)
    (envs : list tick_env) : locals :=
  fst (snd (tick_loop cfg l ts envs)).

End WorkerAux.

(** ** More observations on the rendezvous *)

Module BarrierAux.

Import Barrier.

(** Five workers, the fifth of which leads the second module: worker 1
    samples, worker 4 samples and arrives, then the signal handler stores
    [quitflag] and worker 0, which had not started its iteration, leaves
    the loop. *)
Definition stuck_schedule : list action :=
  [Run 1; Run 1; Run 4; Run 4; Run 4; Sigint; Run 0]%nat.

Definition stuck_state : system :=
  mk_system 1 1
    [mk_worker AtDone 0 0 0 0; mk_worker AtArrive 1 0 0 0;
     mk_worker AtTop 0 0 0 0; mk_worker AtTop 0 0 0 0;
     mk_worker AtWaitRelease 1 1 0 0]
    0 0 1.

(** Where the workers can be, whatever the counters: only worker 0 in the
    branch of the master core, only the other module leads in the waiting
    branch, and nobody out of the loop unless [quitflag] is set. *)
Definition shape_inv (s : system) : Prop :=
  forall i w, workers s !! i = Some w ->
    place_ok i w /\ (w_pc w = AtDone -> quitflag s <> 0).

(** The increments of [syncflag] a worker has yet to make once [quitflag]
    is set: one when it is past the test of [quitflag] and before its
    increment, none otherwise. *)
Definition may_arrive (w : worker) : nat :=
  match w_pc w with
  | AtSample | AtArrive => 1
  | _ => 0
  end.

Definition arrivals_left (s : system) : nat :=
  sum_list_with may_arrive (workers s).

(** Worker 0 has left the loop, worker [j] is waiting for a release, and
    [syncflag], positive, cannot grow beyond [bound]. *)
Definition stuck (bound : Z) (j : nat) (s : system) : Prop :=
  shape_inv s /\ quitflag s <> 0 /\
  (exists w0, workers s !! 0%nat = Some w0 /\ w_pc w0 = AtDone) /\
  (exists w, workers s !! j = Some w /\ w_pc w = AtWaitRelease) /\
  0 < syncflag s /\
  syncflag s + Z.of_nat (arrivals_left s) <= bound.

(** How it may go on: worker 1 finishes its iteration and leaves, worker
    4 keeps testing [syncflag]. *)
Definition stuck_continuation : list action :=
  [Run 1; Run 4; Run 1; Run 1; Run 4]%nat.

Definition stuck_later : system :=
  mk_system 2 1
    [mk_worker AtDone 0 0 0 0; mk_worker AtDone 1 1 1 0;
     mk_worker AtTop 0 0 0 0; mk_worker AtTop 0 0 0 0;
     mk_worker AtWaitRelease 1 1 0 0]
    0 0 2.

(** All the increments of [syncflag] there have been. *)
Definition total_arrived (s : system) : nat :=
  sum_list_with arrived (workers s).

(** Every release has used up at least as many increments as there are
    workers; and worker 0, once it has arrived, is counted until it
    releases. *)
Definition release_inv (s : system) : Prop :=
  (length (workers s) * releases s + pending s <= total_arrived s)%nat /\
  forall w0, workers s !! 0%nat = Some w0 ->
             w_pc w0 = AtWaitAll -> (1 <= pending s)%nat.

(** Two workers: worker 1 samples and arrives, then worker 0 does, finds
    the count at 2 and calls the tuner. *)
Definition pair_schedule : list action :=
  [Run 1; Run 1; Run 1; Run 0; Run 0; Run 0; Run 0; Run 0]%nat.

Definition pair_state : system :=
  mk_system 2 0
    [mk_worker AtRelease 1 1 0 0; mk_worker AtApply 1 1 0 0] 1 0 2.

End BarrierAux.

(** ** [time_ms] and [calculate_settings] (main.c, lines 78-97) *)

Module Clock.

(** [time_ms] on the time [clock_gettime] has stored: the two terms are
    converted to [uint64_t] and added there; [/] of C truncates. *)
Definition time_ms (tv_sec tv_nsec : Z) : Z :=
  ((Z.quot tv_nsec 1000000) mod 2 ^ 64
   + ((tv_sec mod 2 ^ 64) * 1000) mod 2 ^ 64) mod 2 ^ 64.

End Clock.

Module Settings.

(** Which tuner [calculate_settings] calls. *)
Inductive tuner_call : Type :=
| CallBasicalg (alg : Z)
| CallMab
| CallNothing.

(** [calculate_settings]: the call it makes and the value it returns. *)
Definition calculate_settings (tunealg : Z) : tuner_call * Z :=
  (if (tunealg =? 0) || (tunealg =? 1) then CallBasicalg tunealg
   else if tunealg =? Worker.MAB then CallMab
   else CallNothing,
   0).

End Settings.

(** ** The timer callback and the PMU set-up of the kernel module
       (kernelmod/kernel_dpf.c, lines 32-54 and 418-454) *)

Module Monitor.

Import ProcFile.

(** One call of [native_write_msr (msr, low, high)]. *)
Record msr_write : Type := mk_msr_write {
  msr : Z;
  low : Z;
  high : Z
}.

(** The write of a 64-bit event code [e] to the register [reg], as
    [configure_pmu] spells it: [e & 0xFFFFFFFF] and [e >> 32]. *)
Definition write_event (reg e : Z) : msr_write :=
  mk_msr_write reg (Z.land e 4294967295) (Z.shiftr e 32).

(** [configure_pmu]: the seven event codes, which kernel_common.h defines,
    go to the registers 0x186 .. 0x18C, and 0x7F to 0x38F. *)
Definition configure_pmu (all_loads l2_hit l3_hit dram_hit xq_promotion
    clk_unhalted inst_retired : Z) : list msr_write :=
  [write_event 390 all_loads; write_event 391 l2_hit;
   write_event 392 l3_hit; write_event 393 dram_hit;
   write_event 394 xq_promotion; write_event 395 clk_unhalted;
   write_event 396 inst_retired; mk_msr_write 911 127 0].

(** What [monitor_callback] does, in order. *)
Inductive kevent : Type :=
| PmuUpdate (core_id : nat)
| Basicalg
| MsrUpdate (core_id : nat).

Inductive hrtimer_restart : Type :=
| HRTIMER_NORESTART
| HRTIMER_RESTART.

Section Callback.

(** What kernel_common.h and kernel_primitive.h define. *)
Variable FIRST_CORE : nat.
Variable core_in_module : nat -> Z.
Variable pmu_update : core -> core.
Variable is_msr_dirty : core -> Z.
Variable msr_update : core -> core.
Variable kernel_basicalg : list core -> list core.

(** The body of [for_each_online_cpu] for one core. *)
Definition visit (st : list core * list kevent) (core_id : nat)
  : list core * list kevent :=
  let '(cs, evs) := st in
  match cs !! core_id with
  | None => st
  | Some c =>
      if core_disabled c then st
      else
        let cs1 := <[core_id := pmu_update c]> cs in
        let '(cs2, evs2) :=
          if (core_id =? FIRST_CORE)%nat
          then (kernel_basicalg cs1, evs ++ [PmuUpdate core_id; Basicalg])
          else (cs1, evs ++ [PmuUpdate core_id]) in
        match cs2 !! core_id with
        | None => (cs2, evs2)
        | Some c2 =>
            if (core_in_module core_id =? 0) && (is_msr_dirty c2 =? 1)
            then (<[core_id := msr_update c2]> cs2,
                  evs2 ++ [MsrUpdate core_id])
            else (cs2, evs2)
        end
  end.

(** [monitor_callback]: [online] lists the CPUs [for_each_online_cpu]
    visits, in its order. *)
Definition monitor_callback (running : bool) (online : list nat)
    (cs : list core) : hrtimer_restart * (list core * list kevent) :=
  if negb running then (HRTIMER_NORESTART, (cs, []))
  else (HRTIMER_RESTART, fold_left visit online (cs, [])).

End Callback.

Definition is_basicalg (e : kevent) : bool :=
  match e with Basicalg => true | _ => false end.

(** What the callback may do when it visits the CPU [i]. *)
Definition event_of_visit (FIRST_CORE : nat) (core_in_module : nat -> Z)
    (i : nat) (e : kevent) : Prop :=
  e = PmuUpdate i \/ (e = Basicalg /\ i = FIRST_CORE)
  \/ (e = MsrUpdate i /\ core_in_module i = 0).

End Monitor.

(** * Properties *)

(** ** Tokens *)

Section Tokens.

Import CStr.

Variable delim : string.

(** Reading on from inside a token: the token started in [cur] is
    completed by what [take_token] finds. *)
Lemma strtok_from_inside (s : string) (cur : list ascii) (c : ascii) :
  strtok_from delim (c :: cur) s =
  string_of_list_ascii (rev (c :: cur)
                          ++ list_ascii_of_string (fst (take_token delim s)))
    :: strtok_all delim (snd (take_token delim s)).
Proof.
  revert cur c. induction s as [|a s IH]; intros cur c.
  - cbn [strtok_from take_token fst snd list_ascii_of_string].
    now rewrite app_nil_r.
  - cbn [strtok_from take_token].
    destruct (is_delim delim a) eqn:Ha.
    + cbn [fst snd list_ascii_of_string]. now rewrite app_nil_r.
    + rewrite IH. destruct (take_token delim s) as [t rest].
      cbn [fst snd list_ascii_of_string].
      f_equal. f_equal. cbn [rev]. now rewrite <- !app_assoc.
Qed.

Lemma strtok_all_skip (s : string) :
  strtok_all delim s = strtok_all delim (skip_delims delim s).
Proof.
  unfold strtok_all.
  induction s as [|a s IH]; [reflexivity|].
  cbn [strtok_from skip_delims].
  destruct (is_delim delim a) eqn:Ha; [exact IH|].
  cbn [strtok_from]. now rewrite Ha.
Qed.

Lemma skip_delims_head (s : string) (c : ascii) (r : string) :
  skip_delims delim s = String c r -> is_delim delim c = false.
Proof.
  induction s as [|a s IH]; cbn [skip_delims]; [discriminate|].
  destruct (is_delim delim a) eqn:Ha; [exact IH|].
  intros [= -> ->]. exact Ha.
Qed.

(** The token list is what the successive calls of [strtok] return. *)
Lemma strtok_all_none (s : string) :
  strtok delim s = None -> strtok_all delim s = [].
Proof.
  unfold strtok. rewrite strtok_all_skip.
  destruct (skip_delims delim s); [reflexivity | discriminate].
Qed.

Lemma strtok_all_some (s token saved : string) :
  strtok delim s = Some (token, saved) ->
  strtok_all delim s = token :: strtok_all delim saved.
Proof.
  unfold strtok. rewrite strtok_all_skip.
  destruct (skip_delims delim s) as [|c r] eqn:Hs; [discriminate|].
  apply skip_delims_head in Hs.
  intros [= H]. revert H.
  unfold strtok_all at 1. cbn [strtok_from take_token]. rewrite Hs.
  rewrite strtok_from_inside.
  destruct (take_token delim r) as [t rest]. cbn [fst snd rev app].
  intros [= <- <-]. f_equal.
  cbn [string_of_list_ascii]. now rewrite string_of_list_ascii_of_string.
Qed.

End Tokens.

(** ** [parse_weights] *)

Section WeightsFacts.

Import Weights.

Lemma array_store_in (cp : list Z) (k : nat) (v : Z) :
  (k < length cp)%nat ->
  array_store cp (Z.of_nat k) v = Some (<[k := v]> cp).
Proof.
  intros Hk. unfold array_store.
  replace ((0 <=? Z.of_nat k) && (Z.of_nat k <? Z.of_nat (length cp)))
    with true by (symmetry; apply andb_true_iff; split; lia).
  now rewrite Nat2Z.id.
Qed.

Lemma array_store_out (cp : list Z) (i v : Z) :
  Z.of_nat (length cp) <= i -> array_store cp i v = None.
Proof.
  intros Hi. unfold array_store.
  replace (i <? Z.of_nat (length cp)) with false by (symmetry; lia).
  now rewrite andb_false_r.
Qed.

Lemma token_ok_strtol (token : string) :
  token_ok token = true ->
  CStr.strtol token = (fst (CStr.strtol token), EmptyString) /\
  (token_val token <? MIN_PRIORITY) || (MAX_PRIORITY <? token_val token)
  = false.
Proof.
  unfold token_ok, token_val.
  destruct (CStr.strtol token) as [v [|c e]]; [|discriminate].
  cbn [fst]. intros H. split; [reflexivity|].
  now apply negb_true_iff in H.
Qed.

Lemma token_ok_range (token : string) :
  token_ok token = true ->
  MIN_PRIORITY <= token_val token <= MAX_PRIORITY.
Proof.
  intros H. apply token_ok_strtol in H as [_ H].
  apply orb_false_iff in H as [H1 H2]. lia.
Qed.

(** The first loop when every token it consumes is accepted. *)
Lemma token_loop_accepts (toks : list string) :
  forall (n k : nat) (cp : list Z),
    (k <= n <= length cp)%nat ->
    forallb token_ok (take (n - k) toks) = true ->
    token_loop (Z.of_nat n) (Z.of_nat k) cp toks =
    Some (Fell (Z.of_nat (k + length (take (n - k) toks))),
          take k cp ++ map token_val (take (n - k) toks)
            ++ drop (k + length (take (n - k) toks)) cp).
Proof.
  induction toks as [|t toks IH]; intros n k cp Hk Hok.
  - rewrite take_nil. cbn [token_loop length map app].
    rewrite Nat.add_0_r, take_drop. reflexivity.
  - cbn [token_loop].
    destruct (Z.of_nat k =? Z.of_nat n) eqn:Hkn.
    + assert (k = n) as -> by lia.
      rewrite Nat.sub_diag. cbn [take length map app].
      rewrite Nat.add_0_r, take_drop. reflexivity.
    + assert (n - k = S (n - S k))%nat as Hs by lia.
      rewrite Hs in Hok |- *. cbn [take forallb] in Hok.
      apply andb_true_iff in Hok as [Ht Hrest].
      destruct (token_ok_strtol t Ht) as [Hst Hrange].
      rewrite Hst. fold (token_val t). rewrite Hrange.
      rewrite array_store_in by lia.
      replace (Z.of_nat k + 1) with (Z.of_nat (S k)) by lia.
      rewrite IH; [|rewrite length_insert; lia|exact Hrest].
      cbn [take length map].
      replace (k + S (length (take (n - S k) toks)))%nat
        with (S k + length (take (n - S k) toks))%nat by lia.
      f_equal. f_equal.
      rewrite drop_insert_lt by lia.
      rewrite (take_S_r _ k (token_val t))
        by (apply list_lookup_insert_eq; lia).
      rewrite take_insert_ge by lia.
      now rewrite <- app_assoc.
Qed.

(** The first loop when one of the tokens it consumes is refused. *)
Lemma token_loop_refuses (toks : list string) :
  forall (n k : nat) (cp : list Z),
    (k <= n <= length cp)%nat ->
    forallb token_ok (take (n - k) toks) = false ->
    exists cp', token_loop (Z.of_nat n) (Z.of_nat k) cp toks =
                Some (Returned (-1), cp').
Proof.
  induction toks as [|t toks IH]; intros n k cp Hk Hbad.
  - now rewrite take_nil in Hbad.
  - cbn [token_loop].
    destruct (Z.of_nat k =? Z.of_nat n) eqn:Hkn.
    + assert (k = n) as -> by lia.
      now rewrite Nat.sub_diag in Hbad.
    + assert (n - k = S (n - S k))%nat as Hs by lia.
      rewrite Hs in Hbad. cbn [take forallb] in Hbad.
      destruct (token_ok t) eqn:Ht.
      * destruct (token_ok_strtol t Ht) as [Hst Hrange].
        rewrite Hst. fold (token_val t). rewrite Hrange.
        rewrite array_store_in by lia.
        replace (Z.of_nat k + 1) with (Z.of_nat (S k)) by lia.
        apply IH; [rewrite length_insert; lia | exact Hbad].
      * unfold token_ok in Ht.
        destruct (CStr.strtol t) as [v [|c e]]; [|eauto].
        apply negb_false_iff in Ht. rewrite Ht. eauto.
Qed.

(** The second loop fills up to [n] with the default. *)
Lemma pad_loop_fills (m : nat) :
  forall (n k : nat) (cp : list Z),
    (k + m = n)%nat -> (n <= length cp)%nat ->
    pad_loop m (Z.of_nat n) (Z.of_nat k) cp =
    Some (Z.of_nat n,
          take k cp ++ replicate m DEFAULT_PRIORITY ++ drop n cp).
Proof.
  induction m as [|m IH]; intros n k cp Hkm Hn.
  - cbn [pad_loop replicate app].
    assert (k = n) as -> by lia. now rewrite take_drop.
  - cbn [pad_loop].
    replace (Z.of_nat k <? Z.of_nat n) with true by (symmetry; lia).
    rewrite array_store_in by lia.
    replace (Z.of_nat k + 1) with (Z.of_nat (S k)) by lia.
    rewrite (IH n (S k)); [|lia|rewrite length_insert; lia].
    f_equal. f_equal.
    rewrite drop_insert_lt by lia.
    rewrite (take_S_r _ k DEFAULT_PRIORITY)
      by (apply list_lookup_insert_eq; lia).
    rewrite take_insert_ge by lia.
    cbn [replicate]. now rewrite <- app_assoc.
Qed.

Lemma parse_weights_accepts (n : nat) (cp : list Z) (s : string) :
  (n <= length cp)%nat ->
  forallb token_ok (used_tokens n s) = true ->
  parse_weights (Z.of_nat n) cp s =
  Some (0, map token_val (used_tokens n s)
             ++ replicate (n - length (used_tokens n s)) DEFAULT_PRIORITY
             ++ drop n cp).
Proof.
  intros Hn Hok. unfold parse_weights, used_tokens in *.
  pose proof (token_loop_accepts (CStr.strtok_all "," s) n 0 cp) as H.
  rewrite Nat.sub_0_r in H. change (Z.of_nat 0) with 0 in H.
  rewrite H by (lia || assumption). clear H.
  set (used := take n (CStr.strtok_all "," s)) in *.
  assert (length used <= n)%nat as Hlen
    by (subst used; rewrite length_take; lia).
  rewrite take_0, Nat.add_0_l, app_nil_l.
  replace (Z.to_nat (Z.of_nat n - Z.of_nat (length used)))
    with (n - length used)%nat by lia.
  rewrite (pad_loop_fills (n - length used) n (length used));
    [|lia|rewrite length_app, length_map, length_drop; lia].
  f_equal. f_equal.
  rewrite take_app_length' by now rewrite length_map.
  f_equal. f_equal.
  rewrite drop_app_ge by (rewrite length_map; lia).
  rewrite length_map, drop_drop. f_equal. lia.
Qed.

Lemma parse_weights_refuses (n : nat) (cp : list Z) (s : string) :
  (n <= length cp)%nat ->
  forallb token_ok (used_tokens n s) = false ->
  exists cp', parse_weights (Z.of_nat n) cp s = Some (-1, cp').
Proof.
  intros Hn Hbad. unfold parse_weights, used_tokens in *.
  pose proof (token_loop_refuses (CStr.strtok_all "," s) n 0 cp) as H.
  rewrite Nat.sub_0_r in H. change (Z.of_nat 0) with 0 in H.
  destruct H as [cp' ->]; [lia|assumption|]. eauto.
Qed.

Lemma active_priorities_accepts (n : nat) (cp : list Z) (s : string) :
  (n <= length cp)%nat ->
  forallb token_ok (used_tokens n s) = true ->
  active_priorities (Z.of_nat n) (parse_weights (Z.of_nat n) cp s) =
  Some (0, map token_val (used_tokens n s)
             ++ replicate (n - length (used_tokens n s)) DEFAULT_PRIORITY).
Proof.
  intros Hn Hok. rewrite parse_weights_accepts by assumption.
  unfold active_priorities. rewrite Nat2Z.id. f_equal. f_equal.
  assert (length (used_tokens n s) <= n)%nat
    by (unfold used_tokens; rewrite length_take; lia).
  rewrite app_assoc. apply take_app_length'.
  rewrite length_app, length_map, length_replicate. lia.
Qed.

(** What the loop body accepts and refuses, on a few tokens; white space
    and a sign before the digits are taken by [strtol], and a value beyond
    the [int] range is judged after its conversion to [int]. *)
Example token_ok_examples :
  map token_ok ["0"; "99"; " 7"; "+8"; "-0"; "100"; "-1"; "abc"; "12a";
                "7 "; "-"; "4294967306"]%string
  = [true; true; true; true; true; false; false; false; false;
     false; false; true]
  /\ token_val "4294967306" = 10.
Proof. split; reflexivity. Qed.



End WeightsFacts.

(** ** The worker thread *)

Section WorkerFacts.

Import Worker.

Lemma writes_app (tr1 tr2 : list event) :
  writes (tr1 ++ tr2) = writes tr1 ++ writes tr2.
Proof. apply List.filter_app. Qed.

Lemma writes_sync_phase (cfg : config) (ts : thread_state) :
  writes (sync_phase cfg ts) = [].
Proof.
  unfold sync_phase.
  destruct (core_id ts =? core_first cfg); [reflexivity|].
  now destruct (CORE_IN_MODULE (core_id ts) (core_first cfg) =? 0).
Qed.

Lemma sample_phase_core_id cfg l ts e :
  core_id (snd (sample_phase cfg l ts e)) = core_id ts.
Proof. unfold sample_phase. now destruct (negb (tunealg cfg =? MAB)). Qed.

Lemma apply_phase_core_id cfg ts e :
  core_id (snd (apply_phase cfg ts e)) = core_id ts.
Proof.
  unfold apply_phase.
  now destruct ((CORE_IN_MODULE (core_id ts) (core_first cfg) =? 0)
                && (hwpf_msr_dirty ts =? 1)).
Qed.

(** The writes of one iteration are those of its third step. *)
Lemma tick_writes cfg l ts e :
  writes (fst (tick cfg l ts e)) =
  writes (fst (apply_phase cfg
                 (mk_thread_state
                    (core_id (snd (sample_phase cfg l ts e)))
                    (pmu_result (snd (sample_phase cfg l ts e)))
                    (instructions_retired (snd (sample_phase cfg l ts e)))
                    (cpu_cycles (snd (sample_phase cfg l ts e)))
                    (tuned_value e) (tuned_dirty e)) e)).
Proof.
  unfold tick. destruct (sample_phase cfg l ts e) as [l1 ts1]. cbn [snd].
  destruct (apply_phase _ _ e) as [w ts3]. cbn [fst].
  rewrite !writes_app, writes_sync_phase. reflexivity.
Qed.

Lemma tick_core_id cfg l ts e :
  core_id (snd (snd (tick cfg l ts e))) = core_id ts.
Proof.
  unfold tick.
  pose proof (sample_phase_core_id cfg l ts e) as Hs.
  destruct (sample_phase cfg l ts e) as [l1 ts1]. cbn [snd] in Hs.
  match goal with |- context [apply_phase cfg ?t e] =>
    pose proof (apply_phase_core_id cfg t e) as Ha;
    destruct (apply_phase cfg t e) as [w ts3] end.
  cbn [snd core_id] in *. congruence.
Qed.








Lemma msr_after_no_write (tr : list event) :
  writes tr = [] -> forall hw, msr_after hw tr = hw.
Proof.
  induction tr as [|e tr IH]; intros Hw hw; [reflexivity|].
  destruct e; cbn [msr_after]; try (apply IH; exact Hw).
  discriminate Hw.
Qed.




(** The claim of C3 fails on an apparent decrease: with the previous
    sample 5 and the new one 3 the published difference is [2^64 - 2]. *)
Lemma pmu_delta_of_decrease_is_not_zero :
  pmu_result (snd (sample_phase (mk_config 0 0 46000)
                     (mk_locals [0] [5] 0 0 0 0)
                     (mk_thread_state 0 [0] 0 0 [] 0)
                     (mk_tick_env [3] 0 0 [] 0 [])))
  = [18446744073709551614].
Proof. reflexivity. Qed.

Lemma u64_sub_range (a b : Z) : 0 <= u64_sub a b < 2 ^ 64.
Proof. unfold u64_sub. apply Z.mod_pos_bound. lia. Qed.

Lemma u64_sub_all_in_range (xs ys : list Z) :
  Forall (fun d => 0 <= d < 2 ^ 64) (zip_with u64_sub xs ys).
Proof.
  revert ys. induction xs as [|x xs IH]; intros [|y ys]; cbn [zip_with];
    try constructor.
  - apply u64_sub_range.
  - apply IH.
Qed.

Lemma u64_sub_cases (new old : Z) :
  0 <= new < 2 ^ 64 -> 0 <= old < 2 ^ 64 ->
  (old <= new -> u64_sub new old = new - old) /\
  (new < old -> u64_sub new old = 2 ^ 64 - (old - new)).
Proof.
  intros Hn Ho. unfold u64_sub. split; intros H.
  - apply Z.mod_small. lia.
  - symmetry. apply (Z.mod_unique_pos _ _ (-1)); lia.
Qed.

(** C3, amended. When the algorithm is not the bandit, the differences an
    iteration publishes are the 64-bit differences, counter by counter, of
    the new sample and the previous one: each lies in [0, 2^64), it is
    [new - old] when the counter has not decreased and [2^64 - (old - new)],
    which is not zero, when it has. *)
Theorem pmu_delta_is_wrapped_difference (cfg : config) (l : locals)
    (ts : thread_state) (e : tick_env) :
  tunealg cfg <> MAB ->
  pmu_result (snd (sample_phase cfg l ts e))
    = zip_with u64_sub (read_pmu e) (pmu_new l) /\
  Forall (fun d => 0 <= d < 2 ^ 64)
         (pmu_result (snd (sample_phase cfg l ts e))) /\
  (forall new old, 0 <= new < 2 ^ 64 -> 0 <= old < 2 ^ 64 ->
     (old <= new -> u64_sub new old = new - old) /\
     (new < old -> u64_sub new old = 2 ^ 64 - (old - new)
                   /\ 0 < u64_sub new old)).
Proof.
  intros Halg.
  assert (pmu_result (snd (sample_phase cfg l ts e))
          = zip_with u64_sub (read_pmu e) (pmu_new l)) as Heq.
  { unfold sample_phase.
    replace (tunealg cfg =? MAB) with false by (symmetry; lia).
    reflexivity. }
  split; [exact Heq|]. split.
  - rewrite Heq. apply u64_sub_all_in_range.
  - intros new old Hn Ho.
    destruct (u64_sub_cases new old Hn Ho) as [H1 H2].
    split; [exact H1|]. intros Hlt. split; [now apply H2|].
    rewrite (H2 Hlt). lia.
Qed.

Lemma pmu_delta_is_wrapped_difference_witness :
  pmu_result (snd (sample_phase (mk_config 0 0 46000)
                     (mk_locals [0; 0] [5; 10] 0 0 0 0)
                     (mk_thread_state 0 [0; 0] 0 0 [] 0)
                     (mk_tick_env [3; 17] 0 0 [] 0 [])))
  = [2 ^ 64 - 2; 7].
Proof.
  exact (proj1 (pmu_delta_is_wrapped_difference (mk_config 0 0 46000)
                  (mk_locals [0; 0] [5; 10] 0 0 0 0)
                  (mk_thread_state 0 [0; 0] 0 0 [] 0)
                  (mk_tick_env [3; 17] 0 0 [] 0 [])
                  ltac:(discriminate))).
Defined.



End WorkerFacts.

(** ** Start-up *)

Section StartupFacts.

Import Startup.

Variable MAX_THREADS : Z.
Variable MAX_WEIGHT_STR_LEN : nat.
Variable strtof : string -> Q.

Abbreviation options_loop := (options_loop MAX_THREADS MAX_WEIGHT_STR_LEN strtof).
Abbreviation option_case := (option_case MAX_THREADS MAX_WEIGHT_STR_LEN strtof).
Abbreviation main := (main MAX_THREADS MAX_WEIGHT_STR_LEN strtof).

Lemma options_loop_app (before rest : list (ascii * string)) :
  forall g,
    options_loop (before ++ rest) g =
    bind (options_loop before g) (options_loop rest).
Proof.
  induction before as [|[c arg] before IH]; intros g; [reflexivity|].
  cbn [app Startup.options_loop].
  destruct (option_case c arg g); cbn [bind]; [apply IH | reflexivity..].
Qed.

Lemma option_case_usage (c : ascii) (arg : string) (g : globals) :
  c = "?"%char \/ c = "h"%char -> option_case c arg g = Return 0 true.
Proof. intros [-> | ->]; reflexivity. Qed.

(** The value stored by lines 444-454 when no bandwidth option was given:
    the product, truncated; the only product refused is the one that
    truncates to -1. *)
Lemma ddrbw_auto_derives (env : collaborators) (g : globals) :
  ddr_bw_target g = Worker.DDR_BW_NOT_SET ->
  ddrbw_auto env g =
  if auto_target (dmi_bandwidth env) (ddr_bw_auto_utilization g) =? -1
  then Return (-1) false
  else Go (set_ddr_bw_target g
             (auto_target (dmi_bandwidth env) (ddr_bw_auto_utilization g))).
Proof. intros H. unfold ddrbw_auto. now rewrite H. Qed.

End StartupFacts.

Section StartupClaims.

Import Startup.

(** C5 (the code departs from the claim). With no bandwidth option, the
    default factor and a DMI reader that answers -1, the target is
    [(int) (-1 * 0.7f) = 0]; the test against -1 does not fire and [main]
    goes on to start its threads with a target of 0.  The same happens
    when the reader answers 0. *)
Theorem ddrbw_auto_goes_on_without_bandwidth :
  let env bw := mk_collaborators 8 11 bw 1 0 EmptyString in
  let no_float (_ : string) : Q := 0%Q in
  auto_target (-1) default_utilization = 0 /\
  (forall bw, bw = -1 \/ bw = 0 ->
     exists g,
       main 64 256 no_float [] (env bw)
       = Go (g, [(0, 8); (1, 9); (2, 10); (3, 11)])
       /\ ddr_bw_target g = 0).
Proof.
  intros env no_float. split; [reflexivity|].
  intros bw [-> | ->]; eexists; split; vm_compute; reflexivity.
Qed.

Lemma ddrbw_auto_goes_on_without_bandwidth_witness :
  exists g,
    main 64 256 (fun _ => 0%Q) []
      (mk_collaborators 8 11 (-1) 1 0 EmptyString)
    = Go (g, [(0, 8); (1, 9); (2, 10); (3, 11)])
    /\ ddr_bw_target g = 0.
Proof.
  exact (proj2 ddrbw_auto_goes_on_without_bandwidth (-1)
           (or_introl eq_refl)).
Defined.

(** The claim of C8 fails on the shortest such command line: the only
    option is not known, the usage text is printed and [main] returns 0. *)
Lemma unknown_option_exit_status_is_not_2 :
  main 64 256 (fun _ => 0%Q) [("?"%char, EmptyString)]
    (mk_collaborators 8 11 46000 1 0 EmptyString)
  = Return 0 true
  /\ exit_status 0 <> 2.
Proof. split; [reflexivity | discriminate]. Qed.

(** C8, amended. When [getopt_long] reports an option that is not known,
    and the options before it have not ended the program, [main] prints
    the usage text and returns 0: the exit status is 0, as it is for
    [--help]. *)
Theorem unknown_option_prints_usage_and_returns_0
    (MAX_THREADS : Z) (MAX_WEIGHT_STR_LEN : nat) (strtof : string -> Q)
    (before rest : list (ascii * string)) (c : ascii) (arg : string)
    (env : collaborators) (g : globals) :
  options_loop MAX_THREADS MAX_WEIGHT_STR_LEN strtof before
    (globals0 MAX_THREADS env) = Go g ->
  c = "?"%char \/ c = "h"%char ->
  main MAX_THREADS MAX_WEIGHT_STR_LEN strtof (before ++ (c, arg) :: rest) env
  = Return 0 true
  /\ exit_status 0 = 0.
Proof.
  intros Hbefore Hc. split; [|reflexivity].
  unfold main. rewrite options_loop_app, Hbefore.
  cbn [bind options_loop].
  now rewrite (option_case_usage _ _ _ c arg g Hc).
Qed.

Lemma unknown_option_prints_usage_and_returns_0_witness :
  main 64 256 (fun _ => 0%Q)
    ([("c"%char, "8-11"%string)] ++ ("?"%char, EmptyString)
       :: [("A"%char, "2"%string)])
    (mk_collaborators 8 11 46000 1 0 EmptyString)
  = Return 0 true
  /\ exit_status 0 = 0.
Proof.
  exact (unknown_option_prints_usage_and_returns_0 64 256 (fun _ => 0%Q)
           [("c"%char, "8-11"%string)] [("A"%char, "2"%string)]
           "?"%char EmptyString
           (mk_collaborators 8 11 46000 1 0 EmptyString) _
           eq_refl (or_introl eq_refl)).
Defined.

Lemma startup_loop_length (first last : Z) :
  length (startup_loop first last) = Z.to_nat (last - first + 1).
Proof. unfold startup_loop. now rewrite length_map, length_seq. Qed.

Lemma startup_loop_In (first last tnum : Z) :
  0 <= tnum <= last - first ->
  In (tnum, first + tnum) (startup_loop first last).
Proof.
  intros H. unfold startup_loop. apply in_map_iff.
  exists (Z.to_nat tnum). rewrite Z2Nat.id by lia. split; [reflexivity|].
  apply in_seq. lia.
Qed.



End StartupClaims.

(** ** The rendezvous *)

Section BarrierFacts.

Import Barrier.

Lemma to_int_small (z : Z) : - 2 ^ 31 <= z < 2 ^ 31 -> CStr.to_int z = z.
Proof.
  intros H. unfold CStr.to_int. rewrite Z.mod_small by lia. lia.
Qed.

Lemma is_lead_0 : is_lead 0 = true.
Proof. reflexivity. Qed.

Lemma init_inv (n : nat) : inv 0 (init n).
Proof.
  unfold inv, init. cbn [syncflag pending workers].
  split; [reflexivity|]. split; [lia|].
  intros i w Hw. apply lookup_replicate in Hw as [-> _].
  unfold local_inv, counters_ok, place_ok, counted_ok, lead_ok, primary_ok.
  cbn. repeat split; intros; lia.
Qed.

(** The invariant of a worker that does not move survives a step that
    leaves the observers as they are, or lets [pending] grow. *)
Ltac unfold_inv :=
  unfold local_inv, counters_ok, place_ok, counted_ok, lead_ok, primary_ok
    in *;
  cbn [w_pc sampled arrived applied rel_seen syncflag quitflag workers
       decisions releases pending at_pc set_worker] in *.

Ltac split_lookup H :=
  apply list_lookup_insert_Some in H as [(<- & <- & _) | (? & H)].

Lemma step_worker_inv (k i : nat) (s s' : system) :
  inv k s -> Z.of_nat (S k) < 2 ^ 31 ->
  step_worker i s = Some s' -> inv (S k) s'.
Proof.
  intros (Hsync & Hpend & Hall) Hk Hstep.
  unfold step_worker in Hstep.
  destruct (workers s !! i) as [w|] eqn:Hw; [|discriminate].
  pose proof (Hall i w Hw) as Hi.
  destruct (w_pc w) eqn:Hpc; try discriminate;
    injection Hstep as <-; unfold inv;
    cbn [syncflag pending workers set_worker releases decisions];
    rewrite ?length_insert.
  - (* AtTop *)
    split; [exact Hsync|]. split; [lia|]. intros j wj Hj.
    split_lookup Hj.
    + unfold_inv. rewrite ?length_insert. rewrite Hpc in Hi.
      destruct (quitflag s =? 0); cbn [w_pc]; intuition lia.
    + specialize (Hall j wj Hj). unfold_inv. rewrite ?length_insert.
      exact Hall.
  - (* AtSample *)
    split; [exact Hsync|]. split; [lia|]. intros j wj Hj.
    split_lookup Hj.
    + unfold_inv. rewrite ?length_insert. rewrite Hpc in Hi.
      intuition lia.
    + specialize (Hall j wj Hj). unfold_inv. rewrite ?length_insert.
      exact Hall.
  - (* AtArrive *)
    split; [rewrite to_int_small; lia|]. split; [lia|]. intros j wj Hj.
    split_lookup Hj.
    + unfold_inv. rewrite ?length_insert. rewrite Hpc in Hi.
      unfold is_primary.
      destruct i as [|i]; cbn [Nat.eqb w_pc].
      * intuition lia.
      * destruct (is_lead (S i)) eqn:Hlead; cbn [w_pc]; intuition lia.
    + specialize (Hall j wj Hj). unfold_inv. rewrite ?length_insert.
      destruct (w_pc wj); intuition lia.
  - (* AtWaitAll *)
    split; [exact Hsync|]. split; [lia|]. intros j wj Hj.
    split_lookup Hj.
    + unfold_inv. rewrite ?length_insert. rewrite Hpc in Hi.
      unfold ACTIVE_THREADS.
      destruct (syncflag s <? Z.of_nat (length (workers s))) eqn:Hc;
        cbn [w_pc]; intuition lia.
    + specialize (Hall j wj Hj). unfold_inv. rewrite ?length_insert.
      exact Hall.
  - (* AtTune *)
    assert (i = 0%nat) as ->
      by (unfold_inv; rewrite Hpc in Hi; tauto).
    split; [exact Hsync|]. split; [lia|]. intros j wj Hj.
    split_lookup Hj.
    + unfold_inv. rewrite ?length_insert. rewrite Hpc in Hi.
      intuition lia.
    + specialize (Hall j wj Hj). unfold_inv. rewrite ?length_insert.
      destruct (w_pc wj); intuition lia.
  - (* AtRelease *)
    assert (i = 0%nat) as ->
      by (unfold_inv; rewrite Hpc in Hi; tauto).
    split; [reflexivity|]. split; [lia|]. intros j wj Hj.
    split_lookup Hj.
    + unfold_inv. rewrite ?length_insert. rewrite Hpc in Hi.
      intuition lia.
    + specialize (Hall j wj Hj). unfold_inv. rewrite ?length_insert.
      destruct (w_pc wj); intuition lia.
  - (* AtWaitRelease *)
    split; [exact Hsync|]. split; [lia|]. intros j wj Hj.
    split_lookup Hj.
    + unfold_inv. rewrite ?length_insert. rewrite Hpc in Hi.
      destruct (syncflag s =? 0) eqn:Hc; cbn [w_pc]; [|intuition lia].
      assert (pending s = 0%nat) by lia.
      intuition lia.
    + specialize (Hall j wj Hj). unfold_inv. rewrite ?length_insert.
      exact Hall.
  - (* AtApply *)
    split; [exact Hsync|]. split; [lia|]. intros j wj Hj.
    split_lookup Hj.
    + unfold_inv. rewrite ?length_insert. rewrite Hpc in Hi.
      intuition lia.
    + specialize (Hall j wj Hj). unfold_inv. rewrite ?length_insert.
      exact Hall.
Qed.

Lemma step_inv (k : nat) (a : action) (s s' : system) :
  inv k s -> Z.of_nat (S k) < 2 ^ 31 -> step a s = Some s' -> inv (S k) s'.
Proof.
  destruct a as [i|]; cbn [step]; [apply step_worker_inv|].
  intros (Hsync & Hpend & Hall) _ [= <-]. unfold inv.
  cbn [syncflag pending workers].
  split; [exact Hsync|]. split; [lia|]. intros j wj Hj.
  specialize (Hall j wj Hj). unfold_inv. exact Hall.
Qed.

Lemma run_snoc (sched : list action) (a : action) :
  forall s s',
    run (sched ++ [a]) s = Some s' ->
    exists s1, run sched s = Some s1 /\ step a s1 = Some s'.
Proof.
  induction sched as [|b sched IH]; intros s s'; cbn [app run].
  - destruct (step a s) as [s1|] eqn:Hs; [|discriminate].
    intros [= <-]. eauto.
  - destruct (step b s) as [s1|]; [apply IH | discriminate].
Qed.

Lemma step_length (a : action) (s s' : system) :
  step a s = Some s' -> length (workers s') = length (workers s).
Proof.
  destruct a as [i|]; cbn [step]; [|now intros [= <-]].
  unfold step_worker. destruct (workers s !! i) as [w|]; [|discriminate].
  destruct (w_pc w); try discriminate; intros [= <-];
    cbn [workers set_worker]; apply length_insert.
Qed.

Lemma run_length (sched : list action) :
  forall s s', run sched s = Some s' ->
               length (workers s') = length (workers s).
Proof.
  induction sched as [|a sched IH]; intros s s'; cbn [run].
  - now intros [= <-].
  - destruct (step a s) as [s1|] eqn:Hs; [|discriminate].
    intros H. rewrite (IH _ _ H). exact (step_length a s s1 Hs).
Qed.

(** The invariant holds along every schedule short enough for the counter
    not to overflow. *)
Lemma run_inv (sched : list action) :
  forall n s,
    Z.of_nat (length sched) < 2 ^ 31 ->
    run sched (init n) = Some s -> inv (length sched) s.
Proof.
  induction sched as [|a sched IH] using rev_ind; intros n s Hlen Hrun.
  - injection Hrun as <-. apply init_inv.
  - rewrite length_app in *. cbn [length] in *.
    apply run_snoc in Hrun as (s1 & Hrun & Hstep).
    replace (length sched + 1)%nat with (S (length sched)) in * by lia.
    eapply step_inv; [apply (IH n); [lia | exact Hrun] | lia | exact Hstep].
Qed.

(** C2 (the code departs from the claim, and from its own comment
    "wait for all threads" on the loop of line 187). With three workers,
    in [racy_schedule] the worker of module position 1, which waits for no
    release, goes round its loop twice and so increments [syncflag] twice;
    worker 0 then arrives, finds the count at 3 = [ACTIVE_THREADS], leaves
    its wait and calls the tuner, while worker 2 has not completed any
    sample phase. *)
Theorem decision_before_all_samples :
  run racy_schedule (init 3) = Some racy_state /\
  decisions racy_state = 1%nat /\
  sampled <$> workers racy_state !! 2%nat = Some 0%nat /\
  ~ samples_before_decision racy_state.
Proof.
  split; [vm_compute; reflexivity|]. split; [reflexivity|].
  split; [reflexivity|].
  intros H.
  specialize (H 2%nat (mk_worker AtTop 0 0 0 0) eq_refl).
  cbn [decisions racy_state sampled] in H. lia.
Qed.

(** What the rendezvous does order. Along every schedule of fewer than
    2^31 steps, polls of the two waits included (so that the counter does
    not overflow):
    - each worker completes its sample phase, which stores the differences,
      before it increments the counter, in every iteration;
    - worker 0 calls the tuner once in each of its iterations, after its
      own increment, when at least [ACTIVE_THREADS] increments have been
      counted since the last release, and then stores 0;
    - a worker that leads a module starts its [k]-th apply phase when
      there have been at least [k] releases, hence [k] calls of the tuner.
    Nothing says that the increments counted come from different workers:
    a worker that leads no module waits for no release. *)
Theorem rendezvous_orders_tuner_and_apply (n : nat) (sched : list action)
    (s : system) :
  Z.of_nat (length sched) < 2 ^ 31 ->
  run sched (init n) = Some s ->
  (forall i w, workers s !! i = Some w ->
     (arrived w <= sampled w <= S (arrived w))%nat /\
     (sampled w = S (arrived w) <-> w_pc w = AtArrive)) /\
  (forall w0, workers s !! 0%nat = Some w0 ->
     (releases s <= decisions s <= S (releases s))%nat /\
     (decisions s <= arrived w0 <= S (decisions s))%nat /\
     (w_pc w0 = AtTop -> decisions s = arrived w0
                         /\ releases s = arrived w0) /\
     (w_pc w0 = AtTune \/ w_pc w0 = AtRelease -> (n <= pending s)%nat)) /\
  (forall i w, is_lead i = true -> workers s !! i = Some w ->
     w_pc w = AtApply ->
     (S (applied w) <= releases s <= decisions s)%nat).
Proof.
  intros Hlen Hrun.
  pose proof (run_length _ _ _ Hrun) as Hn.
  unfold init in Hn. cbn [workers] in Hn. rewrite length_replicate in Hn.
  destruct (run_inv sched n s Hlen Hrun) as (_ & _ & Hall).
  assert (forall w0, workers s !! 0%nat = Some w0 ->
            (releases s <= decisions s <= S (releases s))%nat) as Hdec.
  { intros w0 H0. specialize (Hall _ _ H0). unfold_inv.
    destruct (w_pc w0); intuition lia. }
  split; [|split].
  - intros i w Hw. specialize (Hall _ _ Hw). unfold_inv.
    destruct (w_pc w); intuition (try lia; try discriminate).
  - intros w0 H0. split; [exact (Hdec w0 H0)|].
    specialize (Hall _ _ H0). unfold_inv. rewrite Hn in Hall.
    destruct (w_pc w0); repeat split;
      intuition (try lia; try discriminate).
  - intros i w Hlead Hw Hpc.
    destruct i as [|i].
    + specialize (Hdec _ Hw). specialize (Hall _ _ Hw). unfold_inv.
      rewrite Hpc in Hall. intuition lia.
    + assert (is_Some (workers s !! 0%nat)) as [w0 H0].
      { apply lookup_lt_is_Some.
        pose proof (lookup_lt_Some _ _ _ Hw). lia. }
      specialize (Hdec _ H0). specialize (Hall _ _ Hw). unfold_inv.
      rewrite Hpc in Hall. intuition lia.
Qed.

Lemma run_racy_schedule : run racy_schedule (init 3) = Some racy_state.
Proof. vm_compute. reflexivity. Defined.

Lemma rendezvous_orders_tuner_and_apply_witness :
  (3 <= pending racy_state)%nat.
Proof.
  refine (proj2 (proj2 (proj2 (proj1 (proj2
            (rendezvous_orders_tuner_and_apply 3 racy_schedule racy_state
               _ run_racy_schedule))
            (mk_worker AtRelease 1 1 0 0) eq_refl)))
            (or_intror eq_refl)).
  vm_compute. reflexivity.
Defined.

End BarrierFacts.

(** ** The pseudo-file *)

Section ProcFileFacts.

Import ProcFile.

Variable MAX_MSG_SIZE : Z.
Variable MAX_NUM_CORES : nat.
Variable DPF_API_VERSION : Z.
Variable MSR_1320_INDEX : nat.
Variable resp_sizeof : response -> Z.
Variable msr_load : core -> core.
Variable pmu_update : core -> core.
Variable core_in_module : nat -> Z.
Variable cpu_online : nat -> bool.

Abbreviation dispatch :=
  (dispatch MAX_NUM_CORES DPF_API_VERSION MSR_1320_INDEX resp_sizeof
     msr_load pmu_update core_in_module cpu_online).
Abbreviation dpf_proc_write :=
  (dpf_proc_write MAX_MSG_SIZE MAX_NUM_CORES DPF_API_VERSION MSR_1320_INDEX
     resp_sizeof msr_load pmu_update core_in_module cpu_online).

(** A handler either fails and leaves [proc_buffer] as it found it, or
    returns 0 and leaves its response there. *)
Lemma dispatch_outcome (ok : bool) (req : request) (s : kstate) :
  let '(ret, s') := dispatch ok req s in
  (ret < 0 /\ proc_buffer s' = proc_buffer s
   /\ proc_buffer_size s' = proc_buffer_size s) \/
  (ret = 0 /\ exists r, proc_buffer s' = Some r
                        /\ proc_buffer_size s' = resp_sizeof r
                        /\ answers req r = true).
Proof.
  destruct req; cbn [ProcFile.dispatch];
    unfold handle_init, handle_core_range, handle_core_weight,
      handle_tuning, handle_ddrbw_set, handle_pmu_read, handle_msr_read;
    try (destruct (readable_core _ _ _));
    try (destruct ok; cbn [negb]);
    try (left; repeat split; reflexivity);
    right; (split; [reflexivity|]); eexists; cbn [publish proc_buffer
      proc_buffer_size]; repeat split.
Qed.

Lemma proc_read_empty (count pos : Z) (copy_ok : bool) (s : kstate) :
  proc_buffer s = None -> proc_read count pos copy_ok s = (0, None, pos).
Proof. intros H. unfold proc_read. now rewrite H. Qed.

Lemma proc_read_response (count : Z) (s : kstate) (r : response) :
  proc_buffer s = Some r -> proc_buffer_size s <= count ->
  proc_read count 0 true s = (proc_buffer_size s, Some r, proc_buffer_size s).
Proof.
  intros H Hc. unfold proc_read. rewrite H.
  replace (count <? proc_buffer_size s) with false by (symmetry; lia).
  reflexivity.
Qed.

(** C7, amended. A write whose size is refused (shorter than the header or
    longer than [MAX_MSG_SIZE]) returns [-EINVAL] and changes nothing, so
    that the response stored before stays readable.  Every other write
    first frees the stored response: when it then fails, be it on the copy
    from the user, on an allocation, in its handler or on a type that is
    not known, it returns the error and a read finds nothing (it returns
    0); when it succeeds it returns [count] and a read with room enough
    receives the response to this very request. *)
Theorem write_discards_response_before_processing (count : Z)
    (req : request) (sv : services) (s : kstate) :
  let ret := fst (dpf_proc_write count req sv s) in
  let s' := snd (dpf_proc_write count req sv s) in
  ((count < HEADER_SIZE \/ MAX_MSG_SIZE < count) ->
     ret = - EINVAL /\ s' = s) /\
  (HEADER_SIZE <= count <= MAX_MSG_SIZE ->
     (ret < 0 ->
        proc_buffer s' = None /\
        forall c pos ok, proc_read c pos ok s' = (0, None, pos)) /\
     (0 <= ret ->
        ret = count /\
        exists r, proc_buffer s' = Some r /\ answers req r = true /\
                  forall c, proc_buffer_size s' <= c ->
                            proc_read c 0 true s'
                            = (proc_buffer_size s', Some r,
                               proc_buffer_size s')) /\
     (forall t, req = ReqOther t -> ret < 0)).
Proof.
  intros ret s'. subst ret s'. unfold ProcFile.dpf_proc_write.
  split.
  - intros Hc.
    replace ((count <? HEADER_SIZE) || (MAX_MSG_SIZE <? count)) with true
      by (symmetry; apply orb_true_iff; lia).
    now split.
  - intros Hc.
    replace ((count <? HEADER_SIZE) || (MAX_MSG_SIZE <? count)) with false
      by (symmetry; apply orb_false_iff; lia).
    set (s1 := match proc_buffer s with
               | Some _ => mk_kstate None 0 (keep_running s) (corestate s)
                             (ddr_bw_target s)
               | None => s
               end).
    assert (proc_buffer s1 = None) as Hb.
    { subst s1. now destruct (proc_buffer s) eqn:Hp. }
    clearbody s1.
    assert (forall t, req = ReqOther t ->
              dispatch (alloc_resp_ok sv) req s1 = (- EINVAL, s1)) as Hother
      by (now intros t ->).
    pose proof (dispatch_outcome (alloc_resp_ok sv) req s1) as Hd.
    unfold HEADER_SIZE, EFAULT, ENOMEM, EINVAL in *.
    destruct (copy_header_ok sv), (alloc_msg_ok sv), (copy_msg_ok sv);
      cbn [negb fst snd];
      try (split; [intros _; split;
                   [exact Hb | intros; now apply proc_read_empty]
                  |split; [intros Hpos; exfalso; lia | intros; lia]]).
    destruct (dispatch (alloc_resp_ok sv) req s1) as [r2 s2].
    destruct Hd as [(Hneg & Hsame & _) | (-> & r & Hr & Hsize & Hans)].
    + replace (r2 <? 0) with true by (symmetry; lia). cbn [fst snd].
      rewrite Hb in Hsame.
      split; [intros _; split;
              [exact Hsame | intros; now apply proc_read_empty]
             |split; [intros Hpos; exfalso; lia | intros; lia]].
    + cbn [fst snd Z.ltb Z.compare].
      split; [intros Hneg; exfalso; lia|].
      split.
      * intros _. split; [reflexivity|].
        exists r. repeat split; [exact Hr | exact Hans |].
        intros c Hc'. now apply proc_read_response.
      * intros t Ht. specialize (Hother t Ht). discriminate Hother.
Qed.

End ProcFileFacts.

Section ProcFileScenario.

Import ProcFile.

(** The claim of C7 fails: an INIT request is answered and its response
    can be read; then a message of a type that is not known is written; it
    is refused with [-EINVAL], and a read now returns 0 bytes. *)
Lemma unknown_type_discards_previous_response :
  let s1 := snd (demo_write 8 ReqInit demo_loaded) in
  let s2 := snd (demo_write 8 (ReqOther 99) s1) in
  proc_read 64 0 true s1 = (16, Some (RespInit 1), 16) /\
  fst (demo_write 8 (ReqOther 99) s1) = - EINVAL /\
  proc_read 64 0 true s2 = (0, None, 0).
Proof. repeat split. Qed.

Lemma write_discards_response_before_processing_witness :
  let s1 := snd (demo_write 8 ReqInit demo_loaded) in
  (fst (demo_write 4 (ReqOther 99) s1) = - EINVAL
   /\ snd (demo_write 4 (ReqOther 99) s1) = s1) /\
  (exists r, proc_buffer (snd (demo_write 8 (ReqTuning 0) s1)) = Some r
             /\ answers (ReqTuning 0) r = true).
Proof.
  intros s1. split.
  - apply (proj1 (write_discards_response_before_processing 1024 2 1 0
                    demo_sizeof id id (fun i => Z.of_nat i mod 4)
                    (fun _ => true) 4 (ReqOther 99) demo_services s1)).
    left. reflexivity.
  - destruct (proj1 (proj2 (proj2
               (write_discards_response_before_processing 1024 2 1 0
                  demo_sizeof id id (fun i => Z.of_nat i mod 4)
                  (fun _ => true) 8 (ReqTuning 0) demo_services s1)
               ltac:(split; discriminate)))
               ltac:(discriminate)) as (_ & r & Hr & Hans & _).
    exists r. split; assumption.
Defined.

End ProcFileScenario.

(** ** More on [parse_weights] *)

Section WeightsMore.

Import Weights WeightsAux.

Lemma strtok_from_app_delim (delim : string) (c : ascii) (a b : string) :
  CStr.is_delim delim c = true ->
  forall cur,
    CStr.strtok_from delim cur (a ++ String c b)
    = CStr.strtok_from delim cur a ++ CStr.strtok_all delim b.
Proof.
  intros Hc. induction a as [|x a IH]; intros cur.
  - cbn [String.append CStr.strtok_from]. now rewrite Hc.
  - cbn [String.append CStr.strtok_from].
    destruct (CStr.is_delim delim x).
    + rewrite IH. now rewrite app_assoc.
    + apply IH.
Qed.

(** A delimiter between two strings separates their tokens, and adds
    none. *)
Lemma strtok_all_app_delim (delim : string) (c : ascii) (a b : string) :
  CStr.is_delim delim c = true ->
  CStr.strtok_all delim (a ++ String c b)
  = CStr.strtok_all delim a ++ CStr.strtok_all delim b.
Proof. intros Hc. now apply strtok_from_app_delim. Qed.

Lemma parse_weights_tokens (n : Z) (cp : list Z) (s1 s2 : string) :
  CStr.strtok_all "," s1 = CStr.strtok_all "," s2 ->
  parse_weights n cp s1 = parse_weights n cp s2.
Proof. intros H. unfold parse_weights. now rewrite H. Qed.

(** Empty entries of the list are skipped, they are neither an error nor
    a default: a comma more between two entries, before the first or after
    the last changes nothing. *)
Theorem parse_weights_skips_empty_entries (n : Z) (cp : list Z)
    (a b : string) :
  CStr.strtok_all "," (a ++ "," ++ b)
    = CStr.strtok_all "," a ++ CStr.strtok_all "," b /\
  parse_weights n cp (a ++ ",," ++ b) = parse_weights n cp (a ++ "," ++ b) /\
  parse_weights n cp ("," ++ a) = parse_weights n cp a /\
  parse_weights n cp (a ++ ",") = parse_weights n cp a.
Proof.
  assert (CStr.is_delim "," ","%char = true) as Hc by reflexivity.
  split; [exact (strtok_all_app_delim "," _ a b Hc)|].
  split; [|split]; apply parse_weights_tokens.
  - change (a ++ ",," ++ b)%string with (a ++ String "," ("," ++ b))%string.
    change (a ++ "," ++ b)%string with (a ++ String "," b)%string.
    rewrite !(strtok_all_app_delim "," _ _ _ Hc).
    reflexivity.
  - apply (strtok_all_app_delim "," _ EmptyString a Hc).
  - rewrite (strtok_all_app_delim "," _ a EmptyString Hc).
    apply app_nil_r.
Qed.

(** The first loop when the token after the accepted ones is refused: the
    accepted values have been stored, the rest of the array is as it
    was. *)
Lemma token_loop_stops (good : list string) :
  forall (bad : string) (rest : list string) (n k : nat) (cp : list Z),
    (k + length good < n)%nat -> (n <= length cp)%nat ->
    forallb token_ok good = true -> token_ok bad = false ->
    token_loop (Z.of_nat n) (Z.of_nat k) cp (good ++ bad :: rest)
    = Some (Returned (-1),
            take k cp ++ map token_val good ++ drop (k + length good) cp).
Proof.
  induction good as [|t good IH]; intros bad rest n k cp Hk Hn Hok Hbad.
  - cbn [app length map token_loop].
    replace (Z.of_nat k =? Z.of_nat n) with false by (symmetry; lia).
    rewrite Nat.add_0_r, take_drop.
    unfold token_ok in Hbad.
    destruct (CStr.strtol bad) as [v [|c e]]; [|reflexivity].
    apply negb_false_iff in Hbad. now rewrite Hbad.
  - cbn [app length map token_loop forallb] in *.
    apply andb_true_iff in Hok as [Ht Hok].
    replace (Z.of_nat k =? Z.of_nat n) with false by (symmetry; lia).
    destruct (token_ok_strtol t Ht) as [Hst Hrange].
    rewrite Hst. fold (token_val t). rewrite Hrange.
    rewrite array_store_in by lia.
    replace (Z.of_nat k + 1) with (Z.of_nat (S k)) by lia.
    rewrite IH; [|lia|rewrite length_insert; lia|exact Hok|exact Hbad].
    f_equal. f_equal.
    replace (k + S (length good))%nat with (S k + length good)%nat by lia.
    rewrite drop_insert_lt by lia.
    rewrite (take_S_r _ k (token_val t))
      by (apply list_lookup_insert_eq; lia).
    rewrite take_insert_ge by lia.
    now rewrite <- app_assoc.
Qed.

(** When an entry among those used is refused, [parse_weights] returns -1
    and leaves the array half written: the entries before the refused one
    hold the values parsed, all the others are unchanged (no default is
    filled in). *)
Theorem parse_weights_error_keeps_prefix (n : nat) (cp : list Z)
    (s : string) (good rest : list string) (bad : string) :
  CStr.strtok_all "," s = good ++ bad :: rest ->
  (length good < n <= length cp)%nat ->
  forallb token_ok good = true -> token_ok bad = false ->
  parse_weights (Z.of_nat n) cp s
  = Some (-1, map token_val good ++ drop (length good) cp).
Proof.
  intros Htoks Hn Hok Hbad. unfold parse_weights. rewrite Htoks.
  pose proof (token_loop_stops good bad rest n 0 cp) as H.
  change (Z.of_nat 0) with 0 in H.
  rewrite H by (try lia; assumption).
  now rewrite take_0, Nat.add_0_l.
Qed.

Lemma parse_weights_error_keeps_prefix_witness :
  parse_weights 4 [1; 2; 3; 4; 5] "10,20,x,40" = Some (-1, [10; 20; 3; 4; 5]).
Proof.
  exact (parse_weights_error_keeps_prefix 4 [1; 2; 3; 4; 5] "10,20,x,40"
           ["10"; "20"]%string ["40"%string] "x" eq_refl
           ltac:(cbn; lia) eq_refl eq_refl).
Defined.

(** *** What both loops keep *)

Lemma array_store_keeps (cp cp' : list Z) (i v : Z) :
  array_store cp i v = Some cp' ->
  0 <= i < Z.of_nat (length cp) /\ cp' = <[Z.to_nat i := v]> cp.
Proof.
  unfold array_store.
  destruct ((0 <=? i) && (i <? Z.of_nat (length cp))) eqn:Hb; [|discriminate].
  apply andb_true_iff in Hb as [H1 H2]. intros [= <-]. split; [lia|reflexivity].
Qed.

Lemma token_loop_keeps (toks : list string) :
  forall (n k : Z) (cp cp' : list Z) (ex : loop_exit),
    token_loop n k cp toks = Some (ex, cp') ->
    length cp' = length cp /\
    (Forall in_priority_range cp -> Forall in_priority_range cp') /\
    (0 <= k <= n -> drop (Z.to_nat n) cp' = drop (Z.to_nat n) cp) /\
    match ex with
    | Returned rc => rc = -1
    | Fell count => k <= count /\ (0 <= k <= n -> count <= n)
    end.
Proof.
  induction toks as [|t toks IH]; intros n k cp cp' ex; cbn [token_loop].
  - intros [= <- <-]. repeat split; auto; lia.
  - destruct (k =? n) eqn:Hkn; [intros [= <- <-]; repeat split; auto; lia|].
    destruct (CStr.strtol t) as [v [|c e]];
      [|intros [= <- <-]; repeat split; auto].
    destruct ((CStr.to_int v <? MIN_PRIORITY)
              || (MAX_PRIORITY <? CStr.to_int v)) eqn:Hr;
      [intros [= <- <-]; repeat split; auto|].
    destruct (array_store cp k (CStr.to_int v)) as [cp1|] eqn:Hst;
      [|discriminate].
    apply array_store_keeps in Hst as [Hi ->].
    intros H. apply IH in H as (Hlen & Hrange & Hdrop & Hex).
    rewrite length_insert in Hlen.
    apply orb_false_iff in Hr as [Hr1 Hr2].
    split; [exact Hlen|]. split; [|split].
    + intros Hcp. apply Hrange. apply Forall_insert; [exact Hcp|].
      unfold in_priority_range. lia.
    + intros Hk. rewrite Hdrop by lia. apply drop_insert_lt. lia.
    + destruct ex; [exact Hex|]. split; [lia|]. intros Hk. apply Hex. lia.
Qed.

Lemma pad_loop_keeps (fuel : nat) :
  forall (n k count : Z) (cp cp' : list Z),
    pad_loop fuel n k cp = Some (count, cp') ->
    length cp' = length cp /\
    (Forall in_priority_range cp -> Forall in_priority_range cp') /\
    (0 <= k -> drop (Z.to_nat n) cp' = drop (Z.to_nat n) cp).
Proof.
  induction fuel as [|fuel IH]; intros n k count cp cp'; cbn [pad_loop].
  - intros [= <- <-]. auto.
  - destruct (k <? n) eqn:Hkn; [|intros [= <- <-]; auto].
    destruct (array_store cp k DEFAULT_PRIORITY) as [cp1|] eqn:Hst;
      [|discriminate].
    apply array_store_keeps in Hst as [Hi ->].
    intros H. apply IH in H as (Hlen & Hrange & Hdrop).
    rewrite length_insert in Hlen.
    split; [exact Hlen|]. split.
    + intros Hcp. apply Hrange. apply Forall_insert; [exact Hcp|].
      unfold in_priority_range, MIN_PRIORITY, MAX_PRIORITY, DEFAULT_PRIORITY.
      lia.
    + intros Hk. rewrite Hdrop by lia. apply drop_insert_lt. lia.
Qed.

Lemma parse_weights_frame (n : Z) (cp cp' : list Z) (s : string)
    (rc : Z) :
  parse_weights n cp s = Some (rc, cp') ->
  length cp' = length cp /\
  (Forall in_priority_range cp -> Forall in_priority_range cp') /\
  (0 <= n -> drop (Z.to_nat n) cp' = drop (Z.to_nat n) cp) /\
  (rc = 0 \/ rc = -1).
Proof.
  unfold parse_weights.
  destruct (token_loop n 0 cp (CStr.strtok_all "," s)) as [[ex cp1]|] eqn:Ht;
    [|discriminate].
  apply token_loop_keeps in Ht as (Hlen & Hrange & Hdrop & Hex).
  destruct ex as [rc1|count].
  - intros [= <- <-]. repeat split; auto. intros. apply Hdrop. lia.
  - destruct (pad_loop _ n count cp1) as [[c2 cp2]|] eqn:Hp; [|discriminate].
    apply pad_loop_keeps in Hp as (Hlen2 & Hrange2 & Hdrop2).
    intros [= <- <-]. repeat split; auto; try congruence.
    intros Hn. rewrite Hdrop2 by lia. apply Hdrop. lia.
Qed.

(** Whatever the list and however it ends, when [parse_weights] returns
    the array has its length, its entries from [ACTIVE_THREADS] on are
    untouched, every entry lies in 0..99 if every entry did, and the value
    returned is 0 or -1. *)
Theorem parse_weights_keeps_array (n : Z) (cp cp' : list Z) (s : string)
    (rc : Z) :
  parse_weights n cp s = Some (rc, cp') ->
  length cp' = length cp /\
  (Forall in_priority_range cp -> Forall in_priority_range cp') /\
  (0 <= n -> drop (Z.to_nat n) cp' = drop (Z.to_nat n) cp) /\
  (rc = 0 \/ rc = -1).
Proof. apply parse_weights_frame. Qed.

Lemma parse_weights_keeps_array_witness :
  length [10; 20; 50; 7] = length [1; 2; 3; 7] /\
  drop 3 [10; 20; 50; 7] = drop 3 [1; 2; 3; 7].
Proof.
  destruct (parse_weights_keeps_array 3 [1; 2; 3; 7] [10; 20; 50; 7]
              "10,20" 0 eq_refl) as (Hlen & _ & Hdrop & _).
  split; [exact Hlen | exact (Hdrop ltac:(lia))].
Defined.

(** *** More active threads than the array has entries *)

Lemma pad_loop_overruns (d : nat) :
  forall (n k : nat) (cp : list Z),
    (k + d = length cp)%nat -> (length cp < n)%nat ->
    pad_loop (n - k) (Z.of_nat n) (Z.of_nat k) cp = None.
Proof.
  induction d as [|d IH]; intros n k cp Hd Hn.
  - assert (n - k = S (n - S k))%nat as -> by lia. cbn [pad_loop].
    replace (Z.of_nat k <? Z.of_nat n) with true by (symmetry; lia).
    now rewrite array_store_out by lia.
  - assert (n - k = S (n - S k))%nat as -> by lia. cbn [pad_loop].
    replace (Z.of_nat k <? Z.of_nat n) with true by (symmetry; lia).
    rewrite array_store_in by lia.
    replace (Z.of_nat k + 1) with (Z.of_nat (S k)) by lia.
    apply IH; rewrite length_insert; lia.
Qed.

Lemma token_loop_count_bound (toks : list string) :
  forall (n : Z) (k : nat) (cp cp' : list Z) (count : Z),
    token_loop n (Z.of_nat k) cp toks = Some (Fell count, cp') ->
    (k <= length cp)%nat ->
    exists c : nat, count = Z.of_nat c /\ (k <= c <= length cp)%nat.
Proof.
  induction toks as [|t toks IH]; intros n k cp cp' count; cbn [token_loop].
  - intros [= <- <-] Hk. exists k. split; [reflexivity | lia].
  - destruct (Z.of_nat k =? n);
      [intros [= <- <-] Hk; exists k; split; [reflexivity | lia]|].
    destruct (CStr.strtol t) as [v [|c e]]; [|discriminate].
    destruct ((CStr.to_int v <? MIN_PRIORITY)
              || (MAX_PRIORITY <? CStr.to_int v)); [discriminate|].
    destruct (array_store cp (Z.of_nat k) (CStr.to_int v)) as [cp1|] eqn:Hst;
      [|discriminate].
    apply array_store_keeps in Hst as [Hi ->].
    replace (Z.of_nat k + 1) with (Z.of_nat (S k)) by lia.
    intros H Hk. apply IH in H as (c & -> & Hc);
      [|rewrite length_insert; lia].
    rewrite length_insert in Hc. exists c. split; [reflexivity | lia].
Qed.

Lemma token_loop_overruns (toks : list string) :
  forall (n k : nat) (cp : list Z),
    (k <= length cp < n)%nat ->
    forallb token_ok (take (n - k) toks) = true ->
    match token_loop (Z.of_nat n) (Z.of_nat k) cp toks with
    | Some (Returned _, _) => False
    | _ => True
    end.
Proof.
  induction toks as [|t toks IH]; intros n k cp Hk Hok; cbn [token_loop];
    [exact I|].
  replace (Z.of_nat k =? Z.of_nat n) with false by (symmetry; lia).
  assert (n - k = S (n - S k))%nat as Hs by lia.
  rewrite Hs in Hok. cbn [take forallb] in Hok.
  apply andb_true_iff in Hok as [Ht Hok].
  destruct (token_ok_strtol t Ht) as [Hst Hrange].
  rewrite Hst. fold (token_val t). rewrite Hrange.
  destruct (Nat.eq_dec k (length cp)) as [->|Hne].
  - now rewrite array_store_out by lia.
  - rewrite array_store_in by lia.
    replace (Z.of_nat k + 1) with (Z.of_nat (S k)) by lia.
    apply IH; [rewrite length_insert; lia | exact Hok].
Qed.

(** With more active threads than [core_priority] has entries,
    [parse_weights] never returns 0: it returns -1 on a refused entry, or
    stores outside the array; and it does the latter whenever no entry it
    uses is refused, however short the list is. *)
Theorem parse_weights_overruns_short_array (n : nat) (cp : list Z)
    (s : string) :
  (length cp < n)%nat ->
  (parse_weights (Z.of_nat n) cp s = None \/
   exists cp', parse_weights (Z.of_nat n) cp s = Some (-1, cp')) /\
  (forallb token_ok (used_tokens n s) = true ->
   parse_weights (Z.of_nat n) cp s = None).
Proof.
  intros Hn.
  assert (forall count cp1,
            token_loop (Z.of_nat n) 0 cp (CStr.strtok_all "," s)
            = Some (Fell count, cp1) ->
            pad_loop (Z.to_nat (Z.of_nat n - count)) (Z.of_nat n) count cp1
            = None) as Hpad.
  { intros count cp1 Ht.
    pose proof (token_loop_keeps _ _ _ _ _ _ Ht) as (Hlen & _).
    apply (token_loop_count_bound _ _ 0%nat) in Ht as (c & -> & Hc); [|lia].
    replace (Z.to_nat (Z.of_nat n - Z.of_nat c)) with (n - c)%nat by lia.
    apply (pad_loop_overruns (length cp1 - c)); lia. }
  split.
  - unfold parse_weights.
    destruct (token_loop (Z.of_nat n) 0 cp (CStr.strtok_all "," s))
      as [[[rc|count] cp1]|] eqn:Ht; [| |now left].
    + apply token_loop_keeps in Ht as (_ & _ & _ & ->). right. eauto.
    + rewrite (Hpad _ _ eq_refl). now left.
  - intros Hok. unfold parse_weights, used_tokens in *.
    pose proof (token_loop_overruns (CStr.strtok_all "," s) n 0 cp) as H.
    rewrite Nat.sub_0_r in H. change (Z.of_nat 0) with 0 in H.
    specialize (H ltac:(lia) Hok).
    destruct (token_loop (Z.of_nat n) 0 cp (CStr.strtok_all "," s))
      as [[[rc|count] cp1]|] eqn:Ht; [contradiction| |reflexivity].
    now rewrite (Hpad _ _ eq_refl).
Qed.

Lemma parse_weights_overruns_short_array_witness :
  parse_weights 5 [0; 0; 0; 0] "10,20" = None.
Proof.
  exact (proj2 (parse_weights_overruns_short_array 5 [0; 0; 0; 0] "10,20"
                  ltac:(cbn; lia)) eq_refl).
Defined.

(** *** A negative number of active threads *)

Lemma token_loop_never_breaks (toks : list string) :
  forall (n : Z) (k : nat) (cp : list Z),
    n < 0 -> (k + length toks <= length cp)%nat ->
    forallb token_ok toks = true ->
    token_loop n (Z.of_nat k) cp toks =
    Some (Fell (Z.of_nat (k + length toks)),
          take k cp ++ map token_val toks ++ drop (k + length toks) cp).
Proof.
  induction toks as [|t toks IH]; intros n k cp Hn Hk Hok.
  - cbn [token_loop length map app].
    rewrite Nat.add_0_r, take_drop. reflexivity.
  - cbn [token_loop length map forallb] in *.
    apply andb_true_iff in Hok as [Ht Hok].
    replace (Z.of_nat k =? n) with false by (symmetry; lia).
    destruct (token_ok_strtol t Ht) as [Hst Hrange].
    rewrite Hst. fold (token_val t). rewrite Hrange.
    rewrite array_store_in by lia.
    replace (Z.of_nat k + 1) with (Z.of_nat (S k)) by lia.
    rewrite IH; [|lia|rewrite length_insert; lia|exact Hok].
    replace (k + S (length toks))%nat with (S k + length toks)%nat by lia.
    f_equal. f_equal.
    rewrite drop_insert_lt by lia.
    rewrite (take_S_r _ k (token_val t))
      by (apply list_lookup_insert_eq; lia).
    rewrite take_insert_ge by lia.
    now rewrite <- app_assoc.
Qed.

(** When [ACTIVE_THREADS] is negative (a core range given backwards by
    two or more), the test that ends the first loop never holds: every
    entry of the list is checked and stored, as many as there are. *)
Theorem parse_weights_negative_count_stores_all (n : Z) (cp : list Z)
    (s : string) :
  n < 0 ->
  (length (CStr.strtok_all "," s) <= length cp)%nat ->
  forallb token_ok (CStr.strtok_all "," s) = true ->
  parse_weights n cp s
  = Some (0, map token_val (CStr.strtok_all "," s)
               ++ drop (length (CStr.strtok_all "," s)) cp).
Proof.
  intros Hn Hlen Hok. unfold parse_weights.
  pose proof (token_loop_never_breaks (CStr.strtok_all "," s) n 0 cp) as H.
  change (Z.of_nat 0) with 0 in H. rewrite H by (lia || assumption).
  rewrite take_0, Nat.add_0_l, app_nil_l.
  replace (Z.to_nat (n - Z.of_nat (length (CStr.strtok_all "," s))))
    with 0%nat by lia.
  reflexivity.
Qed.

Lemma parse_weights_negative_count_stores_all_witness :
  parse_weights (-1) [0; 0; 0; 0] "10,20,30" = Some (0, [10; 20; 30; 0]).
Proof.
  exact (parse_weights_negative_count_stores_all (-1) [0; 0; 0; 0]
           "10,20,30" ltac:(lia) ltac:(cbn; lia) eq_refl).
Defined.

End WeightsMore.

(** ** [parse_weights] on lists of decimal numbers *)

Section WeightsNumerals.

Import Weights WeightsAux.

Lemma digit_char_facts (d : nat) :
  (d < 10)%nat ->
  CStr.isdigit (digit_char d) = true /\
  CStr.digit_val (digit_char d) = Z.of_nat d /\
  CStr.is_delim "," (digit_char d) = false.
Proof.
  intros H.
  do 10 (destruct d as [|d]; [repeat split; reflexivity|]). lia.
Qed.

Lemma digits_numeral (ds : list nat) :
  Forall (fun d => (d < 10)%nat) ds ->
  forall acc,
    CStr.digits acc (numeral ds)
    = (fold_left (fun a d => 10 * a + Z.of_nat d) ds acc, EmptyString).
Proof.
  induction 1 as [|d ds Hd _ IH]; intros acc; [reflexivity|].
  destruct (digit_char_facts d Hd) as (Hdig & Hval & _).
  cbn [numeral CStr.digits fold_left]. now rewrite Hdig, Hval, IH.
Qed.

(** [strtol] reads a numeral whole and gives its value, saturated. *)
Lemma strtol_numeral (ds : list nat) :
  is_numeral ds ->
  CStr.strtol (numeral ds)
  = (CStr.clamp_long (numeral_value ds), EmptyString).
Proof.
  intros [Hne Hall]. destruct ds as [|d ds]; [congruence|].
  pose proof (digits_numeral (d :: ds) Hall 0) as Hds.
  inversion Hall as [|? ? Hd Hrest]; subst.
  unfold numeral_value.
  do 10 (destruct d as [|d];
         [cbn [numeral] in *;
          match goal with
          | |- context [digit_char ?k] =>
              let c := eval vm_compute in (digit_char k) in
              change (digit_char k) with c in *
          end;
          unfold CStr.strtol; cbn [CStr.skip_space];
          match goal with
          | |- context [CStr.isspace ?c] =>
              change (CStr.isspace c) with false
          end;
          cbv iota;
          match goal with
          | |- context [CStr.isdigit ?c] =>
              change (CStr.isdigit c) with true
          end;
          cbv iota; rewrite Hds; reflexivity|]).
  lia.
Qed.

Lemma clamp_to_int_small (v : Z) :
  0 <= v < 2 ^ 31 -> CStr.to_int (CStr.clamp_long v) = v.
Proof.
  intros Hv. unfold CStr.clamp_long, CStr.LONG_MIN, CStr.LONG_MAX.
  replace (v <? - 2 ^ 63) with false by (symmetry; lia).
  replace (2 ^ 63 - 1 <? v) with false by (symmetry; lia).
  unfold CStr.to_int.
  rewrite Z.mod_small by lia. lia.
Qed.

Lemma numeral_value_nonneg (ds : list nat) : 0 <= numeral_value ds.
Proof.
  unfold numeral_value.
  assert (forall acc, 0 <= acc ->
            0 <= fold_left (fun a d => 10 * a + Z.of_nat d) ds acc) as H.
  { induction ds as [|d ds IH]; intros acc Hacc; [exact Hacc|].
    cbn [fold_left]. apply IH. lia. }
  apply H. lia.
Qed.

(** A numeral whose value fits an [int] is accepted exactly when the
    value lies in 0..99, and is stored as that value. *)
Lemma token_numeral (ds : list nat) :
  is_numeral ds -> numeral_value ds < 2 ^ 31 ->
  token_ok (numeral ds)
  = (0 <=? numeral_value ds) && (numeral_value ds <=? 99) /\
  token_val (numeral ds) = numeral_value ds.
Proof.
  intros Hn Hv. pose proof (numeral_value_nonneg ds) as H0.
  unfold token_ok, token_val. rewrite strtol_numeral by exact Hn.
  cbn [fst]. rewrite clamp_to_int_small by lia.
  split; [|reflexivity].
  unfold MIN_PRIORITY, MAX_PRIORITY.
  destruct (numeral_value ds <? 0) eqn:Ha;
    destruct (99 <? numeral_value ds) eqn:Hb;
    destruct (0 <=? numeral_value ds) eqn:Hc;
    destruct (numeral_value ds <=? 99) eqn:Hd; try reflexivity; lia.
Qed.

Lemma take_token_numeral (ds : list nat) :
  Forall (fun d => (d < 10)%nat) ds ->
  CStr.take_token "," (numeral ds) = (numeral ds, EmptyString).
Proof.
  induction 1 as [|d ds Hd _ IH]; [reflexivity|].
  destruct (digit_char_facts d Hd) as (_ & _ & Hdel).
  cbn [numeral CStr.take_token]. now rewrite Hdel, IH.
Qed.

Lemma strtok_all_numeral (ds : list nat) :
  is_numeral ds -> CStr.strtok_all "," (numeral ds) = [numeral ds].
Proof.
  intros [Hne Hall]. destruct ds as [|d ds]; [congruence|].
  inversion Hall as [|? ? Hd Hrest]; subst.
  destruct (digit_char_facts d Hd) as (_ & _ & Hdel).
  unfold CStr.strtok_all. cbn [numeral CStr.strtok_from]. rewrite Hdel.
  rewrite strtok_from_inside, take_token_numeral by exact Hrest.
  cbn [fst snd rev app string_of_list_ascii].
  now rewrite string_of_list_ascii_of_string.
Qed.

(** The tokens of a list of numerals are the numerals. *)
Lemma strtok_all_weights_list (es : list (list nat)) :
  Forall is_numeral es ->
  CStr.strtok_all "," (weights_list es) = map numeral es.
Proof.
  induction 1 as [|e es He Hes IH]; [reflexivity|].
  destruct es as [|e' es].
  - cbn [weights_list map]. now apply strtok_all_numeral.
  - change (weights_list (e :: e' :: es))
      with (numeral e ++ String "," (weights_list (e' :: es)))%string.
    rewrite (strtok_all_app_delim "," ","%char) by reflexivity.
    rewrite strtok_all_numeral by exact He. rewrite IH. reflexivity.
Qed.

Lemma tokens_of_numerals (es : list (list nat)) :
  Forall is_numeral es ->
  Forall (fun e => numeral_value e < 2 ^ 31) es ->
  forallb token_ok (map numeral es)
  = forallb (fun v => (0 <=? v) && (v <=? 99)) (map numeral_value es) /\
  map token_val (map numeral es) = map numeral_value es.
Proof.
  induction 1 as [|e es He _ IH]; intros Hv; [split; reflexivity|].
  inversion Hv as [|? ? Hve Hvs]; subst.
  destruct (IH Hvs) as [IH1 IH2].
  destruct (token_numeral e He Hve) as [H1 H2].
  cbn [map forallb]. rewrite H1, H2, IH1, IH2. split; reflexivity.
Qed.

(** C6 (the code departs from the claim, and from the comment that heads
    [parse_weights], lines 258-261: "-1 for invalid input (non-integer or
    out-of-range values)").
    - The lists of the claim give what it says: [10,20,30,40] gives four
      active cores 10,20,30,40, three cores 10,20,30 and six cores
      10,20,30,40,50,50; and [99,10] gives four cores 99,10,50,50.
    - For a comma-separated list of decimal numbers, as long as each of the
      first [n] entries fits an [int], [parse_weights] does what the claim
      says ([spec_priorities]): it returns 0 with the values in order and
      50 for the cores the list does not reach when the entries used all
      lie in 0..99, and -1 otherwise.
    - The entry 4294967306 is out of range, and the claim asks for an
      error; the code narrows the [long] to an [int], finds 10, stores it
      and returns 0. *)
Theorem parse_weights_accepts_narrowed_entry :
  (forall cp : list Z, (6 <= length cp)%nat ->
     active_priorities 4 (parse_weights 4 cp "10,20,30,40")
       = Some (0, [10; 20; 30; 40]) /\
     active_priorities 3 (parse_weights 3 cp "10,20,30,40")
       = Some (0, [10; 20; 30]) /\
     active_priorities 6 (parse_weights 6 cp "10,20,30,40")
       = Some (0, [10; 20; 30; 40; 50; 50]) /\
     active_priorities 4 (parse_weights 4 cp "99,10")
       = Some (0, [99; 10; 50; 50])) /\
  (forall (n : nat) (cp : list Z) (es : list (list nat)),
     (n <= length cp)%nat ->
     Forall is_numeral es ->
     Forall (fun e => numeral_value e < 2 ^ 31) (take n es) ->
     match spec_priorities n (map numeral_value es) with
     | Some ps =>
         parse_weights (Z.of_nat n) cp (weights_list es)
         = Some (0, ps ++ drop n cp)
     | None =>
         exists cp',
           parse_weights (Z.of_nat n) cp (weights_list es) = Some (-1, cp')
     end) /\
  (weights_list [[4; 2; 9; 4; 9; 6; 7; 3; 0; 6]%nat] = "4294967306"%string /\
   numeral_value [4; 2; 9; 4; 9; 6; 7; 3; 0; 6]%nat = 4294967306 /\
   spec_priorities 1 [4294967306] = None /\
   forall cp : list Z, (1 <= length cp)%nat ->
     parse_weights 1 cp "4294967306" = Some (0, 10 :: drop 1 cp)).
Proof.
  split; [|split].
  - intros cp Hcp.
    change 4 with (Z.of_nat 4). change 3 with (Z.of_nat 3).
    change 6 with (Z.of_nat 6).
    repeat split;
      (rewrite active_priorities_accepts; [reflexivity | lia | reflexivity]).
  - intros n cp es Hn Hes Hfit.
    assert (used_tokens n (weights_list es) = map numeral (take n es))
      as Hused.
    { unfold used_tokens. rewrite strtok_all_weights_list by exact Hes.
      symmetry. apply fmap_take. }
    assert (Forall is_numeral (take n es)) as Hes'
      by (now apply Forall_take).
    destruct (tokens_of_numerals (take n es) Hes' Hfit) as [Hok Hval].
    unfold spec_priorities. rewrite <- fmap_take.
    change (fmap numeral_value (take n es))
      with (map numeral_value (take n es)).
    rewrite <- Hok.
    destruct (forallb token_ok (map numeral (take n es))) eqn:Hall.
    + rewrite parse_weights_accepts by (rewrite ?Hused; assumption).
      rewrite Hused, Hval. rewrite !length_map, length_take.
      rewrite <- app_assoc. do 3 f_equal.
      replace (n - n `min` length es)%nat with (n - length es)%nat by lia.
      reflexivity.
    + apply parse_weights_refuses; [exact Hn|]. now rewrite Hused.
  - split; [reflexivity|]. split; [reflexivity|]. split; [reflexivity|].
    intros cp Hcp. change 1 with (Z.of_nat 1).
    rewrite parse_weights_accepts; [reflexivity | lia | reflexivity].
Qed.

Lemma parse_weights_accepts_narrowed_entry_witness :
  active_priorities 6
    (parse_weights 6 [0; 0; 0; 0; 0; 0; 0; 0] "10,20,30,40")
  = Some (0, [10; 20; 30; 40; 50; 50]) /\
  (exists cp',
     parse_weights 4 [0; 0; 0; 0; 0; 0; 0; 0] "10,200,30,40"
     = Some (-1, cp')) /\
  parse_weights 1 [0] "4294967306" = Some (0, [10]).
Proof.
  split; [|split].
  - refine (proj1 (proj2 (proj2 (proj1 parse_weights_accepts_narrowed_entry
                                     [0; 0; 0; 0; 0; 0; 0; 0] _)))).
    simpl. lia.
  - refine (proj1 (proj2 parse_weights_accepts_narrowed_entry) 4%nat
              [0; 0; 0; 0; 0; 0; 0; 0]
              [[1; 0]; [2; 0; 0]; [3; 0]; [4; 0]]%nat _ _ _).
    + simpl. lia.
    + repeat constructor; try discriminate; lia.
    + repeat constructor.
  - apply (proj2 (proj2 (proj2 (proj2
             (proj2 parse_weights_accepts_narrowed_entry)))) [0]).
    simpl. lia.
Defined.

End WeightsNumerals.

(** ** More on start-up *)

Section StartupMore.

Import Startup WeightsAux.

Variable MAX_THREADS : Z.
Variable MAX_WEIGHT_STR_LEN : nat.
Variable strtof : string -> Q.

Abbreviation options_loop' :=
  (options_loop MAX_THREADS MAX_WEIGHT_STR_LEN strtof).
Abbreviation option_case' :=
  (option_case MAX_THREADS MAX_WEIGHT_STR_LEN strtof).
Abbreviation main' := (main MAX_THREADS MAX_WEIGHT_STR_LEN strtof).

(** What an option can do to the globals that the later steps rely on. *)
Lemma option_case_outcome (c : ascii) (arg : string) (g : globals) :
  match option_case' c arg g with
  | Go g' => core_priority g' = core_priority g
  | Return rv usage => (rv = 0 /\ usage = true) \/ (rv = -1 /\ usage = false)
  | Overrun => False
  end.
Proof.
  unfold Startup.option_case, core_option. cbv zeta.
  repeat match goal with
         | |- context [Ascii.eqb c ?x] => destruct (Ascii.eqb c x)
         end;
    cbn [orb]; auto.
  destruct (parse_core_range arg) as [first last].
  destruct (MAX_THREADS <? last - first); auto.
Qed.

Lemma options_loop_outcome (opts : list (ascii * string)) :
  forall g,
    match options_loop' opts g with
    | Go g' => core_priority g' = core_priority g
    | Return rv usage =>
        (rv = 0 /\ usage = true) \/ (rv = -1 /\ usage = false)
    | Overrun => False
    end.
Proof.
  induction opts as [|[c arg] opts IH]; intros g;
    cbn [Startup.options_loop]; [reflexivity|].
  pose proof (option_case_outcome c arg g) as Hc.
  destruct (option_case' c arg g) as [g1| |]; cbn [bind]; auto.
  specialize (IH g1).
  destruct (options_loop' opts g1); auto. congruence.
Qed.

Lemma weights_outcome (g : globals) :
  match weights g with
  | Go g' =>
      core_first g' = core_first g /\ core_last g' = core_last g /\
      ddr_bw_target g' = ddr_bw_target g /\
      ddr_bw_auto_utilization g' = ddr_bw_auto_utilization g /\
      length (core_priority g') = length (core_priority g) /\
      (Forall in_priority_range (core_priority g) ->
       Forall in_priority_range (core_priority g'))
  | Return rv usage => rv = -1 /\ usage = false
  | Overrun => True
  end.
Proof.
  unfold weights. destruct (weight_string g) as [|c s] eqn:Hw.
  - destruct (Weights.pad_loop _ _ 0 (core_priority g)) as [[count cp]|]
      eqn:Hp; [|exact I].
    apply pad_loop_keeps in Hp as (Hlen & Hrange & _).
    unfold set_core_priority. cbn. repeat split; auto.
  - destruct (Weights.parse_weights _ _ _) as [[rc cp]|] eqn:Hp; [|exact I].
    apply parse_weights_frame in Hp as (Hlen & Hrange & _ & Hrc).
    destruct (rc <? 0) eqn:Hneg; [split; [reflexivity|reflexivity]|].
    unfold set_core_priority. cbn. repeat split; auto.
Qed.

(** The values [main] can return before it starts its threads: 0 after
    the usage text, -1 on an error of its own, or what [rdt_mbm_init]
    returned when that is not 0. *)
Theorem main_return_values (opts : list (ascii * string))
    (env : collaborators) (rv : Z) (usage : bool) :
  main' opts env = Return rv usage ->
  (rv = 0 /\ usage = true) \/
  (rv = -1 /\ usage = false) \/
  (rv = rdt_init_rc env /\ rv <> 0 /\ rdt_support_rc env = 0
   /\ usage = false).
Proof.
  unfold Startup.main.
  pose proof (options_loop_outcome opts (globals0 MAX_THREADS env)) as H1.
  destruct (options_loop' opts _) as [g1| |]; cbn [bind];
    [|intros [= <- <-]; tauto|discriminate].
  unfold autodetect.
  destruct ((core_first g1 =? -1) || (core_last g1 =? -1)); cbn [bind].
  1: destruct ((core_first _ =? -1) || (core_last _ =? -1)); cbn [bind];
       [intros [= <- <-]; tauto|].
  all: match goal with
       | |- context [weights ?g] =>
           pose proof (weights_outcome g) as H2;
           destruct (weights g) as [g3| |]; cbn [bind];
           [|intros [= <- <-]; tauto|discriminate]
       end.
  all: unfold ddrbw_auto;
       destruct (ddr_bw_target g3 =? Worker.DDR_BW_NOT_SET); cbn [bind];
       try (destruct (ddr_bw_target _ =? -1); cbn [bind];
            [intros [= <- <-]; tauto|]).
  all: unfold rdt_or_pmu;
       destruct (rdt_support_rc env =? 0) eqn:Hs; cbn [bind];
       try (destruct (rdt_init_rc env =? 0) eqn:Hi; cbn [bind]).
  all: unfold start_threads;
       try (destruct (forallb _ _); discriminate).
  all: intros [= <- <-]; right; right; repeat split; lia.
Qed.

Lemma startup_loop_entries (first last tnum core : Z) :
  In (tnum, core) (startup_loop first last) ->
  0 <= tnum <= last - first /\ core = first + tnum.
Proof.
  unfold startup_loop. intros H.
  apply in_map_iff in H as (k & [= <- <-] & Hk).
  apply in_seq in Hk. split; [lia | reflexivity].
Qed.

(** When [main] gets as far as starting its threads: the workers are those
    of the range, one per core and in order, at indices that [gtinfo] has;
    there are no more of them than [MAX_THREADS]; every entry of
    [core_priority] lies in 0..99; the bandwidth target is not the "not
    set" mark, and neither end of the range is -1. *)
Theorem main_started_invariant (opts : list (ascii * string))
    (env : collaborators) (g : globals) (created : list (Z * Z)) :
  0 <= MAX_THREADS ->
  main' opts env = Go (g, created) ->
  created = startup_loop (core_first g) (core_last g) /\
  ACTIVE_THREADS g <= MAX_THREADS /\
  length created = Z.to_nat (ACTIVE_THREADS g) /\
  (forall tnum core, In (tnum, core) created ->
     0 <= tnum < MAX_THREADS /\ core = core_first g + tnum) /\
  length (core_priority g) = Z.to_nat MAX_THREADS /\
  Forall in_priority_range (core_priority g) /\
  ddr_bw_target g <> Worker.DDR_BW_NOT_SET /\
  core_first g <> -1 /\ core_last g <> -1.
Proof.
  intros HM. unfold Startup.main.
  pose proof (options_loop_outcome opts (globals0 MAX_THREADS env)) as H1.
  destruct (options_loop' opts _) as [g1| |]; cbn [bind]; [|discriminate..].
  assert (length (core_priority g1) = Z.to_nat MAX_THREADS
          /\ Forall in_priority_range (core_priority g1)) as [Hlen1 Hr1].
  { rewrite H1. unfold globals0. cbn [core_priority].
    split; [apply length_replicate|].
    apply Forall_replicate. unfold in_priority_range, Weights.MIN_PRIORITY,
      Weights.MAX_PRIORITY. lia. }
  clear H1.
  assert (forall g2, autodetect env g1 = Go g2 ->
            core_priority g2 = core_priority g1 /\
            core_first g2 <> -1 /\ core_last g2 <> -1) as Hauto.
  { intros g2. unfold autodetect.
    destruct ((core_first g1 =? -1) || (core_last g1 =? -1)) eqn:Hd.
    - set (g' := set_cores g1 (first_efficiency_core env)
                   (last_efficiency_core env)).
      destruct ((core_first g' =? -1) || (core_last g' =? -1)) eqn:Hd2;
        [discriminate|].
      intros [= <-]. apply orb_false_iff in Hd2 as [Ha Hb].
      split; [reflexivity|]. lia.
    - intros [= <-]. apply orb_false_iff in Hd as [Ha Hb].
      split; [reflexivity|]. lia. }
  destruct (autodetect env g1) as [g2| |]; cbn [bind]; [|discriminate..].
  destruct (Hauto g2 eq_refl) as (Hcp2 & Hf2 & Hl2). clear Hauto.
  pose proof (weights_outcome g2) as H3.
  destruct (weights g2) as [g3| |]; cbn [bind]; [|discriminate..].
  destruct H3 as (Hf3 & Hl3 & _ & _ & Hlen3 & Hr3).
  assert (forall g4, ddrbw_auto env g3 = Go g4 ->
            core_first g4 = core_first g3 /\ core_last g4 = core_last g3 /\
            core_priority g4 = core_priority g3 /\
            ddr_bw_target g4 <> Worker.DDR_BW_NOT_SET) as Hddr.
  { intros g4. unfold ddrbw_auto.
    destruct (ddr_bw_target g3 =? Worker.DDR_BW_NOT_SET) eqn:Hd.
    - set (g' := set_ddr_bw_target g3 _).
      destruct (ddr_bw_target g' =? -1) eqn:Hd2; [discriminate|].
      intros [= <-]. repeat split. unfold Worker.DDR_BW_NOT_SET. lia.
    - intros [= <-]. repeat split. lia. }
  destruct (ddrbw_auto env g3) as [g4| |]; cbn [bind]; [|discriminate..].
  destruct (Hddr g4 eq_refl) as (Hf4 & Hl4 & Hcp4 & Ht4). clear Hddr.
  assert (forall g5, rdt_or_pmu env g4 = Go g5 ->
            core_first g5 = core_first g4 /\ core_last g5 = core_last g4 /\
            core_priority g5 = core_priority g4 /\
            ddr_bw_target g5 = ddr_bw_target g4) as Hrdt.
  { intros g5. unfold rdt_or_pmu.
    destruct (rdt_support_rc env =? 0); [|now intros [= <-]].
    destruct (rdt_init_rc env =? 0); [|discriminate].
    now intros [= <-]. }
  destruct (rdt_or_pmu env g4) as [g5| |]; cbn [bind]; [|discriminate..].
  destruct (Hrdt g5 eq_refl) as (Hf5 & Hl5 & Hcp5 & Ht5). clear Hrdt.
  unfold start_threads.
  destruct (forallb _ (startup_loop (core_first g5) (core_last g5)))
    eqn:Hall; [|discriminate].
  intros [= <- <-].
  rewrite forallb_forall in Hall.
  assert (ACTIVE_THREADS g5 <= MAX_THREADS) as Hact.
  { unfold ACTIVE_THREADS.
    destruct (Z_le_gt_dec (core_last g5 - core_first g5 + 1) MAX_THREADS)
      as [Hle|Hgt]; [exact Hle|].
    specialize (Hall _ (startup_loop_In (core_first g5) (core_last g5)
                          MAX_THREADS ltac:(lia))).
    cbn [fst] in Hall. unfold in_bounds in Hall.
    apply andb_true_iff in Hall as [_ Hlt]. lia. }
  split; [reflexivity|]. split; [exact Hact|].
  split; [apply startup_loop_length|]. split.
  - intros tnum core Hin.
    pose proof (Hall _ Hin) as Hb. cbn [fst] in Hb. unfold in_bounds in Hb.
    apply andb_true_iff in Hb as [Hb1 Hb2].
    apply startup_loop_entries in Hin as [_ ->]. split; [lia|reflexivity].
  - rewrite Hcp5, Hcp4. rewrite Hcp2 in Hlen3, Hr3.
    repeat split; try congruence; auto.
Qed.

Lemma option_case_keeps_cores (c : ascii) (arg : string) (g g' : globals) :
  c <> "c"%char ->
  option_case' c arg g = Go g' ->
  core_first g' = core_first g /\ core_last g' = core_last g.
Proof.
  intros Hc. apply Ascii.eqb_neq in Hc.
  unfold Startup.option_case. cbv zeta. rewrite Hc.
  repeat match goal with
         | |- context [Ascii.eqb c ?x] => destruct (Ascii.eqb c x)
         end;
    cbn [orb]; try discriminate; intros [= <-]; split; reflexivity.
Qed.

Lemma options_loop_keeps_cores (opts : list (ascii * string)) :
  List.Forall (fun o => fst o <> "c"%char) opts ->
  forall g g',
    options_loop' opts g = Go g' ->
    core_first g' = core_first g /\ core_last g' = core_last g.
Proof.
  induction 1 as [|[c arg] opts Hc _ IH]; intros g g';
    cbn [Startup.options_loop].
  - intros [= <-]. split; reflexivity.
  - cbn [fst] in Hc.
    destruct (option_case' c arg g) as [g1| |] eqn:H1; cbn [bind];
      [|discriminate..].
    intros H2. apply IH in H2 as [-> ->].
    exact (option_case_keeps_cores c arg g g1 Hc H1).
Qed.

(** The range the workers are started for: the one the options left,
    unless one of its ends is -1, and then the efficiency cores. *)
Lemma main_cores (opts : list (ascii * string)) (env : collaborators)
    (g : globals) (created : list (Z * Z)) :
  main' opts env = Go (g, created) ->
  exists g1,
    options_loop' opts (globals0 MAX_THREADS env) = Go g1 /\
    created = startup_loop (core_first g) (core_last g) /\
    (core_first g1 <> -1 /\ core_last g1 <> -1 ->
     core_first g = core_first g1 /\ core_last g = core_last g1) /\
    (core_first g1 = -1 \/ core_last g1 = -1 ->
     core_first g = first_efficiency_core env /\
     core_last g = last_efficiency_core env).
Proof.
  unfold Startup.main.
  destruct (options_loop' opts _) as [g1| |]; cbn [bind]; [|discriminate..].
  intros H. exists g1. split; [reflexivity|]. revert H.
  assert (forall g2, autodetect env g1 = Go g2 ->
            (core_first g1 <> -1 /\ core_last g1 <> -1 ->
             core_first g2 = core_first g1 /\ core_last g2 = core_last g1)
            /\ (core_first g1 = -1 \/ core_last g1 = -1 ->
                core_first g2 = first_efficiency_core env /\
                core_last g2 = last_efficiency_core env)) as Hauto.
  { intros g2. unfold autodetect.
    destruct ((core_first g1 =? -1) || (core_last g1 =? -1)) eqn:Hd.
    - set (g' := set_cores g1 (first_efficiency_core env)
                   (last_efficiency_core env)).
      destruct ((core_first g' =? -1) || (core_last g' =? -1));
        [discriminate|].
      intros [= <-]. apply orb_true_iff in Hd. split.
      + intros [Ha Hb]. exfalso. destruct Hd; lia.
      + intros _. split; reflexivity.
    - intros [= <-]. apply orb_false_iff in Hd as [Ha Hb]. split.
      + intros _. split; reflexivity.
      + intros [H | H]; exfalso; lia. }
  destruct (autodetect env g1) as [g2| |]; cbn [bind]; [|discriminate..].
  destruct (Hauto g2 eq_refl) as [Hkeep Hdet]. clear Hauto.
  pose proof (weights_outcome g2) as H3.
  destruct (weights g2) as [g3| |]; cbn [bind]; [|discriminate..].
  destruct H3 as (Hf3 & Hl3 & _).
  assert (forall g4, ddrbw_auto env g3 = Go g4 ->
            core_first g4 = core_first g3 /\ core_last g4 = core_last g3)
    as Hddr.
  { intros g4. unfold ddrbw_auto.
    destruct (ddr_bw_target g3 =? Worker.DDR_BW_NOT_SET).
    - set (g' := set_ddr_bw_target g3 _).
      destruct (ddr_bw_target g' =? -1); [discriminate|].
      intros [= <-]. split; reflexivity.
    - intros [= <-]. split; reflexivity. }
  destruct (ddrbw_auto env g3) as [g4| |]; cbn [bind]; [|discriminate..].
  destruct (Hddr g4 eq_refl) as (Hf4 & Hl4). clear Hddr.
  assert (forall g5, rdt_or_pmu env g4 = Go g5 ->
            core_first g5 = core_first g4 /\ core_last g5 = core_last g4)
    as Hrdt.
  { intros g5. unfold rdt_or_pmu.
    destruct (rdt_support_rc env =? 0); [|now intros [= <-]].
    destruct (rdt_init_rc env =? 0); [|discriminate].
    now intros [= <-]. }
  destruct (rdt_or_pmu env g4) as [g5| |]; cbn [bind]; [|discriminate..].
  destruct (Hrdt g5 eq_refl) as (Hf5 & Hl5). clear Hrdt.
  unfold start_threads.
  destruct (forallb _ (startup_loop (core_first g5) (core_last g5)));
    [|discriminate].
  intros [= <- <-]. split; [reflexivity|].
  rewrite Hf5, Hl5, Hf4, Hl4, Hf3, Hl3. split; assumption.
Qed.

(** What the last [--core] option of the command line leaves in the
    globals when [main] goes past the options. *)
Lemma last_core_option (before after : list (ascii * string))
    (optarg : string) (env : collaborators) (g1 : globals) :
  List.Forall (fun o => fst o <> "c"%char) after ->
  options_loop' (before ++ ("c"%char, optarg) :: after)
    (globals0 MAX_THREADS env) = Go g1 ->
  core_first g1 = fst (parse_core_range optarg) /\
  core_last g1 = snd (parse_core_range optarg).
Proof.
  intros Hafter. rewrite options_loop_app.
  destruct (options_loop' before _) as [gb| |]; cbn [bind];
    [|discriminate..].
  cbn [Startup.options_loop].
  change (option_case' "c" optarg gb) with (core_option MAX_THREADS optarg gb).
  unfold core_option.
  destruct (parse_core_range optarg) as [first last]. cbn [fst snd].
  destruct (MAX_THREADS <? last - first); cbn [bind]; [discriminate|].
  intros H. apply (options_loop_keeps_cores after Hafter) in H as [-> ->].
  split; reflexivity.
Qed.

(** [--core] with one number.  When the last [--core] option of the
    command line has an argument without a '-', and [main] gets as far as
    starting its threads: if the number, as an [int], is not -1, it is the
    one core of the range and one worker is started, for it; if it is -1
    (as for [4294967295]) the option counts for nothing and the range is
    that of the efficiency cores. *)
Theorem core_option_single_core (before after : list (ascii * string))
    (optarg : string) (env : collaborators) (g : globals)
    (created : list (Z * Z)) :
  List.Forall (fun o => fst o <> "c"%char) after ->
  CStr.strstr_dash optarg = None ->
  main' (before ++ ("c"%char, optarg) :: after) env = Go (g, created) ->
  let core := CStr.to_int (fst (CStr.strtol optarg)) in
  (core <> -1 ->
     core_first g = core /\ core_last g = core /\
     ACTIVE_THREADS g = 1 /\ created = [(0, core)]) /\
  (core = -1 ->
     core_first g = first_efficiency_core env /\
     core_last g = last_efficiency_core env /\
     created = startup_loop (first_efficiency_core env)
                 (last_efficiency_core env)).
Proof.
  intros Hafter Hdash Hmain core.
  apply main_cores in Hmain as (g1 & Hopts & Hcreated & Hkeep & Hdet).
  apply (last_core_option before after optarg env g1 Hafter) in Hopts
    as [Hf Hl].
  unfold parse_core_range in Hf, Hl. rewrite Hdash in Hf, Hl.
  cbn [fst snd] in Hf, Hl. fold core in Hf, Hl.
  split.
  - intros Hcore. destruct Hkeep as [Hf' Hl']; [rewrite Hf, Hl; tauto|].
    rewrite Hf in Hf'. rewrite Hl in Hl'.
    split; [exact Hf'|]. split; [exact Hl'|]. split.
    + unfold ACTIVE_THREADS. lia.
    + rewrite Hcreated, Hf', Hl'. unfold startup_loop.
      replace (core - core + 1) with 1 by lia.
      change (Z.to_nat 1) with 1%nat. cbn [seq map Z.of_nat].
      now rewrite Z.add_0_r.
  - intros Hcore. destruct Hdet as [Hf' Hl']; [left; congruence|].
    split; [exact Hf'|]. split; [exact Hl'|]. now rewrite Hcreated, Hf', Hl'.
Qed.

(** A range given backwards is not refused.  When the last [--core]
    option of the command line has an argument [first-last] with
    [last < first], neither of them -1 and their difference an [int], and
    [main] gets as far as starting its threads, the range is kept as
    given, the number of active threads is zero or negative, and no worker
    at all is started. *)
Theorem core_option_reversed_range (before after : list (ascii * string))
    (optarg : string) (env : collaborators) (g : globals)
    (created : list (Z * Z)) :
  List.Forall (fun o => fst o <> "c"%char) after ->
  let first := fst (parse_core_range optarg) in
  let last := snd (parse_core_range optarg) in
  last < first ->
  first <> -1 -> last <> -1 ->
  - 2 ^ 31 <= last - first ->
  main' (before ++ ("c"%char, optarg) :: after) env = Go (g, created) ->
  core_first g = first /\ core_last g = last /\
  ACTIVE_THREADS g <= 0 /\ created = [].
Proof.
  intros Hafter first last Hrev Hf1 Hl1 _ Hmain.
  apply main_cores in Hmain as (g1 & Hopts & Hcreated & Hkeep & _).
  apply (last_core_option before after optarg env g1 Hafter) in Hopts
    as [Hf Hl].
  fold first in Hf. fold last in Hl.
  destruct Hkeep as [Hf' Hl']; [rewrite Hf, Hl; tauto|].
  rewrite Hf in Hf'. rewrite Hl in Hl'.
  split; [exact Hf'|]. split; [exact Hl'|]. split.
  - unfold ACTIVE_THREADS. lia.
  - rewrite Hcreated, Hf', Hl'. unfold startup_loop.
    replace (Z.to_nat (last - first + 1)) with 0%nat by lia.
    reflexivity.
Qed.

Lemma float_to_int_minus (u : Q) :
  auto_target (-1) u = - Z.quot (Qnum u) (Z.pos (Qden u)).
Proof.
  unfold auto_target, float_to_int. cbn [Qmult inject_Z Qnum Qden].
  rewrite Pos.mul_1_l.
  replace (-1 * Qnum u) with (- Qnum u) by lia.
  apply Z.quot_opp_l. discriminate.
Qed.

(** When the DMI reader answers -1 and no bandwidth option was given,
    start-up is refused exactly when the utilization factor lies in
    [1, 2): for every other factor the product truncates to a value other
    than -1 and start-up goes on with it. *)
Theorem ddrbw_auto_refuses_dmi_error_iff (env : collaborators)
    (g : globals) :
  ddr_bw_target g = Worker.DDR_BW_NOT_SET ->
  dmi_bandwidth env = -1 ->
  (ddrbw_auto env g = Return (-1) false
   <-> (1 <= ddr_bw_auto_utilization g)%Q
       /\ (ddr_bw_auto_utilization g < 2)%Q).
Proof.
  intros Hset Hdmi. rewrite ddrbw_auto_derives by exact Hset.
  rewrite Hdmi, float_to_int_minus.
  set (u := ddr_bw_auto_utilization g).
  unfold Qle, Qlt. cbn [Qnum Qden].
  set (a := Qnum u). set (d := Z.pos (Qden u)).
  assert (0 < d) as Hd by (subst d; lia).
  destruct (- Z.quot a d =? -1) eqn:Hq.
  - split; [intros _|reflexivity].
    assert (Z.quot a d = 1) as H1 by lia.
    destruct (Z_lt_le_dec a 0) as [Hneg|Hpos].
    + pose proof (Z.quot_opp_l a d ltac:(lia)) as Ho.
      pose proof (Z.quot_pos (- a) d ltac:(lia) Hd). lia.
    + rewrite Z.quot_div_nonneg in H1 by lia.
      pose proof (Z.div_mod a d ltac:(lia)) as Hdm.
      pose proof (Z.mod_pos_bound a d Hd). rewrite H1 in Hdm. lia.
  - split; [discriminate|]. intros [Hle Hlt]. exfalso.
    assert (Z.quot a d = 1) as H1; [|lia].
    rewrite Z.quot_div_nonneg by lia.
    symmetry. apply (Z.div_unique a d 1 (a - d)); lia.
Qed.

End StartupMore.

Section StartupMoreWitnesses.

Import Startup.

Lemma main_return_values_witness :
  (-1 = 0 /\ false = true) \/
  (-1 = -1 /\ false = false) \/
  (-1 = 0 /\ -1 <> 0 /\ 1 = 0 /\ false = false).
Proof.
  exact (main_return_values 4 256 (fun _ => 0%Q)
           [("c"%char, "0-100"%string)]
           (mk_collaborators 8 11 46000 1 0 EmptyString) (-1) false
           eq_refl).
Defined.

Lemma main_started_invariant_witness :
  ACTIVE_THREADS
    (mk_globals 8 11 46000 1 1 0 0 3 [50; 50; 50; 50] EmptyString
       default_utilization) <= 4.
Proof.
  refine (proj1 (proj2 (main_started_invariant 4 256 (fun _ => 0%Q)
                          [("c"%char, "8-11"%string);
                           ("D"%char, "46000"%string)]
                          (mk_collaborators 8 11 46000 1 0 EmptyString)
                          _ [(0, 8); (1, 9); (2, 10); (3, 11)] _ _)));
    [lia | vm_compute; reflexivity].
Defined.

Lemma core_option_single_core_witness :
  9 = 9 /\ 9 = 9 /\
  ACTIVE_THREADS
    (mk_globals 9 9 46000 1 1 0 0 3 [50; 0; 0; 0] EmptyString
       default_utilization) = 1 /\
  [(0, 9)] = [(0, 9)].
Proof.
  refine (proj1 (core_option_single_core 4 256 (fun _ => 0%Q)
                   [("D"%char, "46000"%string)] []
                   "9"%string
                   (mk_collaborators 8 11 46000 1 0 EmptyString)
                   (mk_globals 9 9 46000 1 1 0 0 3 [50; 0; 0; 0] EmptyString
                      default_utilization)
                   [(0, 9)] _ eq_refl _) _);
    [constructor | vm_compute; reflexivity | vm_compute; discriminate].
Defined.

Lemma core_option_reversed_range_witness :
  11 = 11 /\ 8 = 8 /\
  ACTIVE_THREADS
    (mk_globals 11 8 46000 1 1 0 0 3 [0; 0; 0; 0] EmptyString
       default_utilization) <= 0 /\
  @nil (Z * Z) = [].
Proof.
  refine (core_option_reversed_range 4 256 (fun _ => 0%Q)
            [] [("D"%char, "46000"%string)]
            "11-8"%string
            (mk_collaborators 8 11 46000 1 0 EmptyString)
            (mk_globals 11 8 46000 1 1 0 0 3 [0; 0; 0; 0] EmptyString
               default_utilization)
            [] _ _ _ _ _ _);
    [repeat constructor; discriminate | vm_compute; reflexivity
    | vm_compute; discriminate | vm_compute; discriminate
    | vm_compute; discriminate | vm_compute; reflexivity].
Defined.

Lemma ddrbw_auto_refuses_dmi_error_iff_witness :
  ddrbw_auto (mk_collaborators 8 11 (-1) 1 0 EmptyString)
    (set_utilization
       (globals0 4 (mk_collaborators 8 11 (-1) 1 0 EmptyString)) (3 # 2))
  = Return (-1) false.
Proof.
  apply (proj2 (ddrbw_auto_refuses_dmi_error_iff
                  (mk_collaborators 8 11 (-1) 1 0 EmptyString)
                  (set_utilization
                     (globals0 4
                        (mk_collaborators 8 11 (-1) 1 0 EmptyString))
                     (3 # 2))
                  eq_refl eq_refl)).
  split; [discriminate | reflexivity].
Defined.

End StartupMoreWitnesses.

(** ** More on the worker thread *)

Section WorkerMore.

Import Worker WorkerAux.

Lemma tick_loop_cons cfg l ts e envs :
  tick_loop cfg l ts (e :: envs) =
  (fst (tick cfg l ts e)
     ++ fst (tick_loop cfg (fst (snd (tick cfg l ts e)))
               (snd (snd (tick cfg l ts e))) envs),
   snd (tick_loop cfg (fst (snd (tick cfg l ts e)))
          (snd (snd (tick cfg l ts e))) envs)).
Proof.
  cbn [tick_loop]. destruct (tick cfg l ts e) as [ev [l1 ts1]].
  cbn [fst snd]. now destruct (tick_loop cfg l1 ts1 envs).
Qed.

Lemma tick_loop_app cfg envs1 envs2 :
  forall l ts,
    tick_loop cfg l ts (envs1 ++ envs2) =
    (fst (tick_loop cfg l ts envs1)
       ++ fst (tick_loop cfg (final_locals cfg l ts envs1)
                 (final_state cfg l ts envs1) envs2),
     snd (tick_loop cfg (final_locals cfg l ts envs1)
            (final_state cfg l ts envs1) envs2)).
Proof.
  unfold final_locals, final_state.
  induction envs1 as [|e envs1 IH]; intros l ts.
  - cbn [app tick_loop fst snd]. now destruct (tick_loop cfg l ts envs2).
  - cbn [app]. rewrite !tick_loop_cons, IH. cbn [fst snd].
    now rewrite app_assoc.
Qed.

Lemma final_state_core_id cfg envs :
  forall l ts, core_id (final_state cfg l ts envs) = core_id ts.
Proof.
  unfold final_state.
  induction envs as [|e envs IH]; intros l ts; [reflexivity|].
  rewrite tick_loop_cons. cbn [snd]. rewrite IH. apply tick_core_id.
Qed.

(** The third step on a core that leads its module. *)
Lemma tick_writes_lead cfg l ts e :
  CORE_IN_MODULE (core_id ts) (core_first cfg) = 0 ->
  writes (fst (tick cfg l ts e)) =
  if asks_write e then [HwpfWrite (core_id ts) (asked_image cfg e)] else [].
Proof.
  intros Hlead. rewrite tick_writes. unfold apply_phase, asks_write,
    asked_image.
  cbn [core_id hwpf_msr_dirty hwpf_msr_value].
  rewrite sample_phase_core_id, Hlead. cbn [Z.eqb andb].
  now destruct (tuned_dirty e =? 1).
Qed.

Lemma msr_after_writes (tr : list event) :
  forall hw, msr_after hw tr = msr_after hw (writes tr).
Proof.
  induction tr as [|e tr IH]; intros hw; [reflexivity|].
  destruct e; cbn [msr_after writes List.filter is_write]; apply IH.
Qed.

Lemma last_of_cons {A : Type} (l : list A) :
  forall x d1 d2, List.last (x :: l) d1 = List.last (x :: l) d2.
Proof.
  induction l as [|y l IH]; intros x d1 d2; [reflexivity|].
  change (List.last (y :: l) d1 = List.last (y :: l) d2). apply IH.
Qed.

Lemma msr_after_images (core : Z) (images : list msr_image) :
  forall hw, msr_after hw (map (HwpfWrite core) images) = List.last images hw.
Proof.
  induction images as [|v images IH]; intros hw; [reflexivity|].
  cbn [map msr_after]. rewrite IH.
  destruct images as [|m images]; [reflexivity|].
  change (List.last (v :: m :: images) hw) with (List.last (m :: images) hw).
  apply last_of_cons.
Qed.

(** On a core that leads its module the loop writes the MSRs once for each
    iteration in which the tuner has left the dirty flag at 1, in order,
    with the image asked for, and never otherwise; the register is left
    with the last of these images, or as it was before the loop. *)
Theorem lead_loop_writes_what_tuner_asks (cfg : config) (l : locals)
    (ts : thread_state) (envs : list tick_env) (hw : msr_image) :
  CORE_IN_MODULE (core_id ts) (core_first cfg) = 0 ->
  writes (fst (tick_loop cfg l ts envs))
  = map (fun e => HwpfWrite (core_id ts) (asked_image cfg e))
        (List.filter asks_write envs) /\
  msr_after hw (fst (tick_loop cfg l ts envs))
  = List.last (map (asked_image cfg) (List.filter asks_write envs)) hw.
Proof.
  intros Hlead.
  assert (writes (fst (tick_loop cfg l ts envs))
          = map (HwpfWrite (core_id ts))
                (map (asked_image cfg) (List.filter asks_write envs)))
    as Hw.
  { revert l ts Hlead.
    induction envs as [|e envs IH]; intros l ts Hlead; [reflexivity|].
    rewrite tick_loop_cons. cbn [fst]. rewrite writes_app.
    rewrite tick_writes_lead by exact Hlead.
    rewrite IH by (now rewrite tick_core_id).
    rewrite tick_core_id. cbn [List.filter].
    now destruct (asks_write e). }
  split.
  - rewrite Hw. apply map_map.
  - rewrite msr_after_writes, Hw. apply msr_after_images.
Qed.

Lemma lead_loop_writes_what_tuner_asks_witness :
  msr_after [1]
    (fst (tick_loop (mk_config 8 0 46000) (mk_locals [] [] 0 0 0 0)
            (mk_thread_state 12 [] 0 0 [1] 0)
            [mk_tick_env [] 0 0 [2] 1 []; mk_tick_env [] 0 0 [3] 0 []]))
  = [2].
Proof.
  exact (proj2 (lead_loop_writes_what_tuner_asks (mk_config 8 0 46000)
                  (mk_locals [] [] 0 0 0 0)
                  (mk_thread_state 12 [] 0 0 [1] 0)
                  [mk_tick_env [] 0 0 [2] 1 []; mk_tick_env [] 0 0 [3] 0 []]
                  [1] eq_refl)).
Defined.

(** What one iteration leaves in the locals: the counters just read. *)
Lemma tick_locals cfg l ts e :
  pmu_new (fst (snd (tick cfg l ts e))) = read_pmu e /\
  instructions_new (fst (snd (tick cfg l ts e))) = read_instructions e /\
  cpu_cycles_new (fst (snd (tick cfg l ts e))) = read_cycles e.
Proof.
  unfold tick, sample_phase.
  destruct (negb (tunealg cfg =? MAB)); cbn [fst snd];
    match goal with |- context [apply_phase cfg ?t e] =>
      destruct (apply_phase cfg t e) end; cbn; auto.
Qed.

Lemma tick_published cfg l ts e :
  let ts' := snd (snd (tick cfg l ts e)) in
  if tunealg cfg =? MAB then
    pmu_result ts' = pmu_result ts /\
    instructions_retired ts'
      = u64_sub (read_instructions e) (instructions_new l) /\
    cpu_cycles ts' = u64_sub (read_cycles e) (cpu_cycles_new l)
  else
    pmu_result ts' = zip_with u64_sub (read_pmu e) (pmu_new l) /\
    instructions_retired ts' = instructions_retired ts /\
    cpu_cycles ts' = cpu_cycles ts.
Proof.
  unfold tick, sample_phase.
  destruct (tunealg cfg =? MAB); cbn [negb fst snd]; unfold apply_phase;
    cbn [core_id hwpf_msr_dirty pmu_result instructions_retired cpu_cycles
         pmu_new pmu_old instructions_new instructions_old cpu_cycles_new
         cpu_cycles_old];
    match goal with |- context [if ?c then _ else _] => destruct c end;
    cbn; auto.
Qed.

(** From the second iteration on, what an iteration publishes is the
    64-bit difference between the counters it has read and those the
    iteration before it had read: the programmable counters when the
    algorithm is not the bandit, instructions and cycles when it is. *)
Theorem published_difference_of_consecutive_samples (cfg : config)
    (l : locals) (ts : thread_state) (envs : list tick_env)
    (e1 e2 : tick_env) :
  let ts' := final_state cfg l ts (envs ++ [e1; e2]) in
  (tunealg cfg <> MAB ->
     pmu_result ts' = zip_with u64_sub (read_pmu e2) (read_pmu e1)) /\
  (tunealg cfg = MAB ->
     instructions_retired ts'
       = u64_sub (read_instructions e2) (read_instructions e1) /\
     cpu_cycles ts' = u64_sub (read_cycles e2) (read_cycles e1)).
Proof.
  intros ts'. subst ts'. unfold final_state.
  rewrite tick_loop_app. cbn [snd].
  set (l1 := final_locals cfg l ts envs).
  set (ts1 := final_state cfg l ts envs).
  rewrite tick_loop_cons. cbn [snd].
  destruct (tick_locals cfg l1 ts1 e1) as (Hp & Hi & Hc).
  set (l2 := fst (snd (tick cfg l1 ts1 e1))) in *.
  set (ts2 := snd (snd (tick cfg l1 ts1 e1))).
  rewrite tick_loop_cons. cbn [tick_loop snd].
  pose proof (tick_published cfg l2 ts2 e2) as H. cbv zeta in H.
  rewrite Hp, Hi, Hc in H.
  split; intros Halg.
  - replace (tunealg cfg =? MAB) with false in H by (symmetry; lia).
    apply H.
  - replace (tunealg cfg =? MAB) with true in H by (symmetry; lia).
    split; apply H.
Qed.

Lemma published_difference_of_consecutive_samples_witness :
  pmu_result
    (final_state (mk_config 8 0 46000) (mk_locals [0] [0] 0 0 0 0)
       (mk_thread_state 9 [0] 0 0 [1] 0)
       ([] ++ [mk_tick_env [100] 0 0 [] 0 []; mk_tick_env [130] 0 0 [] 0 []]))
  = [30].
Proof.
  exact (proj1 (published_difference_of_consecutive_samples
                  (mk_config 8 0 46000) (mk_locals [0] [0] 0 0 0 0)
                  (mk_thread_state 9 [0] 0 0 [1] 0) []
                  (mk_tick_env [100] 0 0 [] 0 [])
                  (mk_tick_env [130] 0 0 [] 0 []))
           ltac:(discriminate)).
Defined.

(** Under the bandit the loop never stores in [pmu_result]; under the
    other algorithms it never stores in [instructions_retired] nor in
    [cpu_cycles]: the tuner then reads what was there at start-up. *)
Theorem loop_leaves_unused_results (cfg : config) (envs : list tick_env)
    (l : locals) (ts : thread_state) :
  if tunealg cfg =? MAB
  then pmu_result (final_state cfg l ts envs) = pmu_result ts
  else instructions_retired (final_state cfg l ts envs)
         = instructions_retired ts
       /\ cpu_cycles (final_state cfg l ts envs) = cpu_cycles ts.
Proof.
  unfold final_state. revert l ts.
  induction envs as [|e envs IH]; intros l ts.
  - cbn [tick_loop snd]. now destruct (tunealg cfg =? MAB).
  - rewrite tick_loop_cons. cbn [snd].
    specialize (IH (fst (snd (tick cfg l ts e))) (snd (snd (tick cfg l ts e)))).
    pose proof (tick_published cfg l ts e) as H. cbv zeta in H.
    destruct (tunealg cfg =? MAB).
    + rewrite IH. apply H.
    + destruct IH as [-> ->]. split; apply H.
Qed.

(** The thread function ends the process only from the bandwidth
    self-test.  When [thread_start] calls [exit], the status is -1,
    [--ddrbw-test] was given, the thread is that of [core_first], and
    either [ddrmembw_init] failed or the bandwidth read after the
    measurement was 0; the thread has then not opened nor written the
    MSRs, nor entered the loop.  (Whether a thread gets past the two waits
    of the self-test depends on the other threads.) *)
Theorem thread_start_exits_only_in_self_test (cfg : config)
    (ts : thread_state) (l0 : locals) (a : autotest_env)
    (image0 : msr_image) (envs : list tick_env) (status : Z) :
  snd (thread_start cfg ts l0 a image0 envs) = ProcessExits status ->
  status = -1 /\
  ddr_bw_target cfg = DDR_BW_AUTOTEST /\ core_id ts = core_first cfg /\
  (ddrmembw_init_rc a < 0 \/ ddr_bw_sum a = 0) /\
  (forall e, In e (fst (thread_start cfg ts l0 a image0 envs)) ->
             e = SetAffinity (core_id ts) \/ e = DdrInit \/ e = DdrMeasure
             \/ e = DdrDeinit).
Proof.
  unfold thread_start, autotest.
  destruct (ddr_bw_target cfg =? DDR_BW_AUTOTEST) eqn:Ht;
    destruct (core_id ts =? core_first cfg) eqn:Hc;
    destruct (ddrmembw_init_rc a <? 0) eqn:Hi;
    destruct (ddr_bw_sum a =? 0) eqn:Hs;
    try (destruct (tick_loop cfg l0 _ envs) as [evs r]);
    cbn [fst snd]; intros H; try discriminate H;
    injection H as <-;
    (split; [reflexivity|]); (split; [lia|]); (split; [lia|]);
    (split; [lia|]);
    intros e He; cbn [In app] in He; intuition auto.
Qed.

Lemma thread_start_exits_only_in_self_test_witness :
  -1 = -1 /\
  ddr_bw_target (mk_config 8 0 DDR_BW_AUTOTEST) = DDR_BW_AUTOTEST /\
  8 = 8 /\ (0 < 0 \/ 0 = 0).
Proof.
  pose proof (thread_start_exits_only_in_self_test
                (mk_config 8 0 DDR_BW_AUTOTEST)
                (mk_thread_state 8 [] 0 0 [] 0)
                (mk_locals [] [] 0 0 0 0) (mk_autotest_env 0 0)
                [1] [] (-1) eq_refl) as (H1 & H2 & H3 & H4 & _).
  exact (conj H1 (conj H2 (conj H3 H4))).
Defined.

Lemma tick_counts cfg l ts e :
  length (List.filter is_arrive (fst (tick cfg l ts e))) = 1%nat /\
  length (List.filter is_tuner (fst (tick cfg l ts e)))
  = if core_id ts =? core_first cfg then 1%nat else 0%nat.
Proof.
  unfold tick.
  pose proof (sample_phase_core_id cfg l ts e) as Hs.
  destruct (sample_phase cfg l ts e) as [l1 ts1]. cbn [snd] in Hs.
  unfold apply_phase, sync_phase. rewrite Hs.
  match goal with |- context [if ?c && ?d then _ else _] =>
    destruct (c && d) end;
    destruct (core_id ts =? core_first cfg);
    try destruct (CORE_IN_MODULE (core_id ts) (core_first cfg) =? 0);
    cbn; auto.
Qed.

(** A worker that returns has incremented [syncflag] once in each of its
    iterations; the tuner has been called once in each iteration of the
    worker on [core_first] and is never called by another worker. *)
Theorem tuner_called_once_per_iteration_by_primary (cfg : config)
    (ts : thread_state) (l0 : locals) (a : autotest_env)
    (image0 : msr_image) (envs : list tick_env) :
  snd (thread_start cfg ts l0 a image0 envs) = ThreadReturns ->
  length (List.filter is_arrive (fst (thread_start cfg ts l0 a image0 envs)))
  = length envs /\
  length (List.filter is_tuner (fst (thread_start cfg ts l0 a image0 envs)))
  = if core_id ts =? core_first cfg then length envs else 0%nat.
Proof.
  assert (forall envs l ts',
            core_id ts' = core_id ts ->
            length (List.filter is_arrive (fst (tick_loop cfg l ts' envs)))
            = length envs /\
            length (List.filter is_tuner (fst (tick_loop cfg l ts' envs)))
            = if core_id ts =? core_first cfg then length envs else 0%nat)
    as Hloop.
  { clear envs. induction envs as [|e envs IH]; intros l ts' Hid.
    - cbn. now destruct (core_id ts =? core_first cfg).
    - rewrite tick_loop_cons. cbn [fst].
      rewrite !List.filter_app, !length_app.
      destruct (tick_counts cfg l ts' e) as [-> ->].
      destruct (IH (fst (snd (tick cfg l ts' e)))
                  (snd (snd (tick cfg l ts' e)))
                  ltac:(now rewrite tick_core_id)) as [-> ->].
      rewrite Hid. cbn [length].
      now destruct (core_id ts =? core_first cfg). }
  unfold thread_start.
  assert (List.filter is_arrive (fst (autotest cfg ts a)) = []
          /\ List.filter is_tuner (fst (autotest cfg ts a)) = [])
    as [Ha1 Ha2].
  { unfold autotest.
    destruct (ddr_bw_target cfg =? DDR_BW_AUTOTEST); [|now split].
    destruct (core_id ts =? core_first cfg); [|now split].
    destruct (ddrmembw_init_rc a <? 0); [now split|].
    now destruct (ddr_bw_sum a =? 0). }
  destruct (autotest cfg ts a) as [ev_test [status|]]; [discriminate|].
  cbn [fst] in Ha1, Ha2.
  match goal with |- context [tick_loop cfg l0 ?t envs] =>
    destruct (Hloop envs l0 t eq_refl) as [H1 H2];
    destruct (tick_loop cfg l0 t envs) as [evs r] end.
  cbn [fst snd] in *. intros _.
  change (SetAffinity (core_id ts) :: ev_test ++ ?x)
    with ([SetAffinity (core_id ts)] ++ ev_test ++ x).
  rewrite !List.filter_app, !length_app, Ha1, Ha2, H1, H2.
  cbn [List.filter is_arrive is_tuner length Nat.add].
  split; [lia|]. destruct (core_id ts =? core_first cfg); lia.
Qed.

Lemma tuner_called_once_per_iteration_by_primary_witness :
  length
    (List.filter is_tuner
       (fst (thread_start (mk_config 8 0 46000)
               (mk_thread_state 8 [] 0 0 [] 0) (mk_locals [] [] 0 0 0 0)
               (mk_autotest_env 0 0) [1]
               [mk_tick_env [] 0 0 [2] 1 []; mk_tick_env [] 0 0 [2] 0 []])))
  = 2%nat.
Proof.
  exact (proj2 (tuner_called_once_per_iteration_by_primary
                  (mk_config 8 0 46000) (mk_thread_state 8 [] 0 0 [] 0)
                  (mk_locals [] [] 0 0 0 0) (mk_autotest_env 0 0) [1]
                  [mk_tick_env [] 0 0 [2] 1 []; mk_tick_env [] 0 0 [2] 0 []]
                  eq_refl)).
Defined.

End WorkerMore.

(** ** More on the rendezvous *)

Section BarrierMore.

Import Barrier BarrierAux.

Lemma run_app (sched1 sched2 : list action) :
  forall s,
    run (sched1 ++ sched2) s =
    match run sched1 s with
    | Some s1 => run sched2 s1
    | None => None
    end.
Proof.
  induction sched1 as [|a sched1 IH]; intros s; cbn [app run]; [reflexivity|].
  destruct (step a s); [apply IH | reflexivity].
Qed.

(** What a step of a worker other than worker 0, or the signal handler,
    leaves alone. *)
Lemma step_of_other_worker (k : nat) (a : action) (s s' : system) :
  inv k s -> Z.of_nat (S k) < 2 ^ 31 ->
  step a s = Some s' -> a <> Run 0 ->
  decisions s' = decisions s /\ releases s' = releases s /\
  0 <= syncflag s <= syncflag s'.
Proof.
  intros (Hsync & Hpend & Hall) Hk Hstep Ha.
  destruct a as [i|]; cbn [step] in Hstep;
    [|injection Hstep as <-; cbn; repeat split; lia].
  assert (i <> 0%nat) as Hi by congruence.
  unfold step_worker in Hstep.
  destruct (workers s !! i) as [w|] eqn:Hw; [|discriminate].
  pose proof (Hall i w Hw) as (_ & Hplace & _).
  unfold place_ok in Hplace.
  destruct (w_pc w) eqn:Hpc; try discriminate; try contradiction;
    injection Hstep as <-; cbn [decisions releases syncflag set_worker];
    repeat split; try lia.
  rewrite to_int_small; lia.
Qed.

(** Along every schedule (short of 2^31 steps) [syncflag] is never
    negative, and only worker 0 calls the tuner, releases, or lowers
    [syncflag]: a step of any other worker, or the signal handler, leaves
    the numbers of decisions and releases as they are and does not lower
    it. *)
Theorem only_worker_0_decides_and_releases (n : nat)
    (sched : list action) (s s' : system) (a : action) :
  Z.of_nat (S (length sched)) < 2 ^ 31 ->
  run sched (init n) = Some s ->
  step a s = Some s' -> a <> Run 0 ->
  decisions s' = decisions s /\ releases s' = releases s /\
  0 <= syncflag s <= syncflag s'.
Proof.
  intros Hlen Hrun Hstep Ha.
  apply (step_of_other_worker (length sched) a); try assumption.
  apply (run_inv sched n); [lia | exact Hrun].
Qed.

Lemma only_worker_0_decides_and_releases_witness :
  decisions
    (mk_system 3 0
       [mk_worker AtRelease 1 1 0 0; mk_worker AtTop 2 2 2 0;
        mk_worker AtTop 0 0 0 0] 1 0 3)
  = decisions racy_state.
Proof.
  refine (proj1 (only_worker_0_decides_and_releases 3 racy_schedule
                   racy_state _ (Run 1) _ run_racy_schedule eq_refl _));
    [vm_compute; reflexivity | discriminate].
Defined.

Lemma step_shape_inv (a : action) (s s' : system) :
  shape_inv s -> step a s = Some s' -> shape_inv s'.
Proof.
  intros Hall Hstep.
  destruct a as [i|]; cbn [step] in Hstep.
  2:{ injection Hstep as <-. intros k w Hk. cbn [workers quitflag] in *.
      split; [apply (Hall k w Hk) | discriminate]. }
  unfold step_worker in Hstep.
  destruct (workers s !! i) as [wi|] eqn:Hwi; [|discriminate].
  pose proof (Hall i wi Hwi) as [Hplace _].
  unfold place_ok in Hplace.
  destruct (w_pc wi) eqn:Hpc; try discriminate; injection Hstep as <-;
    intros k w Hk; cbn [workers quitflag set_worker] in *;
    (apply list_lookup_insert_Some in Hk as [(<- & <- & _) | (Hne & Hk)];
     [|exact (Hall k w Hk)]);
    unfold place_ok; cbn [w_pc at_pc].
  - destruct (quitflag s =? 0) eqn:Hq; split; try exact I;
      try discriminate. intros _. lia.
  - split; [exact I | discriminate].
  - unfold is_primary. destruct i as [|i]; cbn [Nat.eqb].
    + split; [reflexivity | discriminate].
    + destruct (is_lead (S i)) eqn:Hlead; split; try discriminate;
        try exact I. split; [discriminate | reflexivity].
  - destruct (syncflag s <? ACTIVE_THREADS s); split; try discriminate;
      exact Hplace.
  - split; [exact Hplace | discriminate].
  - split; [exact I | discriminate].
  - destruct (syncflag s =? 0); split; try discriminate;
      [exact I | exact Hplace].
  - split; [exact I | discriminate].
Qed.

Lemma run_shape_inv (sched : list action) :
  forall n s, run sched (init n) = Some s -> shape_inv s.
Proof.
  induction sched as [|a sched IH] using rev_ind; intros n s Hrun.
  - injection Hrun as <-. intros i w Hw. unfold init in Hw.
    cbn [workers] in Hw. apply lookup_replicate in Hw as [-> _].
    split; [exact I | discriminate].
  - apply run_snoc in Hrun as (s1 & Hrun & Hstep).
    exact (step_shape_inv a s1 s (IH n s1 Hrun) Hstep).
Qed.

Lemma sum_with_insert (f : worker -> nat) (l : list worker) :
  forall (i : nat) (w w' : worker),
    l !! i = Some w ->
    (sum_list_with f (<[i := w']> l) + f w
     = sum_list_with f l + f w')%nat.
Proof.
  induction l as [|x l IH]; intros i w w' Hi; [discriminate|].
  destruct i as [|i].
  - injection Hi as ->. cbn. lia.
  - change ((x :: l) !! S i) with (l !! i) in Hi.
    change (<[S i := w']> (x :: l)) with (x :: <[i := w']> l).
    cbn [sum_list_with]. specialize (IH i w w' Hi). lia.
Qed.

Lemma arrivals_left_bound (s : system) :
  (arrivals_left s <= length (workers s))%nat.
Proof.
  unfold arrivals_left.
  induction (workers s) as [|w l IH]; cbn [sum_list_with length]; [lia|].
  assert (may_arrive w <= 1)%nat
    by (unfold may_arrive; destruct (w_pc w); lia).
  lia.
Qed.

(** Once worker 0 has left, a step leaves worker [j] in its wait: the
    only store of 0 in [syncflag] is worker 0's, and each of the others
    increments it at most once more before it leaves the loop in turn. *)
Lemma step_stuck (bound : Z) (j : nat) (a : action) (s s' : system) :
  bound < 2 ^ 31 ->
  stuck bound j s -> step a s = Some s' -> stuck bound j s'.
Proof.
  intros Hb (Hshape & Hquit & (w0 & H0 & Hdone) & (w & Hj & Hwait)
             & Hpos & Hsum) Hstep.
  pose proof (step_shape_inv a s s' Hshape Hstep) as Hshape'.
  unfold stuck. split; [exact Hshape'|]. clear Hshape'.
  destruct a as [i|]; cbn [step] in Hstep.
  2:{ injection Hstep as <-. unfold arrivals_left in *.
      cbn [workers quitflag syncflag]. eauto 10 with lia. }
  unfold step_worker in Hstep.
  destruct (workers s !! i) as [wi|] eqn:Hwi; [|discriminate].
  pose proof (Hshape i wi Hwi) as [Hplace _]. unfold place_ok in Hplace.
  assert (i <> 0%nat) as Hi.
  { intros ->. assert (wi = w0) as -> by congruence.
    rewrite Hdone in Hstep. discriminate. }
  unfold arrivals_left in *.
  destruct (Nat.eq_dec i j) as [->|Hij].
  - assert (wi = w) as -> by congruence. rewrite Hwait in Hstep.
    replace (syncflag s =? 0) with false in Hstep by (symmetry; lia).
    injection Hstep as <-. cbn [workers quitflag syncflag set_worker].
    pose proof (sum_with_insert may_arrive (workers s) j w
                  (at_pc w AtWaitRelease) Hj) as Hins.
    assert (may_arrive w = 0%nat) as Hm
      by (unfold may_arrive; now rewrite Hwait).
    change (may_arrive (at_pc w AtWaitRelease)) with 0%nat in Hins.
    rewrite Hm in Hins.
    split; [exact Hquit|]. split.
    { exists w0. rewrite list_lookup_insert_ne by congruence. auto. }
    split.
    { exists (at_pc w AtWaitRelease).
      rewrite list_lookup_insert_eq by (now apply lookup_lt_Some in Hj).
      auto. }
    split; [exact Hpos | lia].
  - assert (may_arrive wi = match w_pc wi with
                             | AtSample | AtArrive => 1%nat
                             | _ => 0%nat
                             end) as Hm by reflexivity.
    destruct (w_pc wi) eqn:Hpc; try discriminate; try contradiction;
      injection Hstep as <-;
      cbn [workers quitflag syncflag set_worker];
      match goal with
      | |- context [<[i := ?w']> (workers s)] =>
          pose proof (sum_with_insert may_arrive (workers s) i wi w' Hwi)
            as Hins
      end;
      rewrite Hm in Hins;
      (split; [exact Hquit|]);
      (split; [exists w0; rewrite list_lookup_insert_ne by congruence;
               auto|]);
      (split; [exists w; rewrite list_lookup_insert_ne by congruence;
               auto|]).
    + replace (quitflag s =? 0) with false in * by (symmetry; lia).
      change (may_arrive (at_pc wi AtDone)) with 0%nat in Hins.
      split; [exact Hpos | lia].
    + change (may_arrive (mk_worker AtArrive _ _ _ _)) with 1%nat in Hins.
      split; [exact Hpos | lia].
    + match type of Hins with
      | context [may_arrive ?w'] =>
          assert (may_arrive w' = 0%nat) as Hnext
            by (unfold may_arrive; cbn [w_pc];
                destruct (is_primary i), (is_lead i); reflexivity);
          rewrite Hnext in Hins
      end.
      rewrite to_int_small by lia. split; lia.
    + destruct (syncflag s =? 0);
        match type of Hins with
        | context [may_arrive (at_pc wi ?p)] =>
            change (may_arrive (at_pc wi p)) with 0%nat in Hins
        end;
        (split; [exact Hpos | lia]).
    + change (may_arrive (mk_worker AtTop _ _ _ _)) with 0%nat in Hins.
      split; [exact Hpos | lia].
Qed.

Lemma run_stuck (bound : Z) (j : nat) (sched : list action) :
  bound < 2 ^ 31 ->
  forall s s', stuck bound j s -> run sched s = Some s' -> stuck bound j s'.
Proof.
  intros Hb. induction sched as [|a sched IH]; intros s s' Hs Hrun.
  - now injection Hrun as <-.
  - cbn [run] in Hrun.
    destruct (step a s) as [s1|] eqn:Hstep; [|discriminate].
    exact (IH s1 s' (step_stuck bound j a s s1 Hb Hs Hstep) Hrun).
Qed.

(** Once worker 0 has left the loop nobody stores 0 in [syncflag] any
    more.  In a state the workers can reach in which worker 0 has left, a
    module lead is waiting for the release and [syncflag] is positive and
    more than the number of workers away from the top of the [int] range,
    the lead is still waiting, and [syncflag] still positive, after every
    continuation, however long, for as long as the process lives. *)
Theorem lead_waits_forever_after_primary_left (n : nat)
    (before sched : list action) (s s' : system) (j : nat)
    (w0 w : worker) :
  run before (init n) = Some s ->
  workers s !! 0%nat = Some w0 -> w_pc w0 = AtDone ->
  workers s !! j = Some w -> w_pc w = AtWaitRelease ->
  0 < syncflag s ->
  syncflag s + Z.of_nat n < 2 ^ 31 ->
  run sched s = Some s' ->
  exists w', workers s' !! j = Some w' /\ w_pc w' = AtWaitRelease
             /\ 0 < syncflag s'.
Proof.
  intros Hbefore H0 Hdone Hj Hwait Hpos Hroom Hrun.
  pose proof (run_shape_inv before n s Hbefore) as Hshape.
  pose proof (run_length _ _ _ Hbefore) as Hn.
  unfold init in Hn. cbn [workers] in Hn. rewrite length_replicate in Hn.
  pose proof (arrivals_left_bound s) as Hleft.
  assert (stuck (syncflag s + Z.of_nat n) j s) as Hs.
  { unfold stuck. split; [exact Hshape|].
    split; [exact (proj2 (Hshape 0%nat w0 H0) Hdone)|].
    split; [eauto|]. split; [eauto|]. split; [exact Hpos | lia]. }
  destruct (run_stuck _ j sched Hroom s s' Hs Hrun)
    as (_ & _ & _ & (w' & Hj' & Hwait') & Hpos' & _).
  eauto.
Qed.

Lemma run_stuck_schedule : run stuck_schedule (init 5) = Some stuck_state.
Proof. vm_compute. reflexivity. Defined.

Lemma lead_waits_forever_after_primary_left_witness :
  exists w',
    workers stuck_later !! 4%nat = Some w'
    /\ w_pc w' = AtWaitRelease /\ 0 < syncflag stuck_later.
Proof.
  refine (lead_waits_forever_after_primary_left 5 stuck_schedule
            stuck_continuation stuck_state stuck_later 4%nat
            (mk_worker AtDone 0 0 0 0) (mk_worker AtWaitRelease 1 1 0 0)
            run_stuck_schedule eq_refl eq_refl eq_refl eq_refl _ _ _);
    [reflexivity | vm_compute; reflexivity | vm_compute; reflexivity].
Defined.

(** *** With one or two workers the decision follows every sample *)

Ltac open_local_inv :=
  unfold local_inv, counters_ok, place_ok, counted_ok, lead_ok, primary_ok
    in *;
  cbn [w_pc sampled arrived applied rel_seen syncflag quitflag workers
       decisions releases pending] in *.

Lemma sum_arrived_insert (l : list worker) :
  forall (i : nat) (w w' : worker),
    l !! i = Some w ->
    (sum_list_with arrived (<[i := w']> l) + arrived w
     = sum_list_with arrived l + arrived w')%nat.
Proof.
  induction l as [|x l IH]; intros i w w' Hi; [discriminate|].
  destruct i as [|i].
  - injection Hi as ->. cbn. lia.
  - change ((x :: l) !! S i) with (l !! i) in Hi.
    change (<[S i := w']> (x :: l)) with (x :: <[i := w']> l).
    cbn [sum_list_with]. specialize (IH i w w' Hi). lia.
Qed.

Lemma sum_arrived_init (n : nat) :
  sum_list_with arrived (replicate n (mk_worker AtTop 0 0 0 0)) = 0%nat.
Proof. induction n as [|n IH]; cbn; [reflexivity | exact IH]. Qed.

Lemma step_release_inv (k : nat) (a : action) (s s' : system) :
  inv k s -> release_inv s -> step a s = Some s' -> release_inv s'.
Proof.
  intros (Hsync & Hpend & Hall) (Htot & Hwait) Hstep.
  unfold release_inv, total_arrived in *.
  destruct a as [i|]; cbn [step] in Hstep;
    [|injection Hstep as <-; cbn [workers releases pending]; auto].
  unfold step_worker in Hstep.
  destruct (workers s !! i) as [w|] eqn:Hw; [|discriminate].
  pose proof (Hall i w Hw) as (_ & Hplace & _ & _ & Hprim).
  unfold place_ok, primary_ok in Hplace, Hprim.
  destruct (w_pc w) eqn:Hpc; try discriminate; injection Hstep as <-;
    cbn [workers releases pending set_worker]; rewrite ?length_insert;
    match goal with
    | |- context [<[i := ?w']> (workers s)] =>
        pose proof (sum_arrived_insert (workers s) i w w' Hw) as Hsum
    end;
    cbn [arrived at_pc] in Hsum;
    (split;
     [try lia; try (destruct (Hprim Hplace) as (_ & _ & Hn); nia)
     |intros w0 H0 Hpc0;
      apply list_lookup_insert_Some in H0 as [(-> & <- & _) | (Hne & H0)];
      [cbn [w_pc at_pc] in Hpc0; try discriminate Hpc0;
       try (destruct Hplace; congruence);
       try (destruct (quitflag s =? 0); discriminate Hpc0);
       try (specialize (Hwait w Hw Hpc)); try lia
      |specialize (Hwait w0 H0 Hpc0); try lia;
       try (exfalso; apply Hne; exact Hplace)]]).
Qed.

Lemma run_release_inv (sched : list action) :
  forall n s,
    Z.of_nat (length sched) < 2 ^ 31 ->
    run sched (init n) = Some s -> release_inv s.
Proof.
  induction sched as [|a sched IH] using rev_ind; intros n s Hlen Hrun.
  - injection Hrun as <-. unfold release_inv, total_arrived, init.
    cbn [workers releases pending]. rewrite sum_arrived_init.
    split; [lia|]. intros w0 H0 Hpc.
    apply lookup_replicate in H0 as [-> _]. discriminate.
  - rewrite length_app in Hlen. cbn [length] in Hlen.
    apply run_snoc in Hrun as (s1 & Hrun & Hstep).
    apply (step_release_inv (length sched) a s1);
      [apply (run_inv sched n); [lia | exact Hrun]
      |apply (IH n); [lia | exact Hrun]
      |exact Hstep].
Qed.

(** With one or two workers the rendezvous does what it is meant to:
    along every schedule (short of 2^31 steps), when the tuner has been
    called [k] times every worker has completed [k] sample phases.  Three
    workers are the fewest for which this fails. *)
Theorem two_workers_sample_before_decision (n : nat)
    (sched : list action) (s : system) :
  (n <= 2)%nat ->
  Z.of_nat (length sched) < 2 ^ 31 ->
  run sched (init n) = Some s ->
  samples_before_decision s.
Proof.
  intros Hn Hlen Hrun.
  pose proof (run_length _ _ _ Hrun) as Hl.
  unfold init in Hl. cbn [workers] in Hl. rewrite length_replicate in Hl.
  destruct (run_inv sched n s Hlen Hrun) as (_ & _ & Hall).
  destruct (run_release_inv sched n s Hlen Hrun) as (Htot & Hwait).
  unfold total_arrived in Htot. rewrite Hl in Htot.
  unfold samples_before_decision.
  destruct (workers s) as [|w0 [|w1 [|w2 ws]]] eqn:Hws; cbn [length] in Hl.
  - intros i w Hi. destruct i; discriminate.
  - pose proof (Hall 0%nat w0 eq_refl) as H0.
    intros [|i] w Hi; [|destruct i; discriminate].
    injection Hi as <-. open_local_inv. rewrite Hws in H0.
    destruct (w_pc w0); intuition lia.
  - pose proof (Hall 0%nat w0 eq_refl) as H0.
    pose proof (Hall 1%nat w1 eq_refl) as H1.
    specialize (Hwait w0 eq_refl).
    cbn [sum_list_with] in Htot.
    assert (arrived w1 <= sampled w1)%nat as Hs1.
    { open_local_inv. destruct (w_pc w1); intuition lia. }
    assert (decisions s <= arrived w0 /\ decisions s <= arrived w1)%nat
      as [Hd0 Hd1].
    { open_local_inv. rewrite Hws in H0. subst n. cbn [length] in H0.
      destruct (w_pc w0); intuition (try discriminate; try nia). }
    assert (arrived w0 <= sampled w0)%nat as Hs0.
    { open_local_inv. destruct (w_pc w0); intuition lia. }
    intros [|[|i]] w Hi; [| |destruct i; discriminate];
      injection Hi as <-; lia.
  - lia.
Qed.

Lemma run_pair_schedule : run pair_schedule (init 2) = Some pair_state.
Proof. vm_compute. reflexivity. Defined.

Lemma two_workers_sample_before_decision_witness :
  samples_before_decision pair_state.
Proof.
  refine (two_workers_sample_before_decision 2 pair_schedule pair_state
            _ _ run_pair_schedule); [lia | vm_compute; reflexivity].
Defined.

End BarrierMore.

(** ** More on the pseudo-file *)

Section ProcFileMore.

Import ProcFile.

Variable MAX_MSG_SIZE : Z.
Variable MAX_NUM_CORES : nat.
Variable DPF_API_VERSION : Z.
Variable MSR_1320_INDEX : nat.
Variable resp_sizeof : response -> Z.
Variable msr_load : core -> core.
Variable pmu_update : core -> core.
Variable core_in_module : nat -> Z.
Variable cpu_online : nat -> bool.

Abbreviation dispatch' :=
  (dispatch MAX_NUM_CORES DPF_API_VERSION MSR_1320_INDEX resp_sizeof
     msr_load pmu_update core_in_module cpu_online).
Abbreviation write' :=
  (dpf_proc_write MAX_MSG_SIZE MAX_NUM_CORES DPF_API_VERSION MSR_1320_INDEX
     resp_sizeof msr_load pmu_update core_in_module cpu_online).

(** A read hands over the whole response or nothing: it returns 0 without
    data (at a position past 0, without a response, or with a buffer too
    small for it), [-EFAULT] when the copy fails, or the size of the
    response with all of it.  After a read that delivered a response of
    positive size, a read at the position it left returns 0. *)
Theorem proc_read_all_or_nothing (count pos : Z) (copy_ok : bool)
    (s : kstate) :
  (proc_read count pos copy_ok s = (0, None, pos) \/
   proc_read count pos copy_ok s = (- EFAULT, None, pos) /\ copy_ok = false \/
   exists r,
     proc_buffer s = Some r /\ pos <= 0 /\ proc_buffer_size s <= count /\
     proc_read count pos copy_ok s
     = (proc_buffer_size s, Some r, proc_buffer_size s)) /\
  (forall r p,
     proc_read count pos copy_ok s = (proc_buffer_size s, Some r, p) ->
     0 < proc_buffer_size s ->
     forall count' ok', proc_read count' p ok' s = (0, None, p)).
Proof.
  unfold proc_read. destruct (proc_buffer s) as [r|] eqn:Hb.
  - destruct (0 <? pos) eqn:Hp; cbn [orb].
    + split; [now left|]. intros r' p [=].
    + destruct (count <? proc_buffer_size s) eqn:Hc.
      * split; [now left|]. intros r' p [=].
      * destruct copy_ok; cbn [negb].
        -- split; [right; right; exists r; repeat split; lia|].
           intros r' p [= <- <-] Hsize count' ok'.
           now replace (0 <? proc_buffer_size s) with true by (symmetry; lia).
        -- split; [right; left; now split|]. intros r' p [=].
  - split; [now left|]. intros r' p [=].
Qed.

Lemma proc_read_all_or_nothing_witness :
  proc_read 64 16 true (snd (demo_write 8 ReqInit demo_loaded))
  = (0, None, 16).
Proof.
  exact (proj2 (proc_read_all_or_nothing 64 0 true
                  (snd (demo_write 8 ReqInit demo_loaded)))
           (RespInit 1) 16 eq_refl eq_refl 64 true).
Defined.

(** What a handler that fails leaves behind: the state it was given. *)
Lemma dispatch_failure (ok : bool) (req : request) (s : kstate) :
  fst (dispatch' ok req s) < 0 -> snd (dispatch' ok req s) = s.
Proof.
  destruct req; cbn [ProcFile.dispatch];
    unfold handle_init, handle_core_range, handle_core_weight,
      handle_tuning, handle_ddrbw_set, handle_pmu_read, handle_msr_read;
    try (destruct (readable_core _ _ _));
    try (destruct ok; cbn [negb]); cbn [fst snd];
    intros H; try reflexivity; exfalso; lia.
Qed.

Lemma write_failure_frame (count : Z) (req : request)
    (sv : services) (s : kstate) :
  fst (write' count req sv s) < 0 ->
  keep_running (snd (write' count req sv s)) = keep_running s /\
  corestate (snd (write' count req sv s)) = corestate s /\
  ddr_bw_target (snd (write' count req sv s)) = ddr_bw_target s.
Proof.
  unfold ProcFile.dpf_proc_write.
  destruct ((count <? HEADER_SIZE) || (MAX_MSG_SIZE <? count)) eqn:Hc;
    [now intros _|].
  set (s1 := match proc_buffer s with
             | Some _ => mk_kstate None 0 (keep_running s) (corestate s)
                           (ddr_bw_target s)
             | None => s
             end).
  assert (keep_running s1 = keep_running s /\ corestate s1 = corestate s
          /\ ddr_bw_target s1 = ddr_bw_target s) as Hs1.
  { subst s1. now destruct (proc_buffer s). }
  clearbody s1.
  destruct (copy_header_ok sv), (alloc_msg_ok sv), (copy_msg_ok sv);
    cbn [negb fst snd]; try (intros _; exact Hs1).
  pose proof (dispatch_failure (alloc_resp_ok sv) req s1) as Hd.
  destruct (dispatch' (alloc_resp_ok sv) req s1) as [ret s2].
  cbn [fst snd] in *.
  destruct (ret <? 0) eqn:Hr; cbn [fst snd].
  - intros _. rewrite Hd by lia. exact Hs1.
  - apply orb_false_iff in Hc as [Hc1 Hc2]. unfold HEADER_SIZE in *. lia.
Qed.

Lemma dispatch_target_and_monitoring (ok : bool) (req : request)
    (s : kstate) :
  let ret := fst (dispatch' ok req s) in
  let s' := snd (dispatch' ok req s) in
  (ret < 0 \/ ret = 0) /\
  ddr_bw_target s'
    = match req with
      | ReqDdrbwSet v => if ret <? 0 then ddr_bw_target s else v
      | _ => ddr_bw_target s
      end /\
  keep_running s'
    = match req with
      | ReqTuning enable => if ret <? 0 then keep_running s else enable =? 1
      | _ => keep_running s
      end.
Proof.
  destruct req; cbn [ProcFile.dispatch];
    unfold handle_init, handle_core_range, handle_core_weight,
      handle_tuning, handle_ddrbw_set, handle_pmu_read, handle_msr_read,
      EINVAL, ENOMEM;
    try (destruct (readable_core _ _ _));
    try (destruct ok; cbn [negb]); cbn [fst snd Z.opp Z.ltb Z.compare];
    unfold publish, set_corestate; cbn [keep_running ddr_bw_target];
    try (repeat split; (lia || reflexivity)).
  destruct (enable =? 1); cbn [keep_running ddr_bw_target];
    repeat split; (lia || reflexivity).
Qed.

(** A write that fails has no effect but on the stored response: the
    monitoring flag, the per-core state and the bandwidth target are as
    before. *)
Theorem failed_write_changes_only_response (count : Z) (req : request)
    (sv : services) (s : kstate) :
  fst (write' count req sv s) < 0 ->
  keep_running (snd (write' count req sv s)) = keep_running s /\
  corestate (snd (write' count req sv s)) = corestate s /\
  ddr_bw_target (snd (write' count req sv s)) = ddr_bw_target s.
Proof. apply write_failure_frame. Qed.

(** A write changes the bandwidth target only when it is a DDRBW_SET
    request that succeeds, and then to the value requested; and it changes
    the monitoring flag only when it is a TUNING request that succeeds:
    monitoring is then on exactly when [enable] is 1. *)
Theorem write_sets_target_and_monitoring (count : Z) (req : request)
    (sv : services) (s : kstate) :
  let ret := fst (write' count req sv s) in
  let s' := snd (write' count req sv s) in
  ddr_bw_target s'
    = match req with
      | ReqDdrbwSet v => if ret <? 0 then ddr_bw_target s else v
      | _ => ddr_bw_target s
      end /\
  keep_running s'
    = match req with
      | ReqTuning enable => if ret <? 0 then keep_running s else enable =? 1
      | _ => keep_running s
      end.
Proof.
  intros ret s'.
  destruct (Z_lt_le_dec ret 0) as [Hneg|Hpos].
  - destruct (write_failure_frame count req sv s Hneg) as (Hk & _ & Ht).
    subst ret s'. replace (fst (write' count req sv s) <? 0) with true
      by (symmetry; lia).
    rewrite Hk, Ht. now destruct req.
  - subst ret s'. revert Hpos. unfold ProcFile.dpf_proc_write.
    destruct ((count <? HEADER_SIZE) || (MAX_MSG_SIZE <? count)) eqn:Hc;
      [cbn [fst]; unfold EINVAL; lia|].
    apply orb_false_iff in Hc as [Hc1 _]. unfold HEADER_SIZE in Hc1.
    set (s1 := match proc_buffer s with
               | Some _ => mk_kstate None 0 (keep_running s) (corestate s)
                             (ddr_bw_target s)
               | None => s
               end).
    assert (keep_running s1 = keep_running s
            /\ ddr_bw_target s1 = ddr_bw_target s) as [Hk Ht].
    { subst s1. now destruct (proc_buffer s). }
    clearbody s1.
    destruct (copy_header_ok sv), (alloc_msg_ok sv), (copy_msg_ok sv);
      cbn [negb fst snd]; unfold EFAULT, ENOMEM; try lia.
    pose proof (dispatch_target_and_monitoring (alloc_resp_ok sv) req s1)
      as (Hret & Htar & Hrun).
    destruct (dispatch' (alloc_resp_ok sv) req s1) as [r2 s2].
    cbn [fst snd] in *.
    destruct (r2 <? 0) eqn:Hr; cbn [fst snd]; [lia|].
    intros _. replace (count <? 0) with false by (symmetry; lia).
    rewrite Htar, Hrun, Hk, Ht. split; reflexivity.
Qed.

Lemma lookup_map_core (f : core -> core) (l : list core) :
  forall i, map f l !! i = option_map f (l !! i).
Proof.
  induction l as [|c l IH]; intros [|i]; try reflexivity. apply IH.
Qed.

Lemma readable_core_iff (i : nat) (s : kstate) :
  (exists c, readable_core MAX_NUM_CORES i s = Some c) <->
  (i < MAX_NUM_CORES)%nat /\
  exists c, corestate s !! i = Some c /\ core_disabled c = false.
Proof.
  unfold readable_core.
  destruct (MAX_NUM_CORES <=? i)%nat eqn:Hm.
  - apply Nat.leb_le in Hm. split; [intros [c [=]] | intros [H _]; lia].
  - apply Nat.leb_gt in Hm.
    destruct (corestate s !! i) as [c|].
    + destruct (core_disabled c) eqn:Hd.
      * split; [intros [c' [=]]|].
        intros (_ & c' & [= <-] & Hd'). congruence.
      * split; [intros _; split; [lia | eauto]|eauto].
    + split; [intros [c' [=]]|]. intros (_ & c' & [=] & _).
Qed.

(** A read request (PMU_READ or MSR_READ) for a core is answered exactly
    when the core is below [MAX_NUM_CORES] and enabled; otherwise the
    write returns [-EINVAL], or the error of the service that failed
    before the handler ran. *)
Lemma read_request_outcome (count : Z) (i : nat) (s : kstate) :
  HEADER_SIZE <= count <= MAX_MSG_SIZE ->
  forall req, req = ReqPmuRead i \/ req = ReqMsrRead i ->
  fst (write' count req demo_services s)
  = match readable_core MAX_NUM_CORES i s with
    | Some _ => count
    | None => - EINVAL
    end.
Proof.
  intros Hc req Hreq. unfold ProcFile.dpf_proc_write.
  replace ((count <? HEADER_SIZE) || (MAX_MSG_SIZE <? count)) with false
    by (symmetry; apply orb_false_iff; lia).
  cbn [demo_services copy_header_ok alloc_msg_ok copy_msg_ok alloc_resp_ok
       negb].
  set (s1 := match proc_buffer s with
             | Some _ => mk_kstate None 0 (keep_running s) (corestate s)
                           (ddr_bw_target s)
             | None => s
             end).
  assert (readable_core MAX_NUM_CORES i s1 = readable_core MAX_NUM_CORES i s)
    as Hr.
  { subst s1. now destruct (proc_buffer s). }
  clearbody s1.
  destruct Hreq as [-> | ->]; cbn [ProcFile.dispatch];
    unfold handle_pmu_read, handle_msr_read; rewrite Hr;
    destruct (readable_core MAX_NUM_CORES i s); cbn [negb fst snd];
    unfold EINVAL; cbn [Z.opp Z.ltb Z.compare]; [|reflexivity| |reflexivity].
  all: unfold HEADER_SIZE in Hc;
       now replace (0 <? 0) with false by reflexivity.
Qed.

Lemma read_request_refused (count : Z) (i : nat) (s : kstate) :
  HEADER_SIZE <= count <= MAX_MSG_SIZE ->
  forall req, req = ReqPmuRead i \/ req = ReqMsrRead i ->
  readable_core MAX_NUM_CORES i s = None ->
  proc_buffer (snd (write' count req demo_services s)) = None.
Proof.
  intros Hc req Hreq Hnone. unfold ProcFile.dpf_proc_write.
  replace ((count <? HEADER_SIZE) || (MAX_MSG_SIZE <? count)) with false
    by (symmetry; apply orb_false_iff; lia).
  cbn [demo_services copy_header_ok alloc_msg_ok copy_msg_ok alloc_resp_ok
       negb].
  set (s1 := match proc_buffer s with
             | Some _ => mk_kstate None 0 (keep_running s) (corestate s)
                           (ddr_bw_target s)
             | None => s
             end).
  assert (readable_core MAX_NUM_CORES i s1 = None /\ proc_buffer s1 = None)
    as [Hr Hb].
  { subst s1. destruct (proc_buffer s) eqn:Hp; [|now split].
    split; [exact Hnone | reflexivity]. }
  clearbody s1.
  destruct Hreq as [-> | ->]; cbn [ProcFile.dispatch];
    unfold handle_pmu_read, handle_msr_read; rewrite Hr; exact Hb.
Qed.

(** The loop of [dpf_module_init] runs to [MAX_CORES]; a message is read
    through the request structure of its type, of [req_sizeof] bytes. *)
Variable MAX_CORES : nat.
Variable req_sizeof : request -> Z.

(** Read requests follow the core range.  The messages are long enough to
    hold their request structures.  When the module has just been loaded,
    a read request for a core below [MAX_CORES] is refused with [-EINVAL]
    and leaves no response, and one for a core from [MAX_CORES] on is
    answered exactly when the core is below [MAX_NUM_CORES] and its entry
    in the static table was not disabled.  After a CORE_RANGE request for
    [a .. b] the read request for a core [i] of the table is answered
    exactly when [a <= i <= b] and [i < MAX_NUM_CORES], and refused with
    [-EINVAL] otherwise. *)
Theorem read_requests_follow_core_range (count : Z) (cs : list core)
    (target a b : Z) (i : nat) (req : request) :
  HEADER_SIZE <= count <= MAX_MSG_SIZE ->
  req = ReqPmuRead i \/ req = ReqMsrRead i ->
  req_sizeof req <= count ->
  req_sizeof (ReqCoreRange a b) <= count ->
  (i < length cs)%nat ->
  let loaded := module_state MAX_CORES cs target in
  let ranged := snd (write' count (ReqCoreRange a b) demo_services loaded) in
  ((i < MAX_CORES)%nat ->
     fst (write' count req demo_services loaded) = - EINVAL /\
     proc_buffer (snd (write' count req demo_services loaded)) = None) /\
  ((MAX_CORES <= i)%nat ->
     (fst (write' count req demo_services loaded) = count
      <-> (i < MAX_NUM_CORES)%nat /\
          exists c, cs !! i = Some c /\ core_disabled c = false)) /\
  (fst (write' count req demo_services ranged) = count
   <-> a <= Z.of_nat i <= b /\ (i < MAX_NUM_CORES)%nat) /\
  (fst (write' count req demo_services ranged) = count \/
   fst (write' count req demo_services ranged) = - EINVAL).
Proof.
  intros Hc Hreq _ _ Hi loaded ranged.
  destruct (lookup_lt_is_Some_2 cs i Hi) as [c0 Hc0].
  assert (count <> - EINVAL) as Hne by (unfold HEADER_SIZE, EINVAL in *; lia).
  assert (corestate loaded !! i
          = Some (if (i <? MAX_CORES)%nat
                  then mk_core true (pf_msr c0) (pmu_result c0) else c0))
    as Hli.
  { subst loaded. unfold module_state. cbn [corestate].
    rewrite list_lookup_imap, Hc0. reflexivity. }
  split; [|split; [|split]].
  - intros Hlt.
    assert (readable_core MAX_NUM_CORES i loaded = None) as Hloaded.
    { destruct (readable_core MAX_NUM_CORES i loaded) as [c|] eqn:Hr;
        [|reflexivity].
      destruct (proj1 (readable_core_iff i loaded) (ex_intro _ c Hr))
        as (_ & c' & Hl & Hd).
      rewrite Hli in Hl.
      replace (i <? MAX_CORES)%nat with true in Hl
        by (symmetry; apply Nat.ltb_lt; lia).
      injection Hl as <-. discriminate Hd. }
    split.
    + rewrite (read_request_outcome count i loaded Hc req Hreq).
      now rewrite Hloaded.
    + now apply (read_request_refused count i loaded Hc req Hreq).
  - intros Hge.
    rewrite (read_request_outcome count i loaded Hc req Hreq).
    assert ((exists c, readable_core MAX_NUM_CORES i loaded = Some c)
            <-> (i < MAX_NUM_CORES)%nat /\
                exists c, cs !! i = Some c /\ core_disabled c = false)
      as Hiff.
    { rewrite readable_core_iff, Hli, Hc0.
      replace (i <? MAX_CORES)%nat with false
        by (symmetry; apply Nat.ltb_ge; lia).
      reflexivity. }
    destruct (readable_core MAX_NUM_CORES i loaded) as [c|] eqn:Hr.
    + split; [intros _; apply Hiff; eauto | reflexivity].
    + split; [intros H; congruence|].
      intros H. apply Hiff in H as [c [=]].
  - rewrite (read_request_outcome count i ranged Hc req Hreq).
    assert ((exists c, readable_core MAX_NUM_CORES i ranged = Some c)
            <-> a <= Z.of_nat i <= b /\ (i < MAX_NUM_CORES)%nat) as Hiff.
    { rewrite readable_core_iff.
      subst ranged. unfold ProcFile.dpf_proc_write.
      replace ((count <? HEADER_SIZE) || (MAX_MSG_SIZE <? count)) with false
        by (symmetry; apply orb_false_iff; lia).
      cbn [demo_services copy_header_ok alloc_msg_ok copy_msg_ok
           alloc_resp_ok negb ProcFile.dispatch handle_core_range].
      set (s1 := match proc_buffer loaded with
                 | Some _ => mk_kstate None 0 (keep_running loaded)
                               (corestate loaded) (ddr_bw_target loaded)
                 | None => loaded
                 end).
      assert (corestate s1 = corestate loaded) as Hs1
        by (subst s1; now destruct (proc_buffer loaded)).
      match goal with
      | |- context [if ?r <? 0 then _ else _] => change r with 0
      end.
      cbn [Z.ltb Z.compare snd publish set_corestate corestate].
      rewrite list_lookup_imap, Hs1, Hli.
      cbn [fmap option_fmap option_map].
      split.
      - intros (Hm & c & [= <-] & Hd). revert Hd.
        replace (i <? MAX_NUM_CORES)%nat with true
          by (symmetry; apply Nat.ltb_lt; lia).
        cbn [core_disabled]. intros Hd.
        apply orb_false_iff in Hd as [H1 H2]. lia.
      - intros (Hab & Hm). split; [exact Hm|].
        eexists. split; [reflexivity|].
        replace (i <? MAX_NUM_CORES)%nat with true
          by (symmetry; apply Nat.ltb_lt; lia).
        cbn [core_disabled]. apply orb_false_iff. lia. }
    destruct (readable_core MAX_NUM_CORES i ranged) as [c|] eqn:Hr.
    + split; [intros _; apply Hiff; eauto | reflexivity].
    + split; [intros H; congruence|].
      intros H. apply Hiff in H as [c [=]].
  - rewrite (read_request_outcome count i ranged Hc req Hreq).
    destruct (readable_core MAX_NUM_CORES i ranged); auto.
Qed.

End ProcFileMore.

Section ProcFileMoreWitnesses.

Import ProcFile.

Lemma failed_write_changes_only_response_witness :
  corestate (snd (demo_write 8 (ReqOther 7) demo_loaded))
  = corestate demo_loaded.
Proof.
  exact (proj1 (proj2 (failed_write_changes_only_response 1024 2 1 0
                         demo_sizeof id id (fun i => Z.of_nat i mod 4)
                         (fun _ => true) 8 (ReqOther 7) demo_services
                         demo_loaded eq_refl))).
Defined.

Lemma read_requests_follow_core_range_witness :
  fst (demo_write 16 (ReqPmuRead 1)
         (snd (demo_write 16 (ReqCoreRange 1 1) demo_loaded))) = 16
  <-> 1 <= Z.of_nat 1 <= 1 /\ (1 < 2)%nat.
Proof.
  refine (proj1 (proj2 (proj2
            (read_requests_follow_core_range 1024 2 1 0 demo_sizeof id id
               (fun i => Z.of_nat i mod 4) (fun _ => true) 2
               (fun r => match r with
                         | ReqCoreRange _ _ => 16
                         | ReqPmuRead _ | ReqMsrRead _ => 12
                         | _ => 8
                         end)
               16 [mk_core false [0] [0]; mk_core false [0] [0]] 0 1 1 1%nat
               (ReqPmuRead 1) _ (or_introl eq_refl) _ _ _))));
    [split; discriminate | discriminate | discriminate | cbn; lia].
Defined.

End ProcFileMoreWitnesses.

(** ** The timer callback, the PMU set-up and the clock *)

Section MonitorFacts.

Import ProcFile Monitor.

Variable FIRST_CORE : nat.
Variable core_in_module : nat -> Z.
Variable pmu_update : core -> core.
Variable is_msr_dirty : core -> Z.
Variable msr_update : core -> core.
Variable kernel_basicalg : list core -> list core.

Abbreviation visit' :=
  (visit FIRST_CORE core_in_module pmu_update is_msr_dirty msr_update
     kernel_basicalg).
Abbreviation callback' :=
  (monitor_callback FIRST_CORE core_in_module pmu_update is_msr_dirty
     msr_update kernel_basicalg).

(** What the visit of one CPU adds to the trace. *)
Lemma visit_adds (cs : list core) (evs : list kevent) (i : nat) :
  exists new,
    snd (visit' (cs, evs) i) = evs ++ new /\
    (forall e, In e new -> event_of_visit FIRST_CORE core_in_module i e) /\
    (length (List.filter is_basicalg new)
     <= if (i =? FIRST_CORE)%nat then 1 else 0)%nat.
Proof.
  unfold Monitor.visit, event_of_visit.
  destruct (cs !! i) as [c|];
    [|exists []; rewrite app_nil_r; cbn; repeat split; try tauto; lia].
  destruct (core_disabled c);
    [exists []; rewrite app_nil_r; cbn; repeat split; try tauto; lia|].
  destruct (i =? FIRST_CORE)%nat eqn:Hf.
  - apply Nat.eqb_eq in Hf.
    destruct (kernel_basicalg _ !! i) as [c2|];
      [destruct ((core_in_module i =? 0) && (is_msr_dirty c2 =? 1)) eqn:Hm|].
    + apply andb_true_iff in Hm as [Hm _].
      exists [PmuUpdate i; Basicalg; MsrUpdate i]. cbn [snd].
      rewrite <- app_assoc. split; [reflexivity|]. split; [|cbn; lia].
      intros e [<-|[<-|[<-|[]]]]; auto. right. right. split; [reflexivity|lia].
    + exists [PmuUpdate i; Basicalg]. cbn [snd].
      split; [reflexivity|]. split; [|cbn; lia].
      intros e [<-|[<-|[]]]; auto.
    + exists [PmuUpdate i; Basicalg]. cbn [snd].
      split; [reflexivity|]. split; [|cbn; lia].
      intros e [<-|[<-|[]]]; auto.
  - destruct (<[i := pmu_update c]> cs !! i) as [c2|];
      [destruct ((core_in_module i =? 0) && (is_msr_dirty c2 =? 1)) eqn:Hm|].
    + apply andb_true_iff in Hm as [Hm _].
      exists [PmuUpdate i; MsrUpdate i]. cbn [snd].
      rewrite <- app_assoc. split; [reflexivity|]. split; [|cbn; lia].
      intros e [<-|[<-|[]]]; auto. right. right. split; [reflexivity|lia].
    + exists [PmuUpdate i]. cbn [snd].
      split; [reflexivity|]. split; [|cbn; lia].
      intros e [<-|[]]; auto.
    + exists [PmuUpdate i]. cbn [snd].
      split; [reflexivity|]. split; [|cbn; lia].
      intros e [<-|[]]; auto.
Qed.

Lemma fold_visit_adds (online : list nat) :
  forall (cs : list core) (evs : list kevent),
  exists new,
    snd (fold_left visit' online (cs, evs)) = evs ++ new /\
    (forall e, In e new ->
       exists i, In i online
                 /\ event_of_visit FIRST_CORE core_in_module i e) /\
    (length (List.filter is_basicalg new)
     <= count_occ Nat.eq_dec online FIRST_CORE)%nat.
Proof.
  induction online as [|i online IH]; intros cs evs.
  - exists []. cbn. rewrite app_nil_r. repeat split; [tauto | lia].
  - cbn [fold_left].
    destruct (visit_adds cs evs i) as (new1 & H1 & Hev1 & Hc1).
    destruct (visit' (cs, evs) i) as [cs1 evs1]. cbn [snd] in H1. subst evs1.
    destruct (IH cs1 (evs ++ new1)) as (new2 & H2 & Hev2 & Hc2).
    exists (new1 ++ new2). rewrite H2, app_assoc.
    split; [reflexivity|]. split.
    + intros e He. apply in_app_iff in He as [He|He].
      * exists i. split; [now left | now apply Hev1].
      * destruct (Hev2 e He) as (j & Hj & Hej). exists j.
        split; [now right | exact Hej].
    + rewrite List.filter_app, length_app. cbn [count_occ].
      destruct (Nat.eq_dec i FIRST_CORE) as [->|Hne].
      * rewrite Nat.eqb_refl in Hc1. lia.
      * replace (i =? FIRST_CORE)%nat with false in Hc1
          by (symmetry; now apply Nat.eqb_neq).
        lia.
Qed.

(** The timer callback: when monitoring is off it does nothing and asks
    not to be restarted; otherwise it asks to be restarted, every PMU and
    MSR update it makes is for a CPU it visits, it updates the MSRs only of
    CPUs whose position in the module is 0, and it calls the tuner only on
    a visit of [FIRST_CORE], at most once for each. *)
Theorem monitor_callback_updates (running : bool) (online : list nat)
    (cs : list core) :
  (running = false ->
   callback' running online cs = (HRTIMER_NORESTART, (cs, []))) /\
  (running = true ->
   fst (callback' running online cs) = HRTIMER_RESTART /\
   (forall e, In e (snd (snd (callback' running online cs))) ->
      exists i, In i online
                /\ event_of_visit FIRST_CORE core_in_module i e) /\
   (length (List.filter is_basicalg (snd (snd (callback' running online cs))))
    <= count_occ Nat.eq_dec online FIRST_CORE)%nat).
Proof.
  unfold Monitor.monitor_callback. split; intros ->; cbn [negb fst snd];
    [reflexivity|].
  split; [reflexivity|].
  destruct (fold_visit_adds online cs []) as (new & -> & Hev & Hc).
  cbn [app]. split; assumption.
Qed.

End MonitorFacts.

Section PmuAndClock.

Import Monitor.

Lemma monitor_callback_updates_witness :
  fst (monitor_callback 0 (fun i => Z.of_nat i mod 4) id (fun _ => 1) id id
         true [0; 1]%nat
         [ProcFile.mk_core false [0] [0]; ProcFile.mk_core false [0] [0]])
  = HRTIMER_RESTART.
Proof.
  exact (proj1 (proj2 (monitor_callback_updates 0 (fun i => Z.of_nat i mod 4)
                         id (fun _ => 1) id id true [0; 1]%nat
                         [ProcFile.mk_core false [0] [0];
                          ProcFile.mk_core false [0] [0]])
                 eq_refl)).
Defined.

Lemma halves_of_event (e : Z) :
  0 <= e < 2 ^ 64 ->
  0 <= Z.land e 4294967295 < 2 ^ 32 /\
  0 <= Z.shiftr e 32 < 2 ^ 32 /\
  Z.land e 4294967295 + 2 ^ 32 * Z.shiftr e 32 = e.
Proof.
  intros He.
  change 4294967295 with (Z.ones 32).
  rewrite Z.land_ones by lia. rewrite Z.shiftr_div_pow2 by lia.
  pose proof (Z.mod_pos_bound e (2 ^ 32) ltac:(lia)).
  pose proof (Z.div_mod e (2 ^ 32) ltac:(lia)).
  split; [lia|]. split; [|lia].
  split; [apply Z.div_pos; lia|].
  apply Z.div_lt_upper_bound; lia.
Qed.

(** [configure_pmu] writes the registers 0x186 .. 0x18C and then 0x38F,
    in this order; for event codes of 64 bits the two halves written are
    32-bit values and make up the event code again; the last write is of
    0x7F. *)
Theorem configure_pmu_writes_whole_events
    (e1 e2 e3 e4 e5 e6 e7 : Z) :
  Forall (fun e => 0 <= e < 2 ^ 64) [e1; e2; e3; e4; e5; e6; e7] ->
  map msr (configure_pmu e1 e2 e3 e4 e5 e6 e7)
    = [390; 391; 392; 393; 394; 395; 396; 911] /\
  map (fun w => low w + 2 ^ 32 * high w) (configure_pmu e1 e2 e3 e4 e5 e6 e7)
    = [e1; e2; e3; e4; e5; e6; e7; 127] /\
  Forall (fun w => 0 <= low w < 2 ^ 32 /\ 0 <= high w < 2 ^ 32)
         (configure_pmu e1 e2 e3 e4 e5 e6 e7).
Proof.
  intros H.
  repeat match goal with
         | H : Forall _ (_ :: _) |- _ =>
             apply List.Forall_cons_iff in H as [?%halves_of_event H]
         end.
  split; [reflexivity|].
  unfold configure_pmu, write_event. cbn [map low high].
  repeat match goal with
         | H : _ /\ _ /\ _ = _ |- _ => destruct H as (? & ? & ?)
         end.
  split.
  - repeat match goal with
           | H : ?x = _ |- context [?x] => rewrite H
           end.
    reflexivity.
  - repeat (constructor; [cbn [low high]; split; (assumption || lia)|]).
    constructor.
Qed.

Lemma configure_pmu_writes_whole_events_witness :
  map (fun w => low w + 2 ^ 32 * high w)
      (configure_pmu 4391376 4391377 4391378 4391379 4391380
         (2 ^ 40 + 60) 192)
  = [4391376; 4391377; 4391378; 4391379; 4391380; 2 ^ 40 + 60; 192; 127].
Proof.
  refine (proj1 (proj2 (configure_pmu_writes_whole_events 4391376 4391377
                          4391378 4391379 4391380 (2 ^ 40 + 60) 192 _))).
  repeat (constructor; [lia|]). constructor.
Defined.

(** [time_ms] is the time in whole milliseconds, the fraction dropped,
    and later times give values that are not less, as long as the seconds
    in milliseconds fit 64 bits. *)
Theorem time_ms_is_whole_milliseconds (tv_sec tv_nsec : Z) :
  0 <= tv_sec -> tv_sec * 1000 + 999 < 2 ^ 64 ->
  0 <= tv_nsec < 1000000000 ->
  Clock.time_ms tv_sec tv_nsec = (tv_sec * 1000000000 + tv_nsec) / 1000000 /\
  forall sec' nsec',
    0 <= sec' -> sec' * 1000 + 999 < 2 ^ 64 -> 0 <= nsec' < 1000000000 ->
    tv_sec * 1000000000 + tv_nsec <= sec' * 1000000000 + nsec' ->
    Clock.time_ms tv_sec tv_nsec <= Clock.time_ms sec' nsec'.
Proof.
  assert (forall s n, 0 <= s -> s * 1000 + 999 < 2 ^ 64 ->
                      0 <= n < 1000000000 ->
                      Clock.time_ms s n = (s * 1000000000 + n) / 1000000)
    as Hms.
  { intros s n Hs Hfit Hn. unfold Clock.time_ms.
    rewrite Z.quot_div_nonneg by lia.
    assert (0 <= n / 1000000 <= 999) as Hq.
    { split; [apply Z.div_pos; lia|].
      apply Z.lt_succ_r. apply Z.div_lt_upper_bound; lia. }
    rewrite (Z.mod_small (n / 1000000)) by lia.
    rewrite (Z.mod_small s) by lia.
    rewrite (Z.mod_small (s * 1000)) by lia.
    rewrite Z.mod_small by lia.
    replace (s * 1000000000 + n) with (n + (s * 1000) * 1000000) by lia.
    rewrite Z.div_add by lia. lia. }
  intros Hs Hfit Hn. split; [now apply Hms|].
  intros sec' nsec' Hs' Hfit' Hn' Hle.
  rewrite !Hms by assumption.
  apply Z.div_le_mono; lia.
Qed.

Lemma time_ms_is_whole_milliseconds_witness :
  Clock.time_ms 12 345678901 = 12345.
Proof.
  refine (proj1 (time_ms_is_whole_milliseconds 12 345678901 _ _ _)); lia.
Defined.

End PmuAndClock.
